(** * AwsLamdaImageResize: the Lambda handler of [index.js]

    A shallow embedding of [exports.handler] and of the JavaScript built-ins
    it calls, followed by the properties of the renditions it derives.

    - JavaScript strings are sequences of UTF-16 code units ([jsstring]).
    - JavaScript numbers are IEEE 754 binary64 values: a finite one is held
      as the rational it denotes ([number]), and the quotients and products
      of the source are rounded to binary64 ([round64]); the pixel dimensions
      reported by [gm] are integers.
    - The S3 bucket is a finite map from (bucket, key) to objects.
    - [async.each] / [async.waterfall] and the Node event loop are a step
      function over the state of the six size jobs, driven by a schedule
      that picks which pending completion runs next. *)

From Stdlib Require Import ZArith NArith QArith Qround Qabs Qpower SpecFloat.
From Stdlib Require Import Bool List String Ascii Lia Lqa.
From stdpp Require Import gmap list option.

Local Open Scope N_scope.

(** ** JavaScript strings *)

(** A string is its sequence of UTF-16 code units. *)
Definition jsstring := list N.

(** A string literal of the source, all of whose characters are ASCII. *)
Definition js (s : string) : jsstring :=
  map N_of_ascii (list_ascii_of_string s).

Definition char_slash : N := 47.    (* "/" *)
Definition char_plus : N := 43.     (* "+" *)
Definition char_space : N := 32.    (* " " *)
Definition char_dot : N := 46.      (* "." *)
Definition char_percent : N := 37.  (* "%" *)

(** [s.split(sep)] for a one-character separator: never empty, the empty
    string splits into one empty segment. *)
Fixpoint split (sep : N) (s : jsstring) : list jsstring :=
  match s with
  | [] => [[]]
  | c :: r =>
      if c =? sep then [] :: split sep r
      else match split sep r with
           | seg :: segs => (c :: seg) :: segs
           | [] => [[c]]
           end
  end.

(** [a[i]] on an array of strings: [None] is [undefined]. *)
Definition index (a : list jsstring) (i : nat) : option jsstring := a !! i.

(** [ToString] as applied by [+] to an operand that is a string or
    [undefined]. *)
Definition ToString (v : option jsstring) : jsstring :=
  match v with
  | Some s => s
  | None => js "undefined"
  end.

(** [s.replace(/\+/g, " ")]. *)
Definition replace_plus (s : jsstring) : jsstring :=
  map (fun c => if c =? char_plus then char_space else c) s.

(** [s.match(re)] for the regular expression of line 82: a dot, a captured
    run of characters other than a dot, the end of the input. The match is
    the leftmost position holding a dot that only non-dot characters follow;
    the result is capture group 1, or [None] for [null]. *)
Fixpoint match_extension (s : jsstring) : option jsstring :=
  match s with
  | [] => None
  | c :: r =>
      if (c =? char_dot) && forallb (fun d => negb (d =? char_dot)) r
      then Some r
      else match_extension r
  end.

(** *** [decodeURIComponent] *)

Definition hex_digit (c : N) : option N :=
  if (48 <=? c) && (c <=? 57) then Some (c - 48)
  else if (65 <=? c) && (c <=? 70) then Some (c - 55)
  else if (97 <=? c) && (c <=? 102) then Some (c - 87)
  else None.

(** The octets of a multi-byte UTF-8 sequence still being read: how many
    continuation octets are missing, the bits gathered so far, and the
    smallest code point that needs a sequence of this length. *)
Inductive pending :=
| NoOctets
| Octets (missing : nat) (bits : N) (least : N).

(** The UTF-16 code units of a code point. *)
Definition utf16 (V : N) : jsstring :=
  if V <? 0x10000 then [V]
  else [N.land (N.shiftr (V - 0x10000) 10) 0x3FF + 0xD800;
        N.land (V - 0x10000) 0x3FF + 0xDC00].

(** A decoded code point is accepted when it is not an overlong encoding,
    not a surrogate and not beyond U+10FFFF. *)
Definition valid_code_point (V least : N) : bool :=
  (least <=? V) && (V <=? 0x10FFFF) && negb ((0xD800 <=? V) && (V <=? 0xDFFF)).

(** The first octet of a sequence: its length and payload bits. Octets
    [10xxxxxx] and [11111xxx] cannot start a sequence. *)
Definition lead_octet (B : N) : option pending :=
  if B <? 0xC0 then None
  else if B <? 0xE0 then Some (Octets 1 (N.land B 0x1F) 0x80)
  else if B <? 0xF0 then Some (Octets 2 (N.land B 0x0F) 0x800)
  else if B <? 0xF8 then Some (Octets 3 (N.land B 0x07) 0x10000)
  else None.

(** [Decode(string, "")] of ECMA-262, one escape at a time. [None] is a
    thrown [URIError]. *)
Fixpoint Decode (p : pending) (s : jsstring) : option jsstring :=
  match s with
  | [] => match p with NoOctets => Some [] | Octets _ _ _ => None end
  | c :: r =>
      if c =? char_percent then
        match r with
        | h :: l :: r' =>
            match hex_digit h, hex_digit l with
            | Some a, Some b =>
                let B := 16 * a + b in
                match p with
                | NoOctets =>
                    if B <? 0x80 then
                      match Decode NoOctets r' with
                      | Some R => Some (B :: R)
                      | None => None
                      end
                    else
                      match lead_octet B with
                      | Some q => Decode q r'
                      | None => None
                      end
                | Octets missing bits least =>
                    if N.land B 0xC0 =? 0x80 then
                      let V := N.lor (N.shiftl bits 6) (N.land B 0x3F) in
                      match missing with
                      | S (S m) => Decode (Octets (S m) V least) r'
                      | _ =>
                          if valid_code_point V least then
                            match Decode NoOctets r' with
                            | Some R => Some (utf16 V ++ R)
                            | None => None
                            end
                          else None
                      end
                    else None
                end
            | _, _ => None
            end
        | _ => None
        end
      else
        match p with
        | NoOctets =>
            match Decode NoOctets r with
            | Some R => Some (c :: R)
            | None => None
            end
        | Octets _ _ _ => None
        end
  end.

Definition decodeURIComponent (s : jsstring) : option jsstring :=
  Decode NoOctets s.

(** ** JavaScript numbers *)

(** A number of JavaScript is an IEEE 754 binary64 value. A finite binary64
    value is a rational, and [number] holds that rational. The arithmetic of
    the source is the exact operation followed by the rounding [round64] to
    the nearest binary64 value, ties going to the even significand.

    Infinity and NaN are not represented. In [transform] they only come from
    a division by a dimension that is zero, and [gm] reports positive pixel
    counts; the statements about the geometry assume positive dimensions.
    Zero stands for both of its signs, which no operation of [transform]
    tells apart. *)
Definition number := Q.

Section binary64_rounding.

Local Open Scope Q_scope.

(** The exponent [e] of the binade of a number other than zero:
    [2^e <= |x| < 2^(e+1)]. The difference of the bit lengths of numerator
    and denominator is [e] or [e + 1]. *)
Definition exponent (x : Q) : Z :=
  let l := (Z.log2 (Z.abs (Qnum x)) - Z.log2 (Zpos (Qden x)))%Z in
  if Qle_bool (2 ^ l) (Qabs x) then l else (l - 1)%Z.

(** The nearest integer; of the two nearest ones, the even one. *)
Definition nearest_even (y : Q) : Z :=
  let f := Qfloor y in
  match Qcompare (y - inject_Z f) (1 # 2) with
  | Lt => f
  | Gt => (f + 1)%Z
  | Eq => if Z.even f then f else (f + 1)%Z
  end.

(** The exponent of the last place of a binary64 value in the binade of
    [x]: the significand has 53 bits, and below [2^-1022] (the subnormal
    range) the last place stays at [2^-1074]. *)
Definition quantum (x : Q) : Z := Z.max (exponent x - 52) (-1074).

(** The nearest multiple of [2^e]. *)
Definition round_to (e : Z) (x : Q) : Q :=
  inject_Z (nearest_even (x / 2 ^ e)) * 2 ^ e.

(** Rounding to nearest, ties to even, in binary64. The results of
    [transform] stay far below [2^1024], where binary64 overflows. *)
Definition round64 (x : Q) : Q :=
  if Qeq_bool x 0 then 0 else round_to (quantum x) x.

End binary64_rounding.

(** The operators [/], [*] and [-] on numbers. *)
Definition Number_divide (x y : number) : number := round64 (x / y).

Definition Number_multiply (x y : number) : number := round64 (x * y).

Definition Number_subtract (x y : number) : number := round64 (x - y).

Arguments round64 : simpl never.
Arguments Number_divide : simpl never.
Arguments Number_multiply : simpl never.

(** [Math.min] and the comparison it rests on are exact. *)
Definition Math_min (a b : number) : number :=
  if Qle_bool a b then a else b.

(** A number that holds an integer value. *)
Definition is_integer (x : number) : Prop := exists z : Z, (x == inject_Z z)%Q.

(** *** The reference semantics of binary64

    The Standard Library specifies the IEEE 754 operations on [spec_float];
    binary64 has 53 bits of precision and the exponent bound 1024. These
    definitions relate its values to [number], to compare [Number_divide]
    and [Number_multiply] with [SFdiv] and [SFmul]. *)
Definition float_value (f : spec_float) : option number :=
  match f with
  | S754_zero _ => Some 0%Q
  | S754_finite s m e =>
      Some ((if s then -1 else 1) * inject_Z (Zpos m) * 2 ^ e)%Q
  | S754_infinity _ | S754_nan => None
  end.

Definition float_of_Z (z : Z) : spec_float := binary_normalize 53 1024 z 0 false.

Definition same_number (x : number) (f : spec_float) : bool :=
  match float_value f with
  | Some r => Qeq_bool x r
  | None => false
  end.

(** The scaling factor and the two arguments of [resize] for the side [m] of
    a configured box and a [w] x [h] source, computed both ways. *)
Definition same_scaling (m w h : Z) : bool :=
  let s := Number_divide (inject_Z m) (inject_Z w) in
  let f := SFdiv 53 1024 (float_of_Z m) (float_of_Z w) in
  same_number s f
  && same_number (Number_multiply s (inject_Z w)) (SFmul 53 1024 f (float_of_Z w))
  && same_number (Number_multiply s (inject_Z h)) (SFmul 53 1024 f (float_of_Z h)).

(** ** Configuration (lines 9-48) *)

Definition AWS_ACL : jsstring := js "public-read".

Module imageSize.
Record t := mk { name : jsstring; width : Z; height : Z; crop : bool }.
End imageSize.

Definition IMAGE_SIZES : list imageSize.t :=
  [ imageSize.mk (js "large") 640 640 false;
    imageSize.mk (js "large_square") 640 640 true;
    imageSize.mk (js "medium") 320 320 false;
    imageSize.mk (js "medium_square") 320 320 true;
    imageSize.mk (js "thumb") 120 120 false;
    imageSize.mk (js "thumb_square") 120 120 true ].

(** ** The geometry computed by [transform] (lines 108-149) *)

(** What [gm(...).size] reports: the pixel dimensions of the decoded image. *)
Module size.
Record t := mk { width : Z; height : Z }.
End size.

(** The values [transform] computes before it calls [gm]: the arguments of
    [crop(cropWidth, cropHeight, xCrop, yCrop)], the scaling factor and the
    arguments of [resize(width, height)].

    The two quotients and the two products of lines 144-149 are rounded to
    binary64. The differences and halves of lines 124 and 137 are written
    without rounding: on pixel counts below [2^53] they are binary64 values
    as they stand, and [Number_subtract] and [Number_divide] return them
    unchanged. *)
Record geometry := {
  cropWidth : number;
  cropHeight : number;
  xCrop : number;
  yCrop : number;
  scalingFactor : number;
  width : number;
  height : number
}.

Definition transform_geometry (imageSize : imageSize.t) (size : size.t) : geometry :=
  let size_width : number := inject_Z (size.width size) in
  let size_height : number := inject_Z (size.height size) in
  let cropHeight := size_height in
  let cropWidth := size_width in
  let xCrop := 0%Q in
  let yCrop := 0%Q in
  let '(cropHeight, cropWidth, xCrop, yCrop) :=
    if imageSize.crop imageSize then
      if (size.width size >? size.height size)%Z then
        (* Landscape, change x *)
        (size_height, size_height, ((size_width - size_height) / 2)%Q, 0%Q)
      else
        (* Portrait, change y *)
        (size_width, size_width, 0%Q, ((size_height - size_width) / 2)%Q)
    else
      (cropHeight, cropWidth, xCrop, yCrop) in
  let scalingFactor :=
    Math_min (Number_divide (inject_Z (imageSize.width imageSize)) size_width)
             (Number_divide (inject_Z (imageSize.height imageSize)) size_height) in
  let width := Number_multiply scalingFactor size_width in
  let height := Number_multiply scalingFactor size_height in
  {| cropWidth := cropWidth; cropHeight := cropHeight;
     xCrop := xCrop; yCrop := yCrop;
     scalingFactor := scalingFactor; width := width; height := height |}.

(** ** Values seen by the handler *)

(** What a callback receives as its error: one of the handler's own string
    messages, or an error object raised by [aws-sdk] or [gm]. *)
Inductive jsval :=
| VString (s : jsstring)
| VError (code : jsstring).

Inductive exception := URIError | TypeError.

Definition bytes := list Byte.byte.

(** An S3 object: what [getObject] answers and what [putObject] stores. *)
Record s3object := { Body : bytes; ContentType : jsstring; ACL : jsstring }.

(** The fields of the notification the handler reads:
    [event.Records[0].s3.bucket.name] and [event.Records[0].s3.object.key]. *)
Module event.
Record t := mk { bucket_name : jsstring; object_key : jsstring }.
End event.

(** ** One iteration, up to [async.waterfall] (lines 58-95) *)

(** The variables an iteration binds and its callbacks close over. *)
Record closure := {
  imageSize : imageSize.t;
  srcBucket : jsstring;
  srcKey : jsstring;
  dstBucket : jsstring;
  dstKey : jsstring;
  imageType : jsstring
}.

(** Lines 62-63: [srcBucket.split('/')[0]]; element 0 of a split exists. *)
Definition bucket_of (event : event.t) : jsstring :=
  let srcBucket := event.bucket_name event in
  ToString (index (split char_slash srcBucket) 0).

(** Line 66. *)
Definition key_of (event : event.t) : option jsstring :=
  decodeURIComponent (replace_plus (event.object_key event)).

(** Line 68. *)
Definition destination_key (imageSize : imageSize.t) (srcKey : jsstring) : jsstring :=
  imageSize.name imageSize ++ js "/"
    ++ ToString (index (rev (split char_slash srcKey)) 1) ++ js "/"
    ++ ToString (index (rev (split char_slash srcKey)) 0).

(** [a != b] on two strings. *)
Definition neq (a b : jsstring) : bool := negb (bool_decide (a = b)).

(** The messages of lines 77, 84 and 92. *)
Definition same_error : jsval :=
  VString (js "Source and destination buckets are the same.").

Definition type_error : jsval :=
  VString (js "Could not determine the image type.").

Definition skip_message (imageType : jsstring) : jsstring :=
  imageType ++ js " is not a resizeable image type. Nothing to do here.".

(** How the synchronous part of an iteration ends. *)
Inductive started :=
| Throws (e : exception)
| Returns (err : option jsval) (result : option jsstring)
| Waterfall (c : closure).

Definition iteratee (event : event.t) (imageSize : imageSize.t) : started :=
  let srcBucket := bucket_of event in
  match key_of event with
  | None => Throws URIError
  | Some srcKey =>
      let dstBucket := srcBucket in
      let dstKey := destination_key imageSize srcKey in
      if bool_decide (dstKey = srcKey) then
        Returns (Some same_error) None
      else
        match match_extension srcKey with
        | None =>
            Returns (Some type_error) None
        | Some imageType =>
            if neq imageType (js "jpg") && neq imageType (js "jpeg")
               && neq imageType (js "png") then
              Returns None (Some (skip_message imageType))
            else
              Waterfall {| imageSize := imageSize;
                           srcBucket := srcBucket; srcKey := srcKey;
                           dstBucket := dstBucket; dstKey := dstKey;
                           imageType := imageType |}
        end
  end.

(** ** The collaborators: S3 and gm *)

(** The imaging library and the failures of S3 requests. [gm_size] is
    [None] when the image cannot be identified: the callback of line 106
    then runs with [size] undefined. *)
Record Env := {
  gm_size : bytes -> option size.t;
  gm_toBuffer : bytes -> geometry -> jsstring -> jsval + bytes;
  getObject_error : jsstring -> jsstring -> option jsval;
  putObject_error : jsstring -> jsstring -> option jsval
}.

Abbreviation store := (gmap (jsstring * jsstring) s3object).

Definition s3_getObject (E : Env) (s3 : store) (Bucket Key : jsstring)
  : jsval + s3object :=
  match getObject_error E Bucket Key with
  | Some err => inl err
  | None =>
      match s3 !! (Bucket, Key) with
      | Some response => inr response
      | None => inl (VError (js "NoSuchKey"))
      end
  end.

(** ** The event loop *)

(** Where the waterfall of one iteration stands: the request whose
    completion it waits for, or that its callback has been called. *)
Inductive job :=
| download (c : closure)
| transform (c : closure) (response : s3object)
| toBuffer (c : closure) (response : s3object) (g : geometry)
| upload (c : closure) (contentType : jsstring) (data : bytes)
| finished (err : option jsval).

(** What an invocation does that can be seen from outside: the requests
    sent by iteration [i], what is written with [console.error] (the text
    before the error, and the error), and the calls of the handler's own
    [callback]. The lines written with [console.log] are left out. *)
Inductive obs :=
| s3_getObject_request (i : nat) (Bucket Key : jsstring)
| gm_size_request (i : nat) (body : bytes)
| gm_toBuffer_request (i : nat) (body : bytes) (g : geometry) (imageType : jsstring)
| s3_putObject_request (i : nat) (Bucket Key : jsstring) (object : s3object)
| console_error (text : jsstring) (err : jsval)
| handler_callback (err : option jsval) (result : jsstring).

Record state := {
  s3 : store;
  jobs : list job;
  completed : nat;               (* iterations that called back without error *)
  settled : bool;                (* the final callback of async.each has run *)
  trace : list obs;
  uncaught : option exception
}.

Definition log (o : obs) (st : state) : state :=
  {| s3 := s3 st; jobs := jobs st; completed := completed st;
     settled := settled st; trace := trace st ++ [o]; uncaught := uncaught st |}.

Definition set_jobs (l : list job) (st : state) : state :=
  {| s3 := s3 st; jobs := l; completed := completed st;
     settled := settled st; trace := trace st; uncaught := uncaught st |}.

Definition put (k : jsstring * jsstring) (o : s3object) (st : state) : state :=
  {| s3 := <[k := o]> (s3 st); jobs := jobs st; completed := completed st;
     settled := settled st; trace := trace st; uncaught := uncaught st |}.

Definition throw (e : exception) (st : state) : state :=
  {| s3 := s3 st; jobs := jobs st; completed := completed st;
     settled := settled st; trace := trace st; uncaught := Some e |}.

(** The texts of lines 197 and 199. *)
Definition final_error_text : jsstring := js "Unable to resize image due to an error: ".

Definition all_done : jsstring := js "All files have been processed successfully".

(** Lines 192-201, the final callback of [async.each], which runs once. *)
Definition final_callback (err : option jsval) (st : state) : state :=
  if settled st then st
  else
    let st := {| s3 := s3 st; jobs := jobs st; completed := completed st;
                 settled := true; trace := trace st; uncaught := uncaught st |} in
    match err with
    | Some e => log (console_error final_error_text e) st
    | None => log (handler_callback None all_done) st
    end.

(** The callback [async.each] hands to an iteration: an error goes to the
    final callback at once, and so does the last success. *)
Definition iterator_callback (total : nat) (err : option jsval) (st : state) : state :=
  match err with
  | Some e => final_callback (Some e) st
  | None =>
      let st := {| s3 := s3 st; jobs := jobs st; completed := S (completed st);
                   settled := settled st; trace := trace st; uncaught := uncaught st |} in
      if Nat.eqb (completed st) total then final_callback None st else st
  end.

(** Lines 173-190, the final callback of [async.waterfall] in iteration [i]. *)
Definition waterfall_callback (total i : nat) (c : closure) (err : option jsval)
    (st : state) : state :=
  let st := set_jobs (<[i := finished err]> (jobs st)) st in
  match err with
  | Some e =>
      iterator_callback total (Some e)
        (log (console_error
                (js "Unable to resize " ++ srcBucket c ++ js "/" ++ srcKey c
                   ++ js " and upload to " ++ dstBucket c ++ js "/" ++ dstKey c
                   ++ js " due to an error: ") e) st)
  | None => iterator_callback total None st
  end.

(** [async.each] calling the iteratee on one element (line 56). *)
Definition start (event : event.t) (total : nat) (st : state)
    (imageSize : imageSize.t) : state :=
  match uncaught st with
  | Some _ => st
  | None =>
      let i := length (jobs st) in
      match iteratee event imageSize with
      | Throws e => throw e st
      | Returns err _ =>
          iterator_callback total err (set_jobs (jobs st ++ [finished err]) st)
      | Waterfall c =>
          log (s3_getObject_request i (srcBucket c) (srcKey c))
            (set_jobs (jobs st ++ [download c]) st)
      end
  end.

(** The handler, up to its return: every iteration has run its synchronous
    part and the requests are in flight. *)
Definition handler (event : event.t) (bucket : store) : state :=
  fold_left (start event (length IMAGE_SIZES)) IMAGE_SIZES
    {| s3 := bucket; jobs := []; completed := 0; settled := false;
       trace := []; uncaught := None |}.

(** The completion of the request iteration [i] waits for: the request
    takes effect and its callback runs, up to the next request. *)
Definition step (E : Env) (st : state) (i : nat) : state :=
  let total := length IMAGE_SIZES in
  match uncaught st with
  | Some _ => st
  | None =>
      match jobs st !! i with
      | None | Some (finished _) => st
      | Some (download c) =>
          match s3_getObject E (s3 st) (srcBucket c) (srcKey c) with
          | inl err => waterfall_callback total i c (Some err) st
          | inr response =>
              log (gm_size_request i (Body response))
                (set_jobs (<[i := transform c response]> (jobs st)) st)
          end
      | Some (transform c response) =>
          match gm_size E (Body response) with
          | None => throw TypeError st
          | Some size =>
              let g := transform_geometry (imageSize c) size in
              log (gm_toBuffer_request i (Body response) g (imageType c))
                (set_jobs (<[i := toBuffer c response g]> (jobs st)) st)
          end
      | Some (toBuffer c response g) =>
          match gm_toBuffer E (Body response) g (imageType c) with
          | inl err => waterfall_callback total i c (Some err) st
          | inr buffer =>
              let object := {| Body := buffer; ContentType := ContentType response;
                               ACL := AWS_ACL |} in
              log (s3_putObject_request i (dstBucket c) (dstKey c) object)
                (set_jobs (<[i := upload c (ContentType response) buffer]> (jobs st)) st)
          end
      | Some (upload c contentType data) =>
          match putObject_error E (dstBucket c) (dstKey c) with
          | Some err => waterfall_callback total i c (Some err) st
          | None =>
              let object := {| Body := data; ContentType := contentType;
                               ACL := AWS_ACL |} in
              waterfall_callback total i c None
                (put (dstBucket c, dstKey c) object st)
          end
      end
  end.

(** An invocation: the handler, then the completions in the order the
    schedule gives. *)
Definition run (E : Env) (schedule : list nat) (st : state) : state :=
  fold_left (step E) schedule st.

Definition invoke (E : Env) (event : event.t) (bucket : store)
    (schedule : list nat) : state :=
  run E schedule (handler event bucket).

Definition is_finished (j : job) : bool :=
  match j with finished _ => true | _ => false end.

(** Nothing is left to run: every iteration has called back, or an
    exception has ended the process. *)
Definition terminal (st : state) : Prop :=
  uncaught st <> None \/ Forall (fun j => is_finished j = true) (jobs st).

(** ** Names used in the statements *)

Definition large : imageSize.t := imageSize.mk (js "large") 640 640 false.
Definition large_square : imageSize.t := imageSize.mk (js "large_square") 640 640 true.
Definition thumb : imageSize.t := imageSize.mk (js "thumb") 120 120 false.

(** Collaborators that never fail: every image is 1920x1080 and encodes to
    its own bytes. *)
Definition quiet : Env :=
  {| gm_size := fun _ => Some (size.mk 1920 1080);
     gm_toBuffer := fun body _ _ => inr body;
     getObject_error := fun _ _ => None;
     putObject_error := fun _ _ => None |}.

(** The iteration a request was sent by. *)
Definition request_of (o : obs) : option nat :=
  match o with
  | s3_getObject_request i _ _ => Some i
  | gm_size_request i _ => Some i
  | gm_toBuffer_request i _ _ _ => Some i
  | s3_putObject_request i _ _ _ => Some i
  | console_error _ _ => None
  | handler_callback _ _ => None
  end.

(** The closure a pending iteration runs in. *)
Definition closure_of (j : job) : option closure :=
  match j with
  | download c | transform c _ | toBuffer c _ _ | upload c _ _ => Some c
  | finished _ => None
  end.

(** ** What holds of every state of an invocation *)

(** A request of an iteration names the buckets and keys of its closure. *)
Definition request_wf (c : closure) (o : obs) : Prop :=
  match o with
  | s3_getObject_request _ B K => B = srcBucket c /\ K = srcKey c
  | s3_putObject_request _ B K object =>
      B = dstBucket c /\ K = dstKey c /\ ACL object = AWS_ACL
  | _ => True
  end.

(** The state of an iteration agrees with how its synchronous part ended:
    one that returned early stays finished with the error it passed, one
    that entered the waterfall keeps its closure. *)
Definition job_wf (event : event.t) (sz : imageSize.t) (j : job) : Prop :=
  match j, iteratee event sz with
  | finished err, Returns e _ => err = e
  | finished err, Waterfall _ => True
  | j, Waterfall c => closure_of j = Some c
  | _, _ => False
  end.

(** Every request in the trace was sent by an iteration that entered the
    waterfall, and names the buckets and keys of its closure. *)
Definition trace_wf (event : event.t) (sizes : list imageSize.t) (st : state) : Prop :=
  forall o i, o ∈ trace st -> request_of o = Some i ->
    exists sz c, sizes !! i = Some sz /\ iteratee event sz = Waterfall c /\
      request_wf c o.

Record well_formed (event : event.t) (sizes : list imageSize.t) (st : state) : Prop := {
  wf_jobs : Forall2 (job_wf event) sizes (jobs st);
  wf_trace : trace_wf event sizes st
}.

(** The state an iteration is in when the handler returns. *)
Definition job_of (s : started) : job :=
  match s with
  | Waterfall c => download c
  | Returns err _ => finished err
  | Throws _ => finished None
  end.

(** The part of a string before the first occurrence of a character, or the
    whole string when the character does not occur. *)
Fixpoint before_first (sep : N) (s : jsstring) : jsstring :=
  match s with
  | [] => []
  | c :: r => if c =? sep then [] else c :: before_first sep r
  end.

(** *** What [async.each] has been told *)

Definition is_ok (j : job) : bool :=
  match j with finished None => true | _ => false end.

(** The iterations that have called back without error. *)
Fixpoint successes (l : list job) : nat :=
  match l with
  | [] => 0
  | j :: l => (if is_ok j then 1 else 0) + successes l
  end.

(** The calls of the handler's [callback], in order. *)
Fixpoint callbacks (t : list obs) : list (option jsval * jsstring) :=
  match t with
  | [] => []
  | handler_callback err result :: t => (err, result) :: callbacks t
  | _ :: t => callbacks t
  end.

(** The bookkeeping of [async.each]: [completed] counts the successes; the
    final callback has run exactly when an iteration has failed or all of
    them have succeeded. In the first case it has written the error to the
    console and the handler's [callback] has not been called; in the second
    the handler's [callback] has been called once, with no error. *)
Definition aggregated (total : nat) (st : state) : Prop :=
  completed st = successes (jobs st) /\
  (length (jobs st) <= total)%nat /\
  if settled st then
    ((exists e, finished (Some e) ∈ jobs st /\
                console_error final_error_text e ∈ trace st) /\
     callbacks (trace st) = [])
    \/ (successes (jobs st) = total /\ callbacks (trace st) = [(None, all_done)])
  else
    (forall e, finished (Some e) ∉ jobs st) /\
    (successes (jobs st) < total)%nat /\
    callbacks (trace st) = [].

(** *** What an invocation leaves in the bucket *)

(** Where an iteration stores its rendition. *)
Definition dst (c : closure) : jsstring * jsstring := (dstBucket c, dstKey c).

(** The object an iteration stores, if any, when the bucket holds [bucket]
    at the time of the invocation: the source is downloaded, identified,
    cropped, resized and encoded, and the upload is accepted. *)
Definition rendition (E : Env) (bucket : store) (c : closure) : option s3object :=
  match s3_getObject E bucket (srcBucket c) (srcKey c) with
  | inl _ => None
  | inr response =>
      match gm_size E (Body response) with
      | None => None
      | Some size =>
          let g := transform_geometry (imageSize c) size in
          match gm_toBuffer E (Body response) g (imageType c) with
          | inl _ => None
          | inr buffer =>
              match putObject_error E (dstBucket c) (dstKey c) with
              | Some _ => None
              | None => Some {| Body := buffer; ContentType := ContentType response;
                                ACL := AWS_ACL |}
              end
          end
      end
  end.

(** The content of [dst c] once the iteration is over. *)
Definition stored (E : Env) (bucket : store) (c : closure) : option s3object :=
  match rendition E bucket c with
  | Some object => Some object
  | None => bucket !! dst c
  end.

Definition store_rendition (E : Env) (event : event.t) (bucket acc : store)
    (sz : imageSize.t) : store :=
  match iteratee event sz with
  | Waterfall c =>
      match rendition E bucket c with
      | Some object => <[dst c := object]> acc
      | None => acc
      end
  | _ => acc
  end.

(** The bucket with the renditions of every size added. *)
Definition renditions (E : Env) (event : event.t) (bucket : store) : store :=
  fold_left (store_rendition E event bucket) IMAGE_SIZES bucket.

(** What an iteration in state [j] has established, against the bucket
    [s0] the invocation started from and the bucket [s] as it is now. *)
Definition job_sem (E : Env) (event : event.t) (s0 s : store)
    (sz : imageSize.t) (j : job) : Prop :=
  match j with
  | download c =>
      iteratee event sz = Waterfall c /\ s !! dst c = s0 !! dst c
  | transform c response =>
      iteratee event sz = Waterfall c /\ s !! dst c = s0 !! dst c /\
      s3_getObject E s0 (srcBucket c) (srcKey c) = inr response
  | toBuffer c response g =>
      iteratee event sz = Waterfall c /\ s !! dst c = s0 !! dst c /\
      s3_getObject E s0 (srcBucket c) (srcKey c) = inr response /\
      exists size, gm_size E (Body response) = Some size /\
                   g = transform_geometry (imageSize c) size
  | upload c contentType data =>
      iteratee event sz = Waterfall c /\ s !! dst c = s0 !! dst c /\
      exists response size,
        s3_getObject E s0 (srcBucket c) (srcKey c) = inr response /\
        gm_size E (Body response) = Some size /\
        gm_toBuffer E (Body response) (transform_geometry (imageSize c) size)
          (imageType c) = inr data /\
        contentType = ContentType response
  | finished _ =>
      forall c, iteratee event sz = Waterfall c -> s !! dst c = stored E s0 c
  end.

Record computed (E : Env) (event : event.t) (s0 : store) (st : state) : Prop := {
  cp_length : length (jobs st) = length IMAGE_SIZES;
  cp_jobs : forall i sz j, IMAGE_SIZES !! i = Some sz -> jobs st !! i = Some j ->
    job_sem E event s0 (s3 st) sz j;
  cp_other : forall k,
    (forall sz c, sz ∈ IMAGE_SIZES -> iteratee event sz = Waterfall c -> k <> dst c) ->
    s3 st !! k = s0 !! k;
  cp_uncaught : uncaught st <> None ->
    forall sz c, sz ∈ IMAGE_SIZES -> iteratee event sz = Waterfall c ->
      rendition E s0 c = None
}.

(** A source object and a schedule that completes the four requests of each
    of the six iterations in turn. *)
Definition photo : s3object :=
  {| Body := [Byte.xff; Byte.xd8; Byte.xff; Byte.xe0];
     ContentType := js "image/jpeg"; ACL := js "private" |}.

(** The notification of a rendition the handler stored itself. *)
Definition own_rendition : event.t :=
  event.mk (js "bucket") (js "thumb/abc123/DarthVader.jpg").

Definition round_robin : list nat :=
  [0; 1; 2; 3; 4; 5; 0; 1; 2; 3; 4; 5; 0; 1; 2; 3; 4; 5; 0; 1; 2; 3; 4; 5]%nat.

(** The requests an iteration still has to see completed. *)
Definition remaining (j : job) : nat :=
  match j with
  | download _ => 4
  | transform _ _ => 3
  | toBuffer _ _ _ => 2
  | upload _ _ _ => 1
  | finished _ => 0
  end.

(** *** How a waterfall ends *)

(** What becomes of an iteration that entered the waterfall, when the bucket
    holds [bucket] at the time of the invocation: its rendition is stored, or
    the first stage that fails passes its error to the callback, or [gm]
    cannot identify the image and the callback of line 106 throws. *)
Inductive outcome :=
| Stored (object : s3object)
| Failed (err : jsval)
| Crashed.

Definition waterfall_outcome (E : Env) (bucket : store) (c : closure) : outcome :=
  match s3_getObject E bucket (srcBucket c) (srcKey c) with
  | inl err => Failed err
  | inr response =>
      match gm_size E (Body response) with
      | None => Crashed
      | Some size =>
          let g := transform_geometry (imageSize c) size in
          match gm_toBuffer E (Body response) g (imageType c) with
          | inl err => Failed err
          | inr buffer =>
              match putObject_error E (dstBucket c) (dstKey c) with
              | Some err => Failed err
              | None => Stored {| Body := buffer; ContentType := ContentType response;
                                  ACL := AWS_ACL |}
              end
          end
      end
  end.

(** The error an iteration passes to its callback ([Some None] for none),
    or [None] when it never calls back. *)
Definition expected (E : Env) (event : event.t) (bucket : store)
    (sz : imageSize.t) : option (option jsval) :=
  match iteratee event sz with
  | Throws _ => None
  | Returns err _ => Some err
  | Waterfall c =>
      match waterfall_outcome E bucket c with
      | Stored _ => Some None
      | Failed err => Some (Some err)
      | Crashed => None
      end
  end.

(** Every finished iteration has passed the error that was to be expected. *)
Definition outcomes (E : Env) (event : event.t) (s0 : store) (st : state) : Prop :=
  forall i sz err, IMAGE_SIZES !! i = Some sz ->
    jobs st !! i = Some (finished err) -> expected E event s0 sz = Some err.

(** What a request of an iteration carries. *)
Definition request_sem (E : Env) (s0 : store) (c : closure) (o : obs) : Prop :=
  match o with
  | s3_getObject_request _ Bucket Key => Bucket = srcBucket c /\ Key = srcKey c
  | gm_size_request _ body =>
      exists response,
        s3_getObject E s0 (srcBucket c) (srcKey c) = inr response /\
        body = Body response
  | gm_toBuffer_request _ body g t =>
      exists response size,
        s3_getObject E s0 (srcBucket c) (srcKey c) = inr response /\
        body = Body response /\ gm_size E body = Some size /\
        g = transform_geometry (imageSize c) size /\ t = imageType c
  | s3_putObject_request _ Bucket Key object =>
      exists response size data,
        s3_getObject E s0 (srcBucket c) (srcKey c) = inr response /\
        gm_size E (Body response) = Some size /\
        gm_toBuffer E (Body response) (transform_geometry (imageSize c) size)
          (imageType c) = inr data /\
        object = {| Body := data; ContentType := ContentType response;
                    ACL := AWS_ACL |} /\
        Bucket = dstBucket c /\ Key = dstKey c
  | _ => True
  end.

Definition trace_sem (E : Env) (event : event.t) (s0 : store) (st : state) : Prop :=
  forall o i, o ∈ trace st -> request_of o = Some i ->
    exists sz c, IMAGE_SIZES !! i = Some sz /\ iteratee event sz = Waterfall c /\
      request_sem E s0 c o.

(** *** The order of the requests of an iteration *)

Inductive kind := Get | Size | ToBuffer | Put.

Definition kind_of (o : obs) : option kind :=
  match o with
  | s3_getObject_request _ _ _ => Some Get
  | gm_size_request _ _ => Some Size
  | gm_toBuffer_request _ _ _ _ => Some ToBuffer
  | s3_putObject_request _ _ _ _ => Some Put
  | _ => None
  end.

(** The kinds of the requests iteration [i] has sent, in order. *)
Fixpoint sent (i : nat) (t : list obs) : list kind :=
  match t with
  | [] => []
  | o :: t =>
      match request_of o, kind_of o with
      | Some k, Some x => if Nat.eqb k i then x :: sent i t else sent i t
      | _, _ => sent i t
      end
  end.

Definition pipeline : list kind := [Get; Size; ToBuffer; Put].

(** An iteration has sent the requests up to the one it waits for, once
    each and in the order of the pipeline. *)
Definition in_order (st : state) : Prop :=
  forall i,
    match jobs st !! i with
    | Some (finished _) => exists n, sent i (trace st) = take n pipeline
    | Some j => sent i (trace st) = take (5 - remaining j) pipeline
    | None => sent i (trace st) = []
    end.

(** *** The requests an iteration has made *)

(** An iteration that entered the waterfall has requested the download of
    its source; one that waits for its upload has requested it with the
    object it holds, and one that has called back without error has
    requested an upload to its destination. *)
Definition requested (event : event.t) (st : state) : Prop :=
  forall i sz c j,
    IMAGE_SIZES !! i = Some sz -> iteratee event sz = Waterfall c ->
    jobs st !! i = Some j ->
    s3_getObject_request i (srcBucket c) (srcKey c) ∈ trace st /\
    match j with
    | upload _ contentType data =>
        s3_putObject_request i (dstBucket c) (dstKey c)
          {| Body := data; ContentType := contentType; ACL := AWS_ACL |} ∈ trace st
    | finished None =>
        exists object,
          s3_putObject_request i (dstBucket c) (dstKey c) object ∈ trace st
    | _ => True
    end.

(** A schedule that lets every iteration see its four requests completed. *)
Definition fair (schedule : list nat) : bool :=
  forallb (fun k => (4 <=? count_occ Nat.eq_dec schedule k)%nat)
    (seq 0 (length IMAGE_SIZES)).

(** The image types the handler resizes (line 90). *)
Definition resizeable (imageType : jsstring) : Prop :=
  imageType = js "jpg" \/ imageType = js "jpeg" \/ imageType = js "png".

(** A bucket name with a path, and the notification of an upload to it. *)
Definition upload_to_folder : event.t :=
  event.mk (js "photos/incoming") (js "original/abc123/DarthVader.jpg").

(** * Properties *)

(** ** Rounding to binary64 *)

Section powers.

Local Open Scope Q_scope.

Lemma pow2_pos (e : Z) : 0 < 2 ^ e.
Proof. now apply Qpower_0_lt. Qed.

Lemma pow2_nonzero (e : Z) : ~ 2 ^ e == 0.
Proof. intros H. pose proof (pow2_pos e) as Hp. rewrite H in Hp. discriminate. Qed.

Lemma pow2_plus (a b : Z) : 2 ^ (a + b) == 2 ^ a * 2 ^ b.
Proof. now apply Qpower_plus. Qed.

Lemma pow2_minus (a b : Z) : 2 ^ (a - b) == 2 ^ a / 2 ^ b.
Proof. now apply Qpower_minus. Qed.

Lemma pow2_le (a b : Z) : (a <= b)%Z -> 2 ^ a <= 2 ^ b.
Proof. intros H. now apply Qpower_le_compat_l. Qed.

Lemma pow2_lt (a b : Z) : (a < b)%Z -> 2 ^ a < 2 ^ b.
Proof. intros H. now apply Qpower_lt_compat_l. Qed.

Lemma pow2_lt_inv (a b : Z) : 2 ^ a < 2 ^ b -> (a < b)%Z.
Proof. intros H. now apply Qpower_lt_compat_l_inv with 2. Qed.

Lemma pow2_Z (n : Z) : (0 <= n)%Z -> 2 ^ n == inject_Z (2 ^ n).
Proof. intros H. now rewrite Zpower_Qpower. Qed.

End powers.
Section exponents.

Local Open Scope Q_scope.

Lemma Qlt_pow2 (n : Z) (d : positive) (a b : Z) :
  (0 <= a)%Z -> (0 <= b)%Z ->
  (n * 2 ^ b < 2 ^ a * Zpos d)%Z -> n # d < 2 ^ (a - b).
Proof.
  intros Ha Hb H. rewrite pow2_minus.
  apply Qlt_shift_div_l; [apply pow2_pos|].
  rewrite !pow2_Z by assumption.
  unfold Qlt, Qmult, inject_Z. simpl. lia.
Qed.

Lemma Qle_pow2 (n : Z) (d : positive) (a b : Z) :
  (0 <= a)%Z -> (0 <= b)%Z ->
  (2 ^ a * Zpos d <= n * 2 ^ b)%Z -> 2 ^ (a - b) <= n # d.
Proof.
  intros Ha Hb H. rewrite pow2_minus.
  apply Qle_shift_div_r; [apply pow2_pos|].
  rewrite !pow2_Z by assumption.
  unfold Qle, Qmult, inject_Z. simpl. lia.
Qed.

Lemma Qabs_nonzero (x : Q) : ~ x == 0 -> (0 < Z.abs (Qnum x))%Z.
Proof.
  intros H. destruct x as [n d]. simpl.
  assert (n <> 0)%Z; [|lia].
  intros ->. apply H. reflexivity.
Qed.

(** The exponent of a number other than zero is that of its binade. *)
Lemma exponent_spec (x : Q) :
  ~ x == 0 -> 2 ^ exponent x <= Qabs x /\ Qabs x < 2 ^ (exponent x + 1).
Proof.
  intros Hx. pose proof (Qabs_nonzero x Hx) as Hn.
  unfold exponent. destruct x as [n d]. simpl in Hn.
  set (ln := Z.log2 (Z.abs n)). set (ld := Z.log2 (Zpos d)).
  pose proof (Z.log2_nonneg (Z.abs n)) as Hln0. fold ln in Hln0.
  pose proof (Z.log2_nonneg (Zpos d)) as Hld0. fold ld in Hld0.
  destruct (Z.log2_spec (Z.abs n) Hn) as [Hn1 Hn2]. fold ln in Hn1, Hn2.
  destruct (Z.log2_spec (Zpos d) eq_refl) as [Hd1 Hd2]. fold ld in Hd1, Hd2.
  change (Qabs (n # d)) with (Z.abs n # d). cbv zeta.
  change (Qnum (n # d)) with n. change (Qden (n # d)) with d. fold ln ld.
  assert (Hlow : 2 ^ (ln - ld - 1) <= Z.abs n # d).
  { replace (ln - ld - 1)%Z with (ln - Z.succ ld)%Z by lia.
    apply Qle_pow2; [lia | lia |]. nia. }
  assert (Hhigh : Z.abs n # d < 2 ^ (ln - ld + 1)).
  { replace (ln - ld + 1)%Z with (Z.succ ln - ld)%Z by lia.
    apply Qlt_pow2; [lia | lia |]. nia. }
  destruct (Qle_bool (2 ^ (ln - ld)) (Z.abs n # d)) eqn:Hb.
  - split; [now apply Qle_bool_iff | exact Hhigh].
  - split; [exact Hlow|].
    replace (ln - ld - 1 + 1)%Z with (ln - ld)%Z by lia.
    apply Qnot_le_lt. rewrite <- Qle_bool_iff. congruence.
Qed.

Lemma exponent_unique (x : Q) (k : Z) :
  2 ^ k <= Qabs x -> Qabs x < 2 ^ (k + 1) -> exponent x = k.
Proof.
  intros Hl Hh.
  assert (Hx : ~ x == 0).
  { intros H. rewrite H in Hl. apply (Qlt_not_le _ _ (pow2_pos k)). exact Hl. }
  destruct (exponent_spec x Hx) as [Hl' Hh'].
  assert (k < exponent x + 1)%Z
    by (apply pow2_lt_inv; eapply Qle_lt_trans; eauto).
  assert (exponent x < k + 1)%Z
    by (apply pow2_lt_inv; eapply Qle_lt_trans; eauto).
  lia.
Qed.

Lemma exponent_comp (x y : Q) : ~ x == 0 -> x == y -> exponent x = exponent y.
Proof.
  intros Hx H. destruct (exponent_spec x Hx) as [Hl Hh].
  symmetry. apply exponent_unique; now rewrite <- H.
Qed.

End exponents.
Section nearest.

Local Open Scope Q_scope.

#[global] Instance nearest_even_comp : Proper (Qeq ==> eq) nearest_even.
Proof.
  intros x y H. unfold nearest_even.
  rewrite (Qfloor_comp x y H).
  assert (Hc : Qcompare (x - inject_Z (Qfloor y)) (1 # 2)
               = Qcompare (y - inject_Z (Qfloor y)) (1 # 2))
    by (apply Qcompare_comp; [now rewrite H | reflexivity]).
  now rewrite Hc.
Qed.

Lemma nearest_even_Z (k : Z) : nearest_even (inject_Z k) = k.
Proof.
  unfold nearest_even. rewrite Qfloor_Z.
  assert (H : Qcompare (inject_Z k - inject_Z k) (1 # 2) = Qcompare 0 (1 # 2))
    by (apply Qcompare_comp; [ring | reflexivity]).
  now rewrite H.
Qed.

(** The nearest integer is at most one half away. *)
Lemma nearest_even_error (y : Q) :
  inject_Z (nearest_even y) - (1 # 2) <= y /\ y <= inject_Z (nearest_even y) + (1 # 2).
Proof.
  unfold nearest_even.
  pose proof (Qfloor_le y) as Hf. pose proof (Qlt_floor y) as Hc.
  set (f := Qfloor y) in *.
  assert (Hs : inject_Z (f + 1) == inject_Z f + 1) by (rewrite inject_Z_plus; reflexivity).
  rewrite Hs in Hc.
  destruct (Qcompare_spec (y - inject_Z f) (1 # 2)) as [He|Hl|Hg].
  - destruct (Z.even f); [|rewrite Hs]; split; lra.
  - split; lra.
  - rewrite Hs. split; lra.
Qed.

Lemma nearest_even_floor (y : Q) :
  (Qfloor y <= nearest_even y <= Qfloor y + 1)%Z.
Proof.
  unfold nearest_even.
  destruct (Qcompare (y - inject_Z (Qfloor y)) (1 # 2)); [destruct (Z.even _)| |]; lia.
Qed.

Lemma nearest_even_mono (x y : Q) : x <= y -> (nearest_even x <= nearest_even y)%Z.
Proof.
  intros H. pose proof (Qfloor_resp_le x y H) as Hf.
  destruct (Z.eq_dec (Qfloor x) (Qfloor y)) as [He|Hne].
  - unfold nearest_even. rewrite He.
    assert (Hr : x - inject_Z (Qfloor y) <= y - inject_Z (Qfloor y)).
    { apply Qplus_le_l. exact H. }
    destruct (Qcompare_spec (x - inject_Z (Qfloor y)) (1 # 2)) as [Hx|Hx|Hx];
      destruct (Qcompare_spec (y - inject_Z (Qfloor y)) (1 # 2)) as [Hy|Hy|Hy];
      try (destruct (Z.even (Qfloor y))); try lia; exfalso;
      first [ apply (Qlt_not_le _ _ Hy); rewrite <- Hx; exact Hr
            | apply (Qlt_not_le _ _ Hx); rewrite <- Hy; exact Hr
            | apply (Qlt_not_le _ _ (Qlt_trans _ _ _ Hy Hx) Hr) ].
  - pose proof (nearest_even_floor x). pose proof (nearest_even_floor y). lia.
Qed.

End nearest.
Section rounding.

Local Open Scope Q_scope.

Lemma round_to_comp (e : Z) (x y : Q) : x == y -> round_to e x == round_to e y.
Proof.
  intros H. unfold round_to.
  assert (Hq : x / 2 ^ e == y / 2 ^ e) by (now rewrite H).
  now rewrite (nearest_even_comp _ _ Hq).
Qed.

Lemma round_to_mono (e : Z) (x y : Q) : x <= y -> round_to e x <= round_to e y.
Proof.
  intros H. unfold round_to.
  apply Qmult_le_compat_r; [|apply Qlt_le_weak, pow2_pos].
  rewrite <- Zle_Qle. apply nearest_even_mono.
  apply Qmult_le_compat_r; [exact H|].
  apply Qlt_le_weak, Qinv_lt_0_compat, pow2_pos.
Qed.

(** A multiple of the quantum is left as it is. *)
Lemma round_to_multiple (e k : Z) :
  round_to e (inject_Z k * 2 ^ e) == inject_Z k * 2 ^ e.
Proof.
  unfold round_to.
  assert (Hq : inject_Z k * 2 ^ e / 2 ^ e == inject_Z k)
    by (apply Qdiv_mult_l, pow2_nonzero).
  now rewrite (nearest_even_comp _ _ Hq), nearest_even_Z.
Qed.

Lemma pow2_multiple (e k : Z) : (e <= k)%Z -> 2 ^ k == inject_Z (2 ^ (k - e)) * 2 ^ e.
Proof.
  intros H. rewrite <- pow2_Z by lia. rewrite <- pow2_plus.
  now replace (k - e + e)%Z with k by lia.
Qed.

Lemma round_to_pow2 (e k : Z) : (e <= k)%Z -> round_to e (2 ^ k) == 2 ^ k.
Proof.
  intros H. rewrite (round_to_comp e _ _ (pow2_multiple e k H)).
  rewrite round_to_multiple. symmetry. now apply pow2_multiple.
Qed.

(** Rounding to multiples of [2^e] moves a number by at most half of it. *)
Lemma round_to_error (e : Z) (x : Q) :
  round_to e x - 2 ^ e / 2 <= x /\ x <= round_to e x + 2 ^ e / 2.
Proof.
  unfold round_to.
  destruct (nearest_even_error (x / 2 ^ e)) as [Hl Hh].
  set (n := inject_Z (nearest_even (x / 2 ^ e))) in *.
  pose proof (pow2_pos e) as Hp. pose proof (pow2_nonzero e) as Hnz.
  assert (Hx : x / 2 ^ e * 2 ^ e == x) by (field; exact Hnz).
  assert (H1 : (n - (1 # 2)) * 2 ^ e <= x / 2 ^ e * 2 ^ e)
    by (apply Qmult_le_compat_r; [exact Hl | now apply Qlt_le_weak]).
  assert (H2 : x / 2 ^ e * 2 ^ e <= (n + (1 # 2)) * 2 ^ e)
    by (apply Qmult_le_compat_r; [exact Hh | now apply Qlt_le_weak]).
  rewrite Hx in H1, H2. split.
  - setoid_replace (n * 2 ^ e - 2 ^ e / 2) with ((n - (1 # 2)) * 2 ^ e)
      using relation Qeq by field.
    exact H1.
  - setoid_replace (n * 2 ^ e + 2 ^ e / 2) with ((n + (1 # 2)) * 2 ^ e)
      using relation Qeq by field.
    exact H2.
Qed.

Lemma round_to_0 (e : Z) : round_to e 0 == 0.
Proof.
  transitivity (round_to e (inject_Z 0 * 2 ^ e)).
  - apply round_to_comp. ring.
  - rewrite round_to_multiple. ring.
Qed.

Lemma round64_round_to (x : Q) : round64 x == round_to (quantum x) x.
Proof.
  unfold round64. destruct (Qeq_bool x 0) eqn:H; [|reflexivity].
  apply Qeq_bool_iff in H. rewrite (round_to_comp _ _ _ H).
  symmetry. apply round_to_0.
Qed.

Lemma quantum_comp (x y : Q) : ~ x == 0 -> x == y -> quantum x = quantum y.
Proof. intros Hx H. unfold quantum. now rewrite (exponent_comp x y Hx H). Qed.

#[global] Instance round64_comp : Proper (Qeq ==> Qeq) round64.
Proof.
  intros x y H. unfold round64.
  rewrite <- (Qeqb_comp _ _ H _ _ (Qeq_refl 0)).
  destruct (Qeq_bool x 0) eqn:Hx; [reflexivity|].
  apply Qeq_bool_neq in Hx.
  rewrite <- (quantum_comp x y Hx H). now apply round_to_comp.
Qed.

Lemma round64_0 : round64 0 = 0.
Proof. reflexivity. Qed.

Lemma round64_nonneg (x : Q) : 0 <= x -> 0 <= round64 x.
Proof.
  intros H. rewrite round64_round_to, <- (round_to_0 (quantum x)).
  now apply round_to_mono.
Qed.

Lemma round64_nonpos (x : Q) : x <= 0 -> round64 x <= 0.
Proof.
  intros H. rewrite round64_round_to, <- (round_to_0 (quantum x)).
  now apply round_to_mono.
Qed.

Lemma exponent_mono (x y : Q) :
  0 < x -> x <= y -> (exponent x <= exponent y)%Z.
Proof.
  intros Hx Hxy.
  assert (Hy : 0 < y) by (eapply Qlt_le_trans; eauto).
  assert (Hx0 : ~ x == 0) by (intros H; rewrite H in Hx; discriminate).
  assert (Hy0 : ~ y == 0) by (intros H; rewrite H in Hy; discriminate).
  destruct (exponent_spec x Hx0) as [Hxl _].
  destruct (exponent_spec y Hy0) as [_ Hyh].
  rewrite Qabs_pos in Hxl by now apply Qlt_le_weak.
  rewrite Qabs_pos in Hyh by now apply Qlt_le_weak.
  assert (exponent x < exponent y + 1)%Z; [|lia].
  apply pow2_lt_inv. eapply Qle_lt_trans; [exact Hxl|].
  eapply Qle_lt_trans; eauto.
Qed.

(** Rounding keeps a number on its side of a power of two that is a
    multiple of its quantum. *)
Lemma round64_le_pow2 (x : Q) (k : Z) :
  (quantum x <= k)%Z -> x <= 2 ^ k -> round64 x <= 2 ^ k.
Proof.
  intros Hk Hx. rewrite round64_round_to, <- (round_to_pow2 (quantum x) k Hk).
  now apply round_to_mono.
Qed.

Lemma round64_ge_pow2 (x : Q) (k : Z) :
  (quantum x <= k)%Z -> 2 ^ k <= x -> 2 ^ k <= round64 x.
Proof.
  intros Hk Hx. rewrite round64_round_to, <- (round_to_pow2 (quantum x) k Hk).
  now apply round_to_mono.
Qed.

Lemma round64_mono_pos (x y : Q) : 0 < x -> x <= y -> round64 x <= round64 y.
Proof.
  intros Hx Hxy.
  assert (Hy : 0 < y) by (eapply Qlt_le_trans; eauto).
  assert (Hx0 : ~ x == 0) by (intros H; rewrite H in Hx; discriminate).
  assert (Hy0 : ~ y == 0) by (intros H; rewrite H in Hy; discriminate).
  pose proof (exponent_mono x y Hx Hxy) as He.
  destruct (Z.eq_dec (quantum x) (quantum y)) as [Hq|Hq].
  - rewrite !round64_round_to, Hq. now apply round_to_mono.
  - assert (Hlt : (exponent x < exponent y)%Z /\ quantum y = (exponent y - 52)%Z
                  /\ (quantum x <= exponent y)%Z)
      by (unfold quantum in *; lia).
    destruct Hlt as (Hlt & Hqy & Hqx).
    destruct (exponent_spec x Hx0) as [_ Hxh].
    destruct (exponent_spec y Hy0) as [Hyl _].
    rewrite Qabs_pos in Hxh by now apply Qlt_le_weak.
    rewrite Qabs_pos in Hyl by now apply Qlt_le_weak.
    apply Qle_trans with (2 ^ exponent y).
    + apply round64_le_pow2; [exact Hqx|].
      apply Qlt_le_weak. eapply Qlt_le_trans; [exact Hxh|].
      apply pow2_le. lia.
    + apply round64_ge_pow2; [lia | exact Hyl].
Qed.

End rounding.
Section binary64.

Local Open Scope Q_scope.

Lemma round64_mono_nonneg (x y : Q) : 0 <= x -> x <= y -> round64 x <= round64 y.
Proof.
  intros Hx Hxy. destruct (Qeq_dec x 0) as [H0|H0].
  - rewrite H0, round64_0. apply round64_nonneg. now rewrite <- H0.
  - apply round64_mono_pos; [|exact Hxy].
    apply Qle_lteq in Hx as [Hx|Hx]; [exact Hx | now symmetry in Hx].
Qed.

Lemma quantum_normal (x : Q) :
  2 ^ (-1022) <= Qabs x -> quantum x = (exponent x - 52)%Z.
Proof.
  intros H.
  assert (Hx : ~ x == 0).
  { intros H0. rewrite H0 in H. apply (Qlt_not_le _ _ (pow2_pos (-1022))). exact H. }
  destruct (exponent_spec x Hx) as [_ Hh].
  assert (-1022 < exponent x + 1)%Z
    by (apply pow2_lt_inv; eapply Qle_lt_trans; eauto).
  unfold quantum. lia.
Qed.

(** The relative error of rounding a number in the normal range is at most
    [2^-53]. *)
Lemma round64_relative_error (x : Q) :
  2 ^ (-1022) <= x ->
  x * (1 - 2 ^ (-53)) <= round64 x /\ round64 x <= x * (1 + 2 ^ (-53)).
Proof.
  intros H.
  assert (Hpos : 0 < x) by (eapply Qlt_le_trans; [apply (pow2_pos (-1022)) | exact H]).
  assert (Habs : Qabs x == x) by (apply Qabs_pos; now apply Qlt_le_weak).
  assert (Hx : ~ x == 0) by (intros H0; rewrite H0 in Hpos; discriminate).
  assert (Hq : quantum x = (exponent x - 52)%Z)
    by (apply quantum_normal; now rewrite Habs).
  destruct (exponent_spec x Hx) as [Hl _]. rewrite Habs in Hl.
  destruct (round_to_error (quantum x) x) as [He1 He2].
  rewrite <- round64_round_to in He1, He2. rewrite Hq in He1, He2.
  assert (Hhalf : 2 ^ (exponent x - 52) / 2 <= x * 2 ^ (-53)).
  { setoid_replace (2 ^ (exponent x - 52) / 2) with (2 ^ exponent x * 2 ^ (-53))
      using relation Qeq.
    - apply Qmult_le_compat_r; [exact Hl | apply Qlt_le_weak, pow2_pos].
    - rewrite <- pow2_plus. replace (exponent x + -53)%Z with (exponent x - 52 - 1)%Z by lia.
      rewrite (pow2_minus _ 1). reflexivity. }
  split; lra.
Qed.

(** An integer of fewer than 54 bits, scaled by a power of two that is not
    below the least one, is a binary64 value: rounding leaves it as it is. *)
Lemma round64_exact (k j : Z) :
  (Z.abs k < 2 ^ 53)%Z -> (-1074 <= j)%Z ->
  round64 (inject_Z k * 2 ^ j) == inject_Z k * 2 ^ j.
Proof.
  intros Hk Hj. set (x := inject_Z k * 2 ^ j).
  destruct (Qeq_dec x 0) as [H0|H0]; [now rewrite H0|].
  rewrite round64_round_to.
  destruct (exponent_spec x H0) as [Hl _].
  assert (Habs : Qabs x == inject_Z (Z.abs k) * 2 ^ j).
  { unfold x. rewrite Qabs_Qmult, (Qabs_pos (2 ^ j)) by apply Qlt_le_weak, pow2_pos.
    destruct k; reflexivity. }
  assert (Hlt : Qabs x < 2 ^ (53 + j)).
  { rewrite Habs, pow2_plus. apply Qmult_lt_compat_r; [apply pow2_pos|].
    rewrite pow2_Z by lia. now rewrite <- Zlt_Qlt. }
  assert (He : (exponent x < 53 + j)%Z)
    by (apply pow2_lt_inv; eapply Qle_lt_trans; eauto).
  assert (Hq : (quantum x <= j)%Z) by (unfold quantum; lia).
  assert (Hm : x == inject_Z (k * 2 ^ (j - quantum x)) * 2 ^ quantum x).
  { generalize dependent (quantum x). intros q Hq. unfold x.
    rewrite inject_Z_mult. rewrite <- (pow2_Z (j - q)) by lia.
    rewrite <- Qmult_assoc, <- pow2_plus.
    now replace (j - q + q)%Z with j by lia. }
  rewrite (round_to_comp _ _ _ Hm), round_to_multiple. now symmetry.
Qed.

Lemma round64_Z (k : Z) : (Z.abs k < 2 ^ 53)%Z -> round64 (inject_Z k) == inject_Z k.
Proof.
  intros H. pose proof (round64_exact k 0 H ltac:(lia)) as He.
  assert (Hx : inject_Z k * 2 ^ 0 == inject_Z k) by (simpl; ring).
  now rewrite Hx in He.
Qed.

Lemma round64_1 : round64 1 == 1.
Proof. vm_compute. reflexivity. Qed.

Lemma round64_2 : round64 2 == 2.
Proof. vm_compute. reflexivity. Qed.

Lemma round64_half : round64 (1 # 2) == 1 # 2.
Proof. vm_compute. reflexivity. Qed.

(** Comparing a rounded number with 1. *)
Lemma round64_le_1 (x : Q) : x <= 1 -> round64 x <= 1.
Proof.
  intros H. destruct (Qlt_le_dec 0 x) as [Hx|Hx].
  - rewrite <- round64_1. now apply round64_mono_pos.
  - apply Qle_trans with 0; [now apply round64_nonpos | discriminate].
Qed.

Lemma round64_ge_1 (x : Q) : 1 <= x -> 1 <= round64 x.
Proof. intros H. rewrite <- round64_1. now apply round64_mono_pos. Qed.

Lemma round64_gt_1 (x : Q) : 1 + 2 ^ (-53) < x -> 1 < round64 x.
Proof.
  intros H.
  assert (H1 : 1 < x) by (eapply Qlt_trans; [|exact H]; reflexivity).
  destruct (Qlt_le_dec x 2) as [H2|H2].
  - assert (Hq : quantum x = (-52)%Z).
    { unfold quantum. rewrite (exponent_unique x 0); [reflexivity| |].
      - rewrite Qabs_pos; apply Qlt_le_weak; [exact H1|].
        eapply Qlt_trans; [|exact H1]; reflexivity.
      - rewrite Qabs_pos; [exact H2|]. apply Qlt_le_weak.
        eapply Qlt_trans; [|exact H1]; reflexivity. }
    destruct (round_to_error (quantum x) x) as [_ He].
    rewrite <- round64_round_to, Hq in He.
    change (2 ^ (-52) / 2) with (2 ^ (-53)) in He. lra.
  - apply Qlt_le_trans with (round64 2); [now rewrite round64_2|].
    now apply round64_mono_pos.
Qed.

Lemma round64_lt_1 (x : Q) : x < 1 - 2 ^ (-54) -> round64 x < 1.
Proof.
  intros H.
  destruct (Qlt_le_dec x (1 # 2)) as [H2|H2].
  - apply Qle_lt_trans with (round64 (1 # 2)); [|now rewrite round64_half].
    destruct (Qlt_le_dec 0 x) as [Hx|Hx].
    + apply round64_mono_pos; [exact Hx | now apply Qlt_le_weak].
    + apply Qle_trans with 0; [now apply round64_nonpos | discriminate].
  - assert (H1 : x < 1) by (eapply Qlt_trans; [exact H|]; reflexivity).
    assert (Hpos : 0 <= x) by (eapply Qle_trans; [|exact H2]; discriminate).
    assert (Hq : quantum x = (-53)%Z).
    { unfold quantum. rewrite (exponent_unique x (-1)); [reflexivity| |].
      - rewrite Qabs_pos; assumption.
      - rewrite Qabs_pos; assumption. }
    destruct (round_to_error (quantum x) x) as [He _].
    rewrite <- round64_round_to, Hq in He.
    change (2 ^ (-53) / 2) with (2 ^ (-54)) in He. lra.
Qed.

(** The significand of a rounded number has at most 53 bits, or is [2^53]
    when the number was rounded up to the next binade. *)
Lemma significand_bound (x : Q) :
  ~ x == 0 ->
  (- 2 ^ 53 <= nearest_even (x / 2 ^ quantum x) <= 2 ^ 53)%Z.
Proof.
  intros Hx. destruct (exponent_spec x Hx) as [_ Hh].
  assert (Hq : (exponent x + 1 - quantum x <= 53)%Z) by (unfold quantum; lia).
  assert (Hb : Qabs x / 2 ^ quantum x <= inject_Z (2 ^ 53)).
  { apply Qle_shift_div_r; [apply pow2_pos|].
    apply Qlt_le_weak. eapply Qlt_le_trans; [exact Hh|].
    rewrite <- (pow2_Z 53) by lia. rewrite <- pow2_plus.
    apply pow2_le. lia. }
  assert (Hdiv : Qabs (x / 2 ^ quantum x) == Qabs x / 2 ^ quantum x).
  { unfold Qdiv. rewrite Qabs_Qmult, Qabs_Qinv.
    now rewrite (Qabs_pos (2 ^ quantum x)) by apply Qlt_le_weak, pow2_pos. }
  rewrite <- Hdiv in Hb. apply Qabs_Qle_condition in Hb as [Hlo Hhi].
  split.
  - rewrite <- (nearest_even_Z (- 2 ^ 53)). apply nearest_even_mono.
    now rewrite inject_Z_opp.
  - rewrite <- (nearest_even_Z (2 ^ 53)). now apply nearest_even_mono.
Qed.

(** A rounded number is a binary64 value: rounding it again changes
    nothing. *)
Lemma round64_idempotent (x : Q) : round64 (round64 x) == round64 x.
Proof.
  destruct (Qeq_dec x 0) as [H0|H0]; [now rewrite H0|].
  pose proof (significand_bound x H0) as Hn.
  assert (Hq : (-1074 <= quantum x)%Z) by (unfold quantum; lia).
  rewrite (round64_round_to x). unfold round_to.
  set (n := nearest_even (x / 2 ^ quantum x)) in *.
  clearbody n.
  destruct (Z.eq_dec (Z.abs n) (2 ^ 53)%Z) as [Hmax|Hlt].
  - assert (Hn2 : inject_Z n * 2 ^ quantum x
                  == inject_Z (n / 2) * 2 ^ (quantum x + 1)).
    { assert (Hhalf : inject_Z n == inject_Z (n / 2) * 2)
        by (assert (n = (2 ^ 53)%Z \/ n = (- 2 ^ 53)%Z) as [-> | ->] by lia; reflexivity).
      rewrite pow2_plus, Hhalf. change (2 ^ 1) with 2. ring. }
    rewrite Hn2. apply round64_exact; [|lia].
    assert (n = (2 ^ 53)%Z \/ n = (- 2 ^ 53)%Z) as [-> | ->] by lia; reflexivity.
  - apply round64_exact; lia.
Qed.

End binary64.

(** ** Comparison with the reference semantics of binary64 *)

Section reference_semantics.

(** For the three configured sides, every source width up to 1024 and two
    source heights, the scaling factor and the two arguments of [resize]
    obtained with [round64] are the ones that the IEEE 754 division and
    multiplication of the Standard Library give on binary64. *)
Lemma rounding_agrees_with_IEEE_754 :
  forallb (fun w =>
    forallb (fun m =>
      forallb (fun h => same_scaling m (Z.of_nat w) h) [1080; 3024]%Z)
      [640; 320; 120]%Z)
    (seq 1 1024) = true.
Proof. vm_compute. reflexivity. Qed.

Example scaling_1050 :
  same_scaling 640 1050 700 = true /\
  (Number_multiply (Number_divide 640 1050) 1050 == 640 + 2 ^ (-43))%Q.
Proof. split; vm_compute; reflexivity. Qed.

End reference_semantics.

(** ** Geometry *)

Section geometry_facts.

Local Open Scope Q_scope.

Lemma Math_min_l (a b : number) : a <= b -> Math_min a b = a.
Proof.
  intros H. unfold Math_min.
  destruct (Qle_bool a b) eqn:Hab; [reflexivity|].
  apply Qle_bool_iff in H. congruence.
Qed.

Lemma Math_min_mono (a a' b b' : number) :
  a <= a' -> b <= b' -> Math_min a b <= Math_min a' b'.
Proof.
  intros Ha Hb. unfold Math_min.
  destruct (Qle_bool a b) eqn:Hab; destruct (Qle_bool a' b') eqn:Hab'; auto.
  - assert (~ a' <= b') by (rewrite <- Qle_bool_iff; congruence).
    apply Qle_trans with b; [now apply Qle_bool_iff | exact Hb].
  - assert (~ a <= b) by (rewrite <- Qle_bool_iff; congruence).
    apply Qle_trans with a; [apply Qlt_le_weak, Qnot_le_lt; assumption | exact Ha].
Qed.

Lemma Qdiv_le_smaller (m s w : Z) :
  (0 <= m)%Z -> (0 < s)%Z -> (s <= w)%Z ->
  inject_Z m / inject_Z w <= inject_Z m / inject_Z s.
Proof.
  intros Hm Hs Hw.
  destruct w as [|w|w]; try lia. destruct s as [|s|s]; try lia.
  unfold Qle, Qdiv, Qmult, Qinv, inject_Z. simpl.
  rewrite !Z.mul_1_r. apply Z.mul_le_mono_nonneg_l; [exact Hm | lia].
Qed.

Lemma Qdiv_nonneg (m w : Z) :
  (0 <= m)%Z -> (0 < w)%Z -> 0 <= inject_Z m / inject_Z w.
Proof.
  intros Hm Hw. destruct w as [|w|w]; try lia.
  unfold Qle, Qdiv, Qmult, Qinv, inject_Z. simpl. lia.
Qed.

(** The rounded quotient by a smaller positive integer is at least as
    large. *)
Lemma Number_divide_le_smaller (m s w : Z) :
  (0 <= m)%Z -> (0 < s)%Z -> (s <= w)%Z ->
  Number_divide (inject_Z m) (inject_Z w) <= Number_divide (inject_Z m) (inject_Z s).
Proof.
  intros Hm Hs Hw. unfold Number_divide.
  apply round64_mono_nonneg; [apply Qdiv_nonneg; lia | now apply Qdiv_le_smaller].
Qed.

Lemma half_is_integer (z : Z) :
  is_integer (inject_Z z / 2) <-> Z.even z = true.
Proof.
  split.
  - intros [k Hk]. unfold Qeq, Qdiv, Qmult, Qinv, inject_Z in Hk. simpl in Hk.
    rewrite Z.even_spec. exists k. lia.
  - rewrite Z.even_spec. intros [k ->]. exists k.
    unfold Qeq, Qdiv, Qmult, Qinv, inject_Z. simpl. lia.
Qed.

Lemma inject_Z_sub (a b : Z) : inject_Z a - inject_Z b == inject_Z (a - b).
Proof. unfold Qeq, Qminus, Qplus, Qopp, inject_Z. simpl. lia. Qed.

End geometry_facts.

Section geometry_claims.

Local Open Scope Q_scope.

(** C1 (as stated, refuted): for a 1920x1080 source and the [large_square]
    size, the scaling factor is not the one computed from the crop rectangle,
    and the height handed to [resize] is not that factor applied to the crop
    rectangle's height. *)
Lemma C1_crop_basis_counterexample :
  let g := transform_geometry large_square (size.mk 1920 1080) in
  let crop_basis :=
    Math_min (Number_divide 640 (cropWidth g)) (Number_divide 640 (cropHeight g)) in
  cropWidth g == 1080 /\ cropHeight g == 1080 /\
  ~ scalingFactor g == crop_basis /\
  ~ height g == Number_multiply crop_basis (cropHeight g).
Proof.
  cbv zeta. split; [reflexivity|]. split; [reflexivity|].
  split; vm_compute; discriminate.
Qed.

(** C1 (amended): with [crop] set, the scaling factor is the smaller of
    [maxWidth / size.width] and [maxHeight / size.height] over the dimensions
    of the source before cropping, and the arguments of [resize] are that
    factor applied to those source dimensions: the same box as for the
    uncropped rendition of the same size. That factor is at most the one the
    crop rectangle would give, and equal to it for a square source. The
    quotients and products are the rounded ones of binary64. *)
Theorem C1_scaling_uses_source_dimensions (imageSize : imageSize.t) (size : size.t) :
  (0 < size.width size)%Z -> (0 < size.height size)%Z ->
  (0 <= imageSize.width imageSize)%Z -> (0 <= imageSize.height imageSize)%Z ->
  imageSize.crop imageSize = true ->
  let g := transform_geometry imageSize size in
  let w := inject_Z (size.width size) in
  let h := inject_Z (size.height size) in
  let maxWidth := inject_Z (imageSize.width imageSize) in
  let maxHeight := inject_Z (imageSize.height imageSize) in
  let uncropped :=
    imageSize.mk (imageSize.name imageSize) (imageSize.width imageSize)
      (imageSize.height imageSize) false in
  scalingFactor g = Math_min (Number_divide maxWidth w) (Number_divide maxHeight h) /\
  width g = Number_multiply (scalingFactor g) w /\
  height g = Number_multiply (scalingFactor g) h /\
  width g = width (transform_geometry uncropped size) /\
  height g = height (transform_geometry uncropped size) /\
  scalingFactor g <= Math_min (Number_divide maxWidth (cropWidth g))
                              (Number_divide maxHeight (cropHeight g)) /\
  (size.width size = size.height size ->
   scalingFactor g = Math_min (Number_divide maxWidth (cropWidth g))
                              (Number_divide maxHeight (cropHeight g))).
Proof.
  intros Hw Hh Hmw Hmh Hcrop. unfold transform_geometry. rewrite Hcrop.
  destruct (Z.gtb_spec (size.width size) (size.height size)) as [Hgt|Hle];
    cbn [scalingFactor width height cropWidth cropHeight].
  - do 5 (split; [reflexivity|]). split.
    + apply Math_min_mono; [|apply Qle_refl].
      apply Number_divide_le_smaller; lia.
    + lia.
  - do 5 (split; [reflexivity|]). split.
    + apply Math_min_mono; [apply Qle_refl|].
      apply Number_divide_le_smaller; lia.
    + intros ->. reflexivity.
Qed.

Lemma C1_scaling_uses_source_dimensions_witness :
  let g := transform_geometry large_square (size.mk 1920 1080) in
  scalingFactor g == 6004799503160661 # 18014398509481984 /\
  width g == 640 /\ height g == 360 /\
  scalingFactor g <= Math_min (Number_divide 640 (cropWidth g))
                              (Number_divide 640 (cropHeight g)).
Proof.
  destruct (C1_scaling_uses_source_dimensions large_square (size.mk 1920 1080))
    as (_ & _ & _ & _ & _ & Hle & _);
    [reflexivity | reflexivity | discriminate | discriminate | reflexivity |].
  cbv zeta. split; [vm_compute; reflexivity|]. split; [vm_compute; reflexivity|].
  split; [vm_compute; reflexivity | exact Hle].
Defined.

(** C5: with [crop] set, the crop rectangle is the centered square whose side
    is the smaller source dimension. The landscape branch is taken exactly
    when the width is strictly greater than the height: then [yCrop] is 0 and
    [xCrop] leaves the same margin on both sides. Otherwise [xCrop] is 0 and
    [yCrop] is centered; a square source has both offsets 0. *)
Theorem C5_centered_square_crop (imageSize : imageSize.t) (size : size.t) :
  (0 < size.width size)%Z -> (0 < size.height size)%Z ->
  imageSize.crop imageSize = true ->
  let g := transform_geometry imageSize size in
  let w := size.width size in
  let h := size.height size in
  cropWidth g = inject_Z (Z.min w h) /\
  cropHeight g = inject_Z (Z.min w h) /\
  ((h < w)%Z ->
     yCrop g = 0 /\ xCrop g == inject_Z (w - h) / 2 /\ 0 < xCrop g /\
     xCrop g + cropWidth g + xCrop g == inject_Z w) /\
  ((w <= h)%Z ->
     xCrop g = 0 /\ yCrop g == inject_Z (h - w) / 2 /\
     yCrop g + cropHeight g + yCrop g == inject_Z h) /\
  (w = h -> xCrop g = 0 /\ yCrop g == 0).
Proof.
  intros Hw Hh Hcrop. unfold transform_geometry. rewrite Hcrop.
  destruct (Z.gtb_spec (size.width size) (size.height size)) as [Hgt|Hle]; simpl.
  - rewrite Z.min_r by lia. repeat split; try lia.
    + now rewrite inject_Z_sub.
    + rewrite inject_Z_sub. unfold Qlt, Qdiv, Qmult, Qinv, inject_Z. simpl. lia.
    + unfold Qeq, Qdiv, Qmult, Qinv, Qplus, Qminus, Qopp, inject_Z. simpl. lia.
  - rewrite Z.min_l by lia. repeat split; try lia.
    + now rewrite inject_Z_sub.
    + unfold Qeq, Qdiv, Qmult, Qinv, Qplus, Qminus, Qopp, inject_Z. simpl. lia.
    + rewrite H. unfold Qeq, Qdiv, Qmult, Qinv, Qplus, Qminus, Qopp, inject_Z. simpl. lia.
Qed.

Lemma C5_centered_square_crop_witness :
  let g := transform_geometry large_square (size.mk 1000 1000) in
  cropWidth g = 1000 /\ cropHeight g = 1000 /\ xCrop g = 0 /\ yCrop g == 0.
Proof.
  destruct (C5_centered_square_crop large_square (size.mk 1000 1000))
    as (Hcw & Hch & _ & _ & Hsq); [reflexivity | reflexivity | reflexivity |].
  destruct (Hsq eq_refl) as [Hx Hy].
  cbv zeta. split; [exact Hcw|]. split; [exact Hch|]. split; [exact Hx | exact Hy].
Defined.

(** C7 (as stated, refuted): for a 1921x1080 source the horizontal offset is
    841/2, which is neither the floor of the half difference nor any other
    integer. *)
Lemma C7_floor_counterexample :
  let g := transform_geometry large_square (size.mk 1921 1080) in
  xCrop g == 841 # 2 /\
  ~ xCrop g == inject_Z ((1921 - 1080) / 2) /\
  ~ is_integer (xCrop g).
Proof.
  cbv zeta. split; [reflexivity|]. split.
  - vm_compute. discriminate.
  - intros [z Hz].
    change (xCrop _) with (841 # 2) in Hz.
    unfold Qeq, inject_Z in Hz. simpl in Hz. lia.
Qed.

(** C7 (amended): with [crop] set and a source wider than it is high, the
    horizontal offset is the exact half of the difference of the two
    dimensions, (width - height) / 2 with no rounding, and symmetrically for
    the vertical offset otherwise; the offset is an integer exactly when the
    difference is even. *)
Theorem C7_offset_is_exact_half (imageSize : imageSize.t) (size : size.t) :
  (0 < size.width size)%Z -> (0 < size.height size)%Z ->
  imageSize.crop imageSize = true ->
  let g := transform_geometry imageSize size in
  let w := size.width size in
  let h := size.height size in
  ((h < w)%Z ->
     xCrop g == (w - h) # 2 /\
     (is_integer (xCrop g) <-> Z.even (w - h) = true)) /\
  ((w <= h)%Z ->
     yCrop g == (h - w) # 2 /\
     (is_integer (yCrop g) <-> Z.even (h - w) = true)).
Proof.
  intros Hw Hh Hcrop. unfold transform_geometry. rewrite Hcrop.
  assert (Hhalf : forall z : Z, inject_Z z / 2 == z # 2).
  { intros z. unfold Qeq, Qdiv, Qmult, Qinv, inject_Z. simpl. lia. }
  destruct (Z.gtb_spec (size.width size) (size.height size)) as [Hgt|Hle]; simpl;
    (split; [intros Hlt | intros Hge]; try lia).
  - split.
    + now rewrite inject_Z_sub, Hhalf.
    + unfold is_integer. setoid_rewrite inject_Z_sub. apply half_is_integer.
  - split.
    + now rewrite inject_Z_sub, Hhalf.
    + unfold is_integer. setoid_rewrite inject_Z_sub. apply half_is_integer.
Qed.

Lemma C7_offset_is_exact_half_witness :
  let g := transform_geometry large_square (size.mk 1921 1080) in
  xCrop g == 841 # 2 /\ (is_integer (xCrop g) <-> Z.even 841 = true).
Proof.
  destruct (C7_offset_is_exact_half large_square (size.mk 1921 1080))
    as [Hland _]; [reflexivity | reflexivity | reflexivity |].
  apply Hland. reflexivity.
Defined.

End geometry_claims.

(** ** Strings and keys *)

Section string_facts.

Implicit Types (s t : jsstring) (sep c : N).

Lemma split_nonempty sep s : split sep s <> [].
Proof.
  destruct s as [|c r]; simpl; [discriminate|].
  destruct (c =? sep); [discriminate|].
  destruct (split sep r); discriminate.
Qed.

(** A string without the separator is its own single segment. *)
Lemma split_without_separator sep s : sep ∉ s -> split sep s = [s].
Proof.
  induction s as [|c r IH]; intros Hnot; simpl; [reflexivity|].
  apply not_elem_of_cons in Hnot as [Hne Hr].
  destruct (N.eqb_spec c sep) as [->|_]; [congruence|].
  now rewrite (IH Hr).
Qed.

Lemma split_single_segment sep s :
  (length (split sep s) < 2)%nat -> sep ∉ s.
Proof.
  induction s as [|c r IH]; simpl; intros Hlen.
  - apply not_elem_of_nil.
  - destruct (N.eqb_spec c sep) as [->|Hne].
    + pose proof (split_nonempty sep r) as Hr.
      destruct (split sep r); [congruence | simpl in Hlen; lia].
    + apply not_elem_of_cons. split; [congruence|].
      apply IH. destruct (split sep r) as [|seg segs] eqn:Hs; simpl in *; lia.
Qed.

(** No segment of a split holds the separator. *)
Lemma split_segments sep s :
  Forall (fun seg => sep ∉ seg) (split sep s).
Proof.
  induction s as [|c r IH]; simpl.
  - constructor; [apply not_elem_of_nil | constructor].
  - destruct (N.eqb_spec c sep) as [->|Hne].
    + constructor; [apply not_elem_of_nil | exact IH].
    + destruct (split sep r) as [|seg segs]; inversion IH; subst.
      * constructor; [|constructor].
        apply not_elem_of_cons; split; [congruence | apply not_elem_of_nil].
      * constructor; [|assumption].
        apply not_elem_of_cons; split; [congruence | assumption].
Qed.

Lemma last_two {A} (l : list A) :
  (2 <= length l)%nat -> exists others a b, l = others ++ [a; b].
Proof.
  induction l as [|x l IH]; simpl; intros Hlen; [lia|].
  destruct l as [|y l]; simpl in *; [lia|].
  destruct l as [|z l].
  - exists [], x, y. reflexivity.
  - destruct IH as (others & a & b & Heq); [simpl; lia|].
    exists (x :: others), a, b. rewrite Heq. reflexivity.
Qed.

(** Segments 1 and 0 of the reversed split are the last two segments. *)
Lemma index_rev_last_two (others : list jsstring) (a b : jsstring) :
  index (rev (others ++ [a; b])) 0 = Some b /\
  index (rev (others ++ [a; b])) 1 = Some a.
Proof. rewrite rev_app_distr. simpl. split; reflexivity. Qed.

(** The match of the regular expression is the suffix after the last dot. *)
Lemma match_extension_suffix stem t :
  char_dot ∉ t -> match_extension (stem ++ char_dot :: t) = Some t.
Proof.
  intros Ht.
  assert (Hall : forallb (fun d => negb (d =? char_dot)) t = true).
  { apply forallb_forall. intros d Hd. apply negb_true_iff, N.eqb_neq.
    intros ->. apply Ht, list_elem_of_In, Hd. }
  induction stem as [|c stem IH]; simpl.
  - now rewrite Hall.
  - rewrite IH. destruct (c =? char_dot); simpl; [|reflexivity].
    destruct (forallb _ (stem ++ char_dot :: t)) eqn:Hf; [|reflexivity].
    rewrite forallb_app in Hf. simpl in Hf.
    rewrite andb_false_r in Hf. discriminate.
Qed.

Lemma match_extension_none s : char_dot ∉ s -> match_extension s = None.
Proof.
  induction s as [|c r IH]; simpl; intros Hnot; [reflexivity|].
  apply not_elem_of_cons in Hnot as [Hne Hr].
  destruct (N.eqb_spec c char_dot) as [->|_]; [congruence|].
  simpl. now apply IH.
Qed.

Lemma js_slash_cons t : js "/" ++ t = char_slash :: t.
Proof. reflexivity. Qed.

Lemma neq_true s t : s <> t -> neq s t = true.
Proof. intros H. unfold neq. now rewrite bool_decide_eq_false_2. Qed.

Lemma neq_false s : neq s s = false.
Proof. unfold neq. now rewrite bool_decide_eq_true_2. Qed.

End string_facts.

(** ** One iteration *)

Section iteratee_facts.

Variables (event : event.t) (sz : imageSize.t).

(** Every way an iteration can end its synchronous part. *)
Lemma iteratee_cases :
  match iteratee event sz with
  | Throws e => e = URIError /\ key_of event = None
  | Returns err result =>
      exists key, key_of event = Some key /\
        ((destination_key sz key = key /\ err = Some same_error /\ result = None) \/
         (destination_key sz key <> key /\ match_extension key = None /\
          err = Some type_error /\ result = None) \/
         (exists imageType,
            destination_key sz key <> key /\
            match_extension key = Some imageType /\
            imageType <> js "jpg" /\ imageType <> js "jpeg" /\ imageType <> js "png" /\
            err = None /\ result = Some (skip_message imageType)))
  | Waterfall c =>
      key_of event = Some (srcKey c) /\
      imageSize c = sz /\
      srcBucket c = bucket_of event /\
      dstBucket c = bucket_of event /\
      dstKey c = destination_key sz (srcKey c) /\
      dstKey c <> srcKey c /\
      match_extension (srcKey c) = Some (imageType c) /\
      (imageType c = js "jpg" \/ imageType c = js "jpeg" \/ imageType c = js "png")
  end.
Proof.
  unfold iteratee.
  destruct (key_of event) as [key|]; [|split; reflexivity].
  destruct (bool_decide_reflect (destination_key sz key = key)) as [Heq|Hne].
  { exists key. split; [reflexivity|]. left. split_and!; auto. }
  destruct (match_extension key) as [t|] eqn:Hext.
  2:{ exists key. split; [reflexivity|]. right; left. split_and!; auto. }
  unfold neq.
  destruct (bool_decide_reflect (t = js "jpg")) as [Hjpg|Hjpg]; simpl.
  { split_and!; auto. }
  destruct (bool_decide_reflect (t = js "jpeg")) as [Hjpeg|Hjpeg]; simpl.
  { split_and!; auto. }
  destruct (bool_decide_reflect (t = js "png")) as [Hpng|Hpng]; simpl.
  { split_and!; auto. }
  exists key. split; [reflexivity|]. right; right. exists t. split_and!; auto.
Qed.

End iteratee_facts.

(** ** The event loop: what the callbacks leave untouched *)

Section callbacks.

Implicit Types (st : state) (err : option jsval).

Lemma final_callback_frame err st :
  let st' := final_callback err st in
  s3 st' = s3 st /\ jobs st' = jobs st /\ uncaught st' = uncaught st /\
  completed st' = completed st /\
  exists extra, trace st' = trace st ++ extra /\
    Forall (fun o => request_of o = None) extra.
Proof.
  unfold final_callback. destruct (settled st).
  - split_and!; auto. exists []. rewrite app_nil_r. auto.
  - destruct err; simpl; split_and!; auto; eexists; split; eauto.
Qed.

Lemma iterator_callback_frame total err st :
  let st' := iterator_callback total err st in
  s3 st' = s3 st /\ jobs st' = jobs st /\ uncaught st' = uncaught st /\
  exists extra, trace st' = trace st ++ extra /\
    Forall (fun o => request_of o = None) extra.
Proof.
  unfold iterator_callback. destruct err as [e|].
  - pose proof (final_callback_frame (Some e) st) as H. simpl in H. tauto.
  - simpl. case_match.
    + match goal with |- context [final_callback None ?s] =>
        pose proof (final_callback_frame None s) as Hf end.
      simpl in Hf. tauto.
    + simpl. split_and!; auto. exists []. rewrite app_nil_r. auto.
Qed.

Lemma waterfall_callback_frame total i c err st :
  let st' := waterfall_callback total i c err st in
  s3 st' = s3 st /\ jobs st' = <[i := finished err]> (jobs st) /\
  uncaught st' = uncaught st /\
  exists extra, trace st' = trace st ++ extra /\
    Forall (fun o => request_of o = None) extra.
Proof.
  unfold waterfall_callback. destruct err as [e|].
  - match goal with |- context [iterator_callback total (Some e) ?s] =>
      destruct (iterator_callback_frame total (Some e) s)
        as (Hs & Hj & Hu & extra & Ht & Hx) end.
    simpl in *. split_and!; auto.
    eexists. rewrite Ht, <- app_assoc. split; [reflexivity|].
    constructor; [reflexivity | exact Hx].
  - match goal with |- context [iterator_callback total None ?s] =>
      destruct (iterator_callback_frame total None s)
        as (Hs & Hj & Hu & extra & Ht & Hx) end.
    simpl in *. split_and!; auto. eauto.
Qed.

Lemma run_uncaught E schedule st :
  uncaught st <> None -> run E schedule st = st.
Proof.
  intros Hu. unfold run. induction schedule as [|i schedule IH]; simpl; [reflexivity|].
  unfold step at 2. destruct (uncaught st); [exact IH | congruence].
Qed.

Lemma run_app E l1 l2 st : run E (l1 ++ l2) st = run E l2 (run E l1 st).
Proof. unfold run. apply fold_left_app. Qed.

End callbacks.

(** ** The event loop: well-formed states *)

Section well_formed_states.

Variables (E : Env) (event : event.t).

Lemma job_wf_finished sz err : 
  (forall e r, iteratee event sz = Returns e r -> err = e) ->
  (forall e, iteratee event sz <> Throws e) ->
  job_wf event sz (finished err).
Proof.
  intros Hr Ht. unfold job_wf.
  destruct (iteratee event sz) eqn:Hi; eauto. eapply Ht; eauto.
Qed.

Lemma job_wf_closure sz j c :
  closure_of j = Some c -> job_wf event sz j -> iteratee event sz = Waterfall c.
Proof.
  unfold job_wf. destruct j; simpl; intros [= <-];
    destruct (iteratee event sz); intros H; try contradiction; congruence.
Qed.

Lemma job_wf_pending sz j c :
  closure_of j = Some c -> iteratee event sz = Waterfall c -> job_wf event sz j.
Proof.
  unfold job_wf. intros Hc ->. destruct j; simpl in *; congruence.
Qed.

(** An iteration changes its own state and sends requests of its own. *)
Lemma well_formed_update sizes st st' i sz j' extra :
  well_formed event sizes st ->
  sizes !! i = Some sz ->
  job_wf event sz j' ->
  jobs st' = <[i := j']> (jobs st) ->
  trace st' = trace st ++ extra ->
  Forall (fun o => request_of o = None \/
            (request_of o = Some i /\
             exists c, iteratee event sz = Waterfall c /\ request_wf c o)) extra ->
  well_formed event sizes st'.
Proof.
  intros [Hjobs Htrace] Hsz Hj' Hjobs' Htrace' Hextra. split.
  - rewrite Hjobs', <- (list_insert_id sizes i sz Hsz).
    now apply Forall2_insert.
  - intros o k Ho Hk. rewrite Htrace' in Ho.
    apply elem_of_app in Ho as [Ho|Ho]; [eauto|].
    rewrite Forall_forall in Hextra. apply list_elem_of_In in Ho.
    destruct (Hextra o Ho) as [Hn|(Hi & c & Hc & Hwf)].
    + congruence.
    + assert (k = i) as -> by congruence. eauto.
Qed.

Lemma well_formed_step st i :
  well_formed event IMAGE_SIZES st -> well_formed event IMAGE_SIZES (step E st i).
Proof.
  intros Hwf. unfold step.
  destruct (uncaught st); [exact Hwf|].
  destruct (jobs st !! i) as [j|] eqn:Hj; [|exact Hwf].
  destruct (Forall2_lookup_r _ _ _ _ _ (wf_jobs _ _ _ Hwf) Hj) as (sz & Hsz & Hjwf).
  assert (Hfin : forall err, job_wf event sz (finished err) \/ closure_of j = None).
  { intros err. destruct j; simpl; auto; left;
      unfold job_wf in *; destruct (iteratee event sz); simpl in *;
      auto; contradiction. }
  destruct j as [c|c response|c response g|c contentType data|err]; [| | | |exact Hwf];
    (assert (Hc : iteratee event sz = Waterfall c)
       by (eapply job_wf_closure; [|exact Hjwf]; reflexivity)).
  - destruct (s3_getObject E (s3 st) (srcBucket c) (srcKey c)) as [err|response].
    + destruct (waterfall_callback_frame (length IMAGE_SIZES) i c (Some err) st)
        as (_ & Hjobs & _ & extra & Htr & Hx).
      apply (well_formed_update IMAGE_SIZES st _ i sz (finished (Some err)) extra
               Hwf Hsz); [| exact Hjobs | exact Htr |].
      * destruct (Hfin (Some err)) as [?|?]; [assumption | discriminate].
      * eapply Forall_impl; [|exact Hx]. simpl. auto.
    + eapply (well_formed_update IMAGE_SIZES st _ i sz _ _ Hwf Hsz);
        [| reflexivity | reflexivity |].
      * now apply job_wf_pending with c.
      * constructor; [|constructor]. right. simpl. eauto.
  - destruct (gm_size E (Body response)) as [size|];
      [|destruct Hwf; split; assumption].
    eapply (well_formed_update IMAGE_SIZES st _ i sz _ _ Hwf Hsz);
      [| reflexivity | reflexivity |].
    + now apply job_wf_pending with c.
    + constructor; [|constructor]. right. simpl. eauto.
  - destruct (gm_toBuffer E (Body response) g (imageType c)) as [err|buffer].
    + destruct (waterfall_callback_frame (length IMAGE_SIZES) i c (Some err) st)
        as (_ & Hjobs & _ & extra & Htr & Hx).
      apply (well_formed_update IMAGE_SIZES st _ i sz (finished (Some err)) extra
               Hwf Hsz); [| exact Hjobs | exact Htr |].
      * destruct (Hfin (Some err)) as [?|?]; [assumption | discriminate].
      * eapply Forall_impl; [|exact Hx]. simpl. auto.
    + eapply (well_formed_update IMAGE_SIZES st _ i sz _ _ Hwf Hsz);
        [| reflexivity | reflexivity |].
      * now apply job_wf_pending with c.
      * constructor; [|constructor]. right. simpl. split; [reflexivity|].
        exists c. auto.
  - destruct (putObject_error E (dstBucket c) (dstKey c)) as [err|].
    + destruct (waterfall_callback_frame (length IMAGE_SIZES) i c (Some err) st)
        as (_ & Hjobs & _ & extra & Htr & Hx).
      apply (well_formed_update IMAGE_SIZES st _ i sz (finished (Some err)) extra
               Hwf Hsz); [| exact Hjobs | exact Htr |].
      * destruct (Hfin (Some err)) as [?|?]; [assumption | discriminate].
      * eapply Forall_impl; [|exact Hx]. simpl. auto.
    + match goal with |- context [waterfall_callback ?t i c None ?s] =>
        destruct (waterfall_callback_frame t i c None s)
          as (_ & Hjobs & _ & extra & Htr & Hx) end.
      apply (well_formed_update IMAGE_SIZES st _ i sz (finished None) extra
               Hwf Hsz); [| exact Hjobs | exact Htr |].
      * destruct (Hfin None) as [?|?]; [assumption | discriminate].
      * eapply Forall_impl; [|exact Hx]. simpl. auto.
Qed.

Lemma well_formed_run schedule st :
  well_formed event IMAGE_SIZES st ->
  well_formed event IMAGE_SIZES (run E schedule st).
Proof.
  unfold run. revert st.
  induction schedule as [|i schedule IH]; simpl; intros st Hwf; [exact Hwf|].
  apply IH, well_formed_step, Hwf.
Qed.

End well_formed_states.

(** ** The handler, up to its return *)

Section handler_facts.

Variables (event : event.t) (bucket : store).

(** An undecodable key: the first iteration throws and nothing has run. *)
Lemma handler_throws :
  key_of event = None ->
  handler event bucket =
    {| s3 := bucket; jobs := []; completed := 0; settled := false;
       trace := []; uncaught := Some URIError |}.
Proof.
  intros Hkey. unfold handler. simpl. unfold start at 6. simpl.
  unfold iteratee at 1. rewrite Hkey. reflexivity.
Qed.

Variable key : jsstring.
Hypothesis Hkey : key_of event = Some key.

Lemma iteratee_no_throw sz e : iteratee event sz <> Throws e.
Proof.
  intros Hi. pose proof (iteratee_cases event sz) as Hc.
  rewrite Hi in Hc. destruct Hc as [_ Hnone]. congruence.
Qed.

Lemma job_wf_job_of sz : job_wf event sz (job_of (iteratee event sz)).
Proof.
  unfold job_wf. destruct (iteratee event sz) eqn:Hi; simpl; auto.
  now apply iteratee_no_throw in Hi.
Qed.

Lemma start_spec total (done : list imageSize.t) st sz :
  uncaught st = None ->
  jobs st = map (fun sz => job_of (iteratee event sz)) done ->
  s3 st = bucket ->
  trace_wf event done st ->
  let st' := start event total st sz in
  uncaught st' = None /\
  jobs st' = map (fun sz => job_of (iteratee event sz)) (done ++ [sz]) /\
  s3 st' = bucket /\
  trace_wf event (done ++ [sz]) st'.
Proof.
  intros Hu Hjobs Hs3 Htr. unfold start. rewrite Hu.
  assert (Hmono : forall o i, o ∈ trace st -> request_of o = Some i ->
            exists sz' c, (done ++ [sz]) !! i = Some sz' /\
              iteratee event sz' = Waterfall c /\ request_wf c o).
  { intros o i Ho Hi. destruct (Htr o i Ho Hi) as (sz' & c & Hl & Hc & Hwf).
    exists sz', c. split; [|auto]. now apply lookup_app_l_Some. }
  destruct (iteratee event sz) as [e|err result|c] eqn:Hi.
  - now apply iteratee_no_throw in Hi.
  - match goal with |- context [iterator_callback total err ?s] =>
      destruct (iterator_callback_frame total err s)
        as (Hs & Hj & Hun & extra & Ht & Hx) end.
    simpl in *. split_and!.
    + congruence.
    + rewrite Hj, Hjobs, map_app. simpl. now rewrite Hi.
    + congruence.
    + intros o i Ho Hreq. rewrite Ht in Ho.
      apply elem_of_app in Ho as [Ho|Ho]; [eauto|].
      rewrite Forall_forall in Hx. apply list_elem_of_In in Ho.
      specialize (Hx o Ho). congruence.
  - simpl. split_and!; auto.
    + rewrite Hjobs, map_app. simpl. now rewrite Hi.
    + intros o i Ho Hreq.
      apply elem_of_app in Ho as [Ho|Ho]; [eauto|].
      apply list_elem_of_singleton in Ho as ->. simpl in Hreq.
      injection Hreq as <-. exists sz, c. split_and!; simpl; auto.
      rewrite Hjobs, length_map. apply list_lookup_middle. reflexivity.
Qed.

Lemma fold_start_spec total (sizes done : list imageSize.t) st :
  uncaught st = None ->
  jobs st = map (fun sz => job_of (iteratee event sz)) done ->
  s3 st = bucket ->
  trace_wf event done st ->
  let st' := fold_left (start event total) sizes st in
  uncaught st' = None /\
  jobs st' = map (fun sz => job_of (iteratee event sz)) (done ++ sizes) /\
  s3 st' = bucket /\
  trace_wf event (done ++ sizes) st'.
Proof.
  revert done st. induction sizes as [|sz sizes IH]; intros done st Hu Hj Hs Ht.
  - simpl. rewrite app_nil_r. auto.
  - simpl. destruct (start_spec total done st sz Hu Hj Hs Ht) as (Hu' & Hj' & Hs' & Ht').
    specialize (IH (done ++ [sz]) _ Hu' Hj' Hs' Ht').
    rewrite <- app_assoc in IH. exact IH.
Qed.

(** When the handler returns, each iteration is either finished with what
    it passed to its callback or waits for its download, the bucket is
    untouched and only downloads have been requested. *)
Lemma handler_spec :
  let st := handler event bucket in
  uncaught st = None /\
  jobs st = map (fun sz => job_of (iteratee event sz)) IMAGE_SIZES /\
  s3 st = bucket /\
  well_formed event IMAGE_SIZES st.
Proof.
  unfold handler.
  match goal with |- context [fold_left ?f ?l ?s] =>
    destruct (fold_start_spec (length IMAGE_SIZES) IMAGE_SIZES [] s)
      as (Hu & Hj & Hs & Ht) end; try reflexivity.
  { intros o i Ho. simpl in Ho. now apply elem_of_nil in Ho. }
  cbv zeta. split_and!; auto. split; [|exact Ht].
  rewrite Hj. simpl app. apply Forall2_fmap_r, Forall_Forall2_diag, Forall_forall.
  intros sz _. apply job_wf_job_of.
Qed.

End handler_facts.

(** ** Iterations that return before the waterfall *)

Section early_return.

Variables (E : Env) (event : event.t) (bucket : store) (schedule : list nat).

Lemma invoke_well_formed key :
  key_of event = Some key ->
  well_formed event IMAGE_SIZES (invoke E event bucket schedule).
Proof.
  intros Hkey. apply well_formed_run.
  now destruct (handler_spec event bucket key Hkey) as (_ & _ & _ & Hwf).
Qed.

Lemma invoke_undecodable :
  key_of event = None ->
  invoke E event bucket schedule =
    {| s3 := bucket; jobs := []; completed := 0; settled := false;
       trace := []; uncaught := Some URIError |}.
Proof.
  intros Hkey. unfold invoke. rewrite (handler_throws event bucket Hkey).
  now apply run_uncaught.
Qed.

(** An iteration that called back before the waterfall stays finished with
    the error it passed and never sends a request. *)
Lemma returns_early sz i err result :
  iteratee event sz = Returns err result ->
  IMAGE_SIZES !! i = Some sz ->
  let st := invoke E event bucket schedule in
  jobs st !! i = Some (finished err) /\
  forall o, o ∈ trace st -> request_of o <> Some i.
Proof.
  intros Hi Hsz st.
  pose proof (iteratee_cases event sz) as Hc. rewrite Hi in Hc.
  destruct Hc as (key & Hkey & _).
  pose proof (invoke_well_formed key Hkey) as [Hjobs Htrace]. fold st in Hjobs, Htrace.
  split.
  - destruct (Forall2_lookup_l _ _ _ _ _ Hjobs Hsz) as (j & Hj & Hwf).
    unfold job_wf in Hwf. rewrite Hi in Hwf.
    destruct j; try contradiction. now subst.
  - intros o Ho Hreq. destruct (Htrace o i Ho Hreq) as (sz' & c & Hsz' & Hc & _).
    congruence.
Qed.

End early_return.

(** ** Destination keys *)

Section key_claims.

Lemma destination_key_has_slash sz key : char_slash ∈ destination_key sz key.
Proof.
  unfold destination_key. rewrite js_slash_cons.
  apply elem_of_app. right. apply elem_of_cons. now left.
Qed.

(** A key without a slash never equals its destination key. *)
Lemma destination_key_short sz key :
  (length (split char_slash key) < 2)%nat ->
  destination_key sz key = imageSize.name sz ++ js "/undefined/" ++ key /\
  destination_key sz key <> key.
Proof.
  intros Hlen. apply split_single_segment in Hlen as Hnot. split.
  - unfold destination_key. rewrite (split_without_separator _ _ Hnot).
    reflexivity.
  - intros Heq. apply Hnot. rewrite <- Heq. apply destination_key_has_slash.
Qed.

(** C3 (as stated, refuted): the key [file.jpg] has a single segment, and
    the [thumb] iteration does not fail: it enters the waterfall with the
    destination key [thumb/undefined/file.jpg], and the handler requests the
    download. *)
Lemma C3_single_segment_counterexample :
  let event := event.mk (js "bucket") (js "file.jpg") in
  key_of event = Some (js "file.jpg") /\
  length (split char_slash (js "file.jpg")) = 1%nat /\
  iteratee event thumb =
    Waterfall {| imageSize := thumb;
                 srcBucket := js "bucket"; srcKey := js "file.jpg";
                 dstBucket := js "bucket"; dstKey := js "thumb/undefined/file.jpg";
                 imageType := js "jpg" |} /\
  (forall err, iteratee event thumb <> Returns (Some err) None) /\
  s3_getObject_request 4 (js "bucket") (js "file.jpg") ∈ trace (handler event ∅).
Proof.
  cbv zeta. split_and!; try reflexivity.
  - intros err. vm_compute. discriminate.
  - vm_compute. do 4 apply list_elem_of_further. apply list_elem_of_here.
Qed.

(** C3 (amended): for a decoded key with fewer than 2 segments, resolving
    the destination does not fail. The missing second-to-last segment is
    rendered as the text [undefined]: the destination key is the size name,
    [/undefined/] and the key, which never equals the key; the iteration
    goes on to the type checks and, for a jpg, jpeg or png key, enters the
    waterfall with that destination key. *)
Theorem C3_short_key_resolves_with_undefined
    (event : event.t) (sz : imageSize.t) (key : jsstring) :
  decodeURIComponent (replace_plus (event.object_key event)) = Some key ->
  (length (split char_slash key) < 2)%nat ->
  let dst := imageSize.name sz ++ js "/undefined/" ++ key in
  destination_key sz key = dst /\
  dst <> key /\
  iteratee event sz =
    match match_extension key with
    | None => Returns (Some type_error) None
    | Some imageType =>
        if neq imageType (js "jpg") && neq imageType (js "jpeg")
           && neq imageType (js "png")
        then Returns None (Some (skip_message imageType))
        else Waterfall {| imageSize := sz;
                          srcBucket := bucket_of event; srcKey := key;
                          dstBucket := bucket_of event; dstKey := dst;
                          imageType := imageType |}
    end.
Proof.
  intros Hkey Hlen dst.
  destruct (destination_key_short sz key Hlen) as [Hdst Hne]. fold dst in Hdst.
  split; [exact Hdst|]. split; [now rewrite <- Hdst|].
  unfold iteratee, key_of. rewrite Hkey.
  rewrite bool_decide_eq_false_2 by exact Hne.
  destruct (match_extension key) as [imageType|]; [|reflexivity].
  now rewrite Hdst.
Qed.

Lemma C3_short_key_resolves_with_undefined_witness :
  let event := event.mk (js "bucket") (js "file.jpg") in
  destination_key thumb (js "file.jpg") = js "thumb/undefined/file.jpg" /\
  js "thumb/undefined/file.jpg" <> js "file.jpg" /\
  iteratee event thumb =
    Waterfall {| imageSize := thumb;
                 srcBucket := js "bucket"; srcKey := js "file.jpg";
                 dstBucket := js "bucket"; dstKey := js "thumb/undefined/file.jpg";
                 imageType := js "jpg" |}.
Proof.
  exact (C3_short_key_resolves_with_undefined
           (event.mk (js "bucket") (js "file.jpg")) thumb (js "file.jpg")
           eq_refl (le_n 2)).
Defined.

(** The worked example of the key resolver, and the decoding of the key. *)
Example resolve_DarthVader :
  iteratee (event.mk (js "bucket") (js "original/abc123/DarthVader.jpg")) thumb =
    Waterfall {| imageSize := thumb;
                 srcBucket := js "bucket";
                 srcKey := js "original/abc123/DarthVader.jpg";
                 dstBucket := js "bucket";
                 dstKey := js "thumb/abc123/DarthVader.jpg";
                 imageType := js "jpg" |}.
Proof. reflexivity. Qed.

Example key_of_encoded :
  key_of (event.mk (js "bucket") (js "original/abc123/My+Photo%2B1%C3%A9.jpg"))
  = Some (js "original/abc123/My Photo+1" ++ [233] ++ js ".jpg").
Proof. reflexivity. Qed.

End key_claims.

(** ** The type filter *)

Section type_claims.

(** C6 (as stated, refuted): the key [thumb/abc123/anim.gif] has the type
    [gif], and the [thumb] iteration is not skipped: it fails with the
    identical-keys error of line 77, which is checked before the type. *)
Lemma C6_identical_key_counterexample :
  let event := event.mk (js "bucket") (js "thumb/abc123/anim.gif") in
  key_of event = Some (js "thumb/abc123/anim.gif") /\
  match_extension (js "thumb/abc123/anim.gif") = Some (js "gif") /\
  iteratee event thumb = Returns (Some same_error) None /\
  iteratee event thumb <> Returns None (Some (skip_message (js "gif"))).
Proof. cbv zeta. split_and!; try reflexivity. vm_compute. discriminate. Qed.

(** C6 (amended): for a key whose type, the suffix after its last dot, is
    none of jpg, jpeg, png, an iteration whose destination key differs from
    the key calls back without error with the nothing-to-do message; one
    whose destination key equals the key fails with the identical-keys
    error instead. Either way the iteration is finished when the handler
    returns and sends no fetch, transform or store request. *)
Theorem C6_unsupported_type_is_skipped
    (event : event.t) (sz : imageSize.t) (stem imageType : jsstring) :
  let key := stem ++ js "." ++ imageType in
  key_of event = Some key ->
  char_dot ∉ imageType ->
  imageType <> js "jpg" -> imageType <> js "jpeg" -> imageType <> js "png" ->
  (destination_key sz key <> key ->
     iteratee event sz = Returns None (Some (skip_message imageType))) /\
  (destination_key sz key = key ->
     iteratee event sz = Returns (Some same_error) None) /\
  forall (E : Env) (bucket : store) (schedule : list nat) (i : nat),
    IMAGE_SIZES !! i = Some sz ->
    let st := invoke E event bucket schedule in
    (exists err, jobs st !! i = Some (finished err)) /\
    forall o, o ∈ trace st -> request_of o <> Some i.
Proof.
  intros key Hkey Hdot Hjpg Hjpeg Hpng.
  assert (Hext : match_extension key = Some imageType)
    by now apply match_extension_suffix.
  assert (Hne : destination_key sz key <> key ->
            iteratee event sz = Returns None (Some (skip_message imageType))).
  { intros Hdst. unfold iteratee. rewrite Hkey.
    rewrite bool_decide_eq_false_2 by exact Hdst. rewrite Hext.
    now rewrite !neq_true. }
  assert (Heq : destination_key sz key = key ->
            iteratee event sz = Returns (Some same_error) None).
  { intros Hdst. unfold iteratee. rewrite Hkey.
    now rewrite bool_decide_eq_true_2. }
  split; [exact Hne|]. split; [exact Heq|].
  intros E bucket schedule i Hi st.
  destruct (decide (destination_key sz key = key)) as [Hd|Hd].
  - destruct (returns_early E event bucket schedule sz i _ _ (Heq Hd) Hi) as [Hj Ht].
    split; [eauto | exact Ht].
  - destruct (returns_early E event bucket schedule sz i _ _ (Hne Hd) Hi) as [Hj Ht].
    split; [eauto | exact Ht].
Qed.

Lemma C6_unsupported_type_is_skipped_witness :
  let event := event.mk (js "bucket") (js "original/abc123/anim.gif") in
  let st := invoke quiet event ∅ [4; 4]%nat in
  iteratee event thumb = Returns None (Some (skip_message (js "gif"))) /\
  (exists err, jobs st !! 4%nat = Some (finished err)) /\
  forall o, o ∈ trace st -> request_of o <> Some 4%nat.
Proof.
  cbv zeta.
  destruct (C6_unsupported_type_is_skipped
              (event.mk (js "bucket") (js "original/abc123/anim.gif")) thumb
              (js "original/abc123/anim") (js "gif"))
    as (Hskip & _ & Hquiet); try (vm_compute; discriminate).
  - reflexivity.
  - vm_compute. intros H. repeat (apply elem_of_cons in H as [H|H]; [discriminate|]).
    now apply elem_of_nil in H.
  - split; [apply Hskip; vm_compute; discriminate|].
    apply (Hquiet quiet ∅ [4; 4]%nat 4%nat). reflexivity.
Defined.

(** C9 (as stated, refuted): the key [thumb/abc123/notes] holds no dot, and
    the [thumb] iteration does not fail with the image-type error: it fails
    with the identical-keys error of line 77, which is checked first. *)
Lemma C9_identical_key_counterexample :
  let event := event.mk (js "bucket") (js "thumb/abc123/notes") in
  key_of event = Some (js "thumb/abc123/notes") /\
  (char_dot ∉ js "thumb/abc123/notes") /\
  iteratee event thumb = Returns (Some same_error) None /\
  iteratee event thumb <> Returns (Some type_error) None.
Proof.
  cbv zeta. split_and!; try reflexivity.
  - vm_compute. intros H. repeat (apply elem_of_cons in H as [H|H]; [discriminate|]).
    now apply elem_of_nil in H.
  - vm_compute. discriminate.
Qed.

(** C9 (amended): for a key that holds no dot, an iteration whose
    destination key differs from the key fails with the image-type error of
    line 84, not with a skip; one whose destination key equals the key fails
    with the identical-keys error instead. Either way the iteration has
    failed when the handler returns and sends no fetch, transform or store
    request. *)
Theorem C9_no_extension_fails
    (event : event.t) (sz : imageSize.t) (key : jsstring) :
  key_of event = Some key ->
  char_dot ∉ key ->
  (destination_key sz key <> key ->
     iteratee event sz = Returns (Some type_error) None) /\
  (destination_key sz key = key ->
     iteratee event sz = Returns (Some same_error) None) /\
  forall (E : Env) (bucket : store) (schedule : list nat) (i : nat),
    IMAGE_SIZES !! i = Some sz ->
    let st := invoke E event bucket schedule in
    (exists err, jobs st !! i = Some (finished (Some err))) /\
    forall o, o ∈ trace st -> request_of o <> Some i.
Proof.
  intros Hkey Hdot.
  assert (Hext : match_extension key = None) by now apply match_extension_none.
  assert (Hne : destination_key sz key <> key ->
            iteratee event sz = Returns (Some type_error) None).
  { intros Hdst. unfold iteratee. rewrite Hkey.
    rewrite bool_decide_eq_false_2 by exact Hdst. now rewrite Hext. }
  assert (Heq : destination_key sz key = key ->
            iteratee event sz = Returns (Some same_error) None).
  { intros Hdst. unfold iteratee. rewrite Hkey.
    now rewrite bool_decide_eq_true_2. }
  split; [exact Hne|]. split; [exact Heq|].
  intros E bucket schedule i Hi st.
  destruct (decide (destination_key sz key = key)) as [Hd|Hd].
  - destruct (returns_early E event bucket schedule sz i _ _ (Heq Hd) Hi) as [Hj Ht].
    split; [eauto | exact Ht].
  - destruct (returns_early E event bucket schedule sz i _ _ (Hne Hd) Hi) as [Hj Ht].
    split; [eauto | exact Ht].
Qed.

Lemma C9_no_extension_fails_witness :
  let event := event.mk (js "bucket") (js "original/abc123/notes") in
  let st := invoke quiet event ∅ [4; 4]%nat in
  iteratee event thumb = Returns (Some type_error) None /\
  (exists err, jobs st !! 4%nat = Some (finished (Some err))) /\
  forall o, o ∈ trace st -> request_of o <> Some 4%nat.
Proof.
  cbv zeta.
  destruct (C9_no_extension_fails
              (event.mk (js "bucket") (js "original/abc123/notes")) thumb
              (js "original/abc123/notes"))
    as (Hfail & _ & Hquiet).
  - reflexivity.
  - vm_compute. intros H. repeat (apply elem_of_cons in H as [H|H]; [discriminate|]).
    now apply elem_of_nil in H.
  - split; [apply Hfail; vm_compute; discriminate|].
    apply (Hquiet quiet ∅ [4; 4]%nat 4%nat). reflexivity.
Defined.

End type_claims.

(** ** The bookkeeping of [async.each] *)

Section each_facts.

Local Open Scope nat_scope.

Implicit Types (l : list job) (j : job) (st : state).

Lemma successes_le_length l : successes l <= length l.
Proof. induction l as [|j l IH]; simpl; [lia|]. destruct (is_ok j); lia. Qed.

Lemma successes_app l1 l2 : successes (l1 ++ l2) = successes l1 + successes l2.
Proof. induction l1 as [|j l1 IH]; simpl; [reflexivity|]. rewrite IH. lia. Qed.

Lemma failure_not_success l e :
  finished (Some e) ∈ l -> successes l < length l.
Proof.
  induction l as [|j l IH]; intros Hin.
  - now apply elem_of_nil in Hin.
  - apply elem_of_cons in Hin as [<- | Hin]; simpl.
    + pose proof (successes_le_length l). lia.
    + specialize (IH Hin). destruct (is_ok j); lia.
Qed.

Lemma all_successes l :
  successes l = length l -> Forall (fun j => j = finished None) l.
Proof.
  induction l as [|j l IH]; simpl; intros Hs; [constructor|].
  pose proof (successes_le_length l).
  destruct j as [| | | |[e|]]; simpl in Hs; try lia.
  constructor; [reflexivity | apply IH; lia].
Qed.

Lemma callbacks_app t1 t2 : callbacks (t1 ++ t2) = callbacks t1 ++ callbacks t2.
Proof.
  induction t1 as [|o t1 IH]; simpl; [reflexivity|].
  destruct o; simpl; rewrite ?IH; reflexivity.
Qed.

Lemma callbacks_requests t :
  Forall (fun o => request_of o <> None) t -> callbacks t = [].
Proof.
  induction 1 as [|o t Ho _ IH]; simpl; [reflexivity|].
  destruct o; simpl in *; congruence.
Qed.

(** How replacing a pending job changes the counts. *)
Lemma successes_insert l i j j' :
  l !! i = Some j -> is_finished j = false ->
  successes (<[i := j']> l) = successes l + (if is_ok j' then 1 else 0).
Proof.
  revert i. induction l as [|x l IH]; intros [|i] Hl Hj; simpl in *; try discriminate.
  - injection Hl as ->. destruct j; simpl in *; try discriminate; lia.
  - rewrite (IH i Hl Hj). lia.
Qed.

Lemma failures_insert l i j j' e :
  l !! i = Some j -> is_finished j = false ->
  finished (Some e) ∈ <[i := j']> l <->
  finished (Some e) ∈ l \/ j' = finished (Some e).
Proof.
  intros Hl Hj. split.
  - intros Hin. apply list_elem_of_lookup in Hin as [k Hk].
    destruct (decide (k = i)) as [->|Hne].
    + rewrite list_lookup_insert_eq in Hk by (eapply lookup_lt_Some; eauto).
      right. congruence.
    + rewrite list_lookup_insert_ne in Hk by congruence.
      left. eapply list_elem_of_lookup_2; eauto.
  - intros [Hin | ->].
    + apply list_elem_of_lookup in Hin as [k Hk].
      destruct (decide (k = i)) as [->|Hne].
      * rewrite Hl in Hk. injection Hk as ->. discriminate.
      * apply (list_elem_of_lookup_2 _ k).
        rewrite list_lookup_insert_ne by congruence. exact Hk.
    + eapply list_elem_of_lookup_2. apply list_lookup_insert_eq.
      eapply lookup_lt_Some; eauto.
Qed.

End each_facts.

Section aggregation.

Local Open Scope nat_scope.

Variable total : nat.

Implicit Types (st : state) (err : option jsval).

(** A state that differs from an aggregated one by requests in flight. *)
Lemma aggregated_pending st st1 :
  aggregated total st ->
  completed st1 = completed st -> settled st1 = settled st ->
  callbacks (trace st1) = callbacks (trace st) ->
  (forall o, o ∈ trace st -> o ∈ trace st1) ->
  successes (jobs st1) = successes (jobs st) ->
  (forall e, finished (Some e) ∈ jobs st1 <-> finished (Some e) ∈ jobs st) ->
  length (jobs st1) <= total ->
  aggregated total st1.
Proof.
  intros (Hc & Hlen & Hs) Hc1 Hs1 Hcb Htr Hsucc Hfail Hlen1.
  unfold aggregated. rewrite Hc1, Hs1, Hcb, Hsucc.
  split; [exact Hc|]. split; [exact Hlen1|].
  destruct (settled st).
  - destruct Hs as [[(e & He & Hlog) Hno]|Hall]; [left | right; exact Hall].
    split; [|exact Hno]. exists e. split; [now apply Hfail | now apply Htr].
  - destruct Hs as (Hnone & Hlt & Hno). split_and!; auto.
    intros e He. apply (Hnone e). now apply Hfail.
Qed.

(** An iteration has just finished and tells [async.each]. *)
Lemma aggregated_notify st st1 err :
  aggregated total st ->
  completed st1 = completed st -> settled st1 = settled st ->
  callbacks (trace st1) = callbacks (trace st) ->
  (forall o, o ∈ trace st -> o ∈ trace st1) ->
  successes (jobs st1)
    = successes (jobs st) + (match err with None => 1 | Some _ => 0 end) ->
  (forall e, finished (Some e) ∈ jobs st1 <->
             finished (Some e) ∈ jobs st \/ err = Some e) ->
  length (jobs st1) <= total ->
  aggregated total (iterator_callback total err st1).
Proof.
  intros (Hc & Hlen & Hs) Hc1 Hs1 Hcb Htr Hsucc Hfail Hlen1.
  pose proof (successes_le_length (jobs st1)) as Hle.
  rewrite <- Hs1 in Hs.
  unfold aggregated, iterator_callback, final_callback.
  destruct err as [e|]; cbn [settled completed jobs trace].
  - (* the iteration failed *)
    rewrite Nat.add_0_r in Hsucc.
    assert (Hin : finished (Some e) ∈ jobs st1) by (apply Hfail; now right).
    destruct (settled st1) eqn:Hset; simpl; rewrite ?Hset.
    + rewrite Hc1, Hcb, Hsucc. split_and!; auto.
      destruct Hs as [[(e' & He' & Hlog) Hno]|[Hall _]].
      * left. split; [|exact Hno]. exists e'.
        split; [apply Hfail; now left | now apply Htr].
      * pose proof (failure_not_success _ _ Hin). lia.
    + rewrite Hc1, Hsucc. split_and!; auto. left.
      destruct Hs as (_ & _ & Hno). split.
      * exists e. split; [exact Hin|]. apply elem_of_app. right. apply list_elem_of_here.
      * rewrite callbacks_app, Hcb, Hno. reflexivity.
  - (* the iteration succeeded *)
    destruct (settled st1) eqn:Hset.
    + assert (Hgoal :
        S (completed st1) = successes (jobs st1) /\ length (jobs st1) <= total /\
        (((exists e, finished (Some e) ∈ jobs st1 /\
             console_error final_error_text e ∈ trace st1) /\
          callbacks (trace st1) = []) \/
         (successes (jobs st1) = total /\ callbacks (trace st1) = [(None, all_done)]))).
      { split; [lia|]. split; [exact Hlen1|].
        destruct Hs as [[(e' & He' & Hlog) Hno]|[Hall _]]; [|lia].
        left. split; [|congruence]. exists e'.
        split; [apply Hfail; now left | now apply Htr]. }
      destruct (S (completed st1) =? total); cbn [settled completed jobs trace];
        rewrite ?Hset; exact Hgoal.
    + destruct Hs as (Hnone & Hlt & Hno).
      destruct (Nat.eqb_spec (S (completed st1)) total) as [Heq|Hne];
        cbn [settled completed jobs trace log]; rewrite ?Hset;
        cbn [settled completed jobs trace log].
      * split; [lia|]. split; [exact Hlen1|]. right. split; [lia|].
        rewrite callbacks_app, Hcb, Hno. reflexivity.
      * split; [lia|]. split; [exact Hlen1|]. split_and!; [|lia|congruence].
        intros e He. apply Hfail in He as [He|He]; [now apply (Hnone e) | discriminate].
Qed.

End aggregation.

Section aggregated_states.

Local Open Scope nat_scope.

Variables (E : Env) (event : event.t).

Lemma start_length total st sz :
  length (jobs (start event total st sz)) <= S (length (jobs st)).
Proof.
  unfold start. destruct (uncaught st); [lia|].
  destruct (iteratee event sz) as [e|err result|c]; simpl; [lia| |].
  - match goal with |- context [iterator_callback total err ?s] =>
      destruct (iterator_callback_frame total err s) as (_ & -> & _) end.
    simpl. rewrite length_app. simpl. lia.
  - rewrite length_app. simpl. lia.
Qed.

Lemma aggregated_start total st sz :
  aggregated total st -> length (jobs st) < total ->
  aggregated total (start event total st sz).
Proof.
  intros Hagg Hlen. unfold start. destruct (uncaught st); [exact Hagg|].
  destruct (iteratee event sz) as [e|err result|c].
  - exact Hagg.
  - apply aggregated_notify with st; try reflexivity; simpl.
    + exact Hagg.
    + auto.
    + rewrite successes_app. simpl. destruct err; simpl; lia.
    + intros e. rewrite elem_of_app, list_elem_of_singleton.
      split; (intros [H|H]; [now left | right; congruence]).
    + rewrite length_app. simpl. lia.
  - apply aggregated_pending with st; try reflexivity; simpl.
    + exact Hagg.
    + rewrite callbacks_app. simpl. now rewrite app_nil_r.
    + intros o Ho. apply elem_of_app. now left.
    + rewrite successes_app. simpl. lia.
    + intros e. rewrite elem_of_app, list_elem_of_singleton.
      split; [intros [H|H]; [exact H | discriminate] | now left].
    + rewrite length_app. simpl. lia.
Qed.

Lemma aggregated_fold_start total sizes st :
  aggregated total st -> length (jobs st) + length sizes <= total ->
  aggregated total (fold_left (start event total) sizes st).
Proof.
  revert st. induction sizes as [|sz sizes IH]; simpl; intros st Hagg Hlen; [exact Hagg|].
  apply IH.
  - apply aggregated_start; [exact Hagg | lia].
  - pose proof (start_length total st sz). lia.
Qed.

Lemma aggregated_handler bucket :
  aggregated (length IMAGE_SIZES) (handler event bucket).
Proof.
  unfold handler. apply aggregated_fold_start; [|simpl; lia].
  unfold aggregated. simpl. split_and!; auto; try lia.
  intros e He. now apply elem_of_nil in He.
Qed.

Lemma aggregated_step st i :
  aggregated (length IMAGE_SIZES) st ->
  aggregated (length IMAGE_SIZES) (step E st i).
Proof.
  intros Hagg. unfold step.
  destruct (uncaught st); [exact Hagg|].
  destruct (jobs st !! i) as [j|] eqn:Hj; [|exact Hagg].
  assert (Hlen : length (<[i := finished None]> (jobs st)) <= length IMAGE_SIZES).
  { rewrite length_insert. apply Hagg. }
  assert (Hpending : forall j' req,
            is_finished j = false -> is_finished j' = false ->
            request_of req <> None ->
            aggregated (length IMAGE_SIZES)
              (log req (set_jobs (<[i := j']> (jobs st)) st))).
  { intros j' req Hf Hf' Hreq.
    apply aggregated_pending with st; try reflexivity; simpl.
    - exact Hagg.
    - rewrite callbacks_app, (callbacks_requests [req]), app_nil_r; [reflexivity|].
      constructor; [exact Hreq | constructor].
    - intros o Ho. apply elem_of_app. now left.
    - rewrite (successes_insert _ _ _ _ Hj Hf).
      destruct j'; simpl in *; try discriminate; lia.
    - intros e. rewrite (failures_insert _ _ _ _ _ Hj Hf).
      split; [intros [H|H]; [exact H | subst; discriminate] | now left].
    - rewrite length_insert. apply Hagg. }
  assert (Hfinish : forall c err st1,
            is_finished j = false ->
            completed st1 = completed st -> settled st1 = settled st ->
            trace st1 = trace st -> jobs st1 = jobs st ->
            aggregated (length IMAGE_SIZES)
              (waterfall_callback (length IMAGE_SIZES) i c err st1)).
  { intros c err st1 Hf Hc1 Hs1 Ht1 Hj1. unfold waterfall_callback.
    destruct err as [e|].
    - apply aggregated_notify with st; simpl; rewrite ?Hc1, ?Hs1, ?Ht1, ?Hj1;
        try reflexivity.
      + exact Hagg.
      + rewrite callbacks_app. simpl. now rewrite app_nil_r.
      + intros o Ho. apply elem_of_app. now left.
      + rewrite (successes_insert _ _ _ _ Hj Hf). reflexivity.
      + intros e'. rewrite (failures_insert _ _ _ _ _ Hj Hf).
        split; (intros [H|H]; [now left | right; congruence]).
      + rewrite length_insert. apply Hagg.
    - apply aggregated_notify with st; simpl; rewrite ?Hc1, ?Hs1, ?Ht1, ?Hj1;
        try reflexivity.
      + exact Hagg.
      + auto.
      + rewrite (successes_insert _ _ _ _ Hj Hf). reflexivity.
      + intros e'. rewrite (failures_insert _ _ _ _ _ Hj Hf).
        split; (intros [H|H]; [now left | right; congruence]).
      + rewrite length_insert. apply Hagg. }
  destruct j as [c|c response|c response g|c contentType data|err]; [| | | |exact Hagg].
  - destruct (s3_getObject E (s3 st) (srcBucket c) (srcKey c)) as [err|response].
    + now apply Hfinish.
    + now apply Hpending.
  - destruct (gm_size E (Body response)) as [size|]; [|exact Hagg].
    now apply Hpending.
  - destruct (gm_toBuffer E (Body response) g (imageType c)) as [err|buffer].
    + now apply Hfinish.
    + now apply Hpending.
  - destruct (putObject_error E (dstBucket c) (dstKey c)) as [err|].
    + now apply Hfinish.
    + now apply Hfinish.
Qed.

Lemma aggregated_invoke bucket schedule :
  aggregated (length IMAGE_SIZES) (invoke E event bucket schedule).
Proof.
  unfold invoke, run. generalize (aggregated_handler bucket).
  generalize (handler event bucket). 
  induction schedule as [|i schedule IH]; simpl; intros st Hagg; [exact Hagg|].
  apply IH, aggregated_step, Hagg.
Qed.

End aggregated_states.

(** ** Every invocation comes to an end *)

Section progress.

Local Open Scope nat_scope.

Variable E : Env.

(** A completion moves its iteration on and leaves the others alone. *)
Lemma step_progress st i :
  let st' := step E st i in
  uncaught st' <> None \/
  forall k j, jobs st !! k = Some j ->
    exists j', jobs st' !! k = Some j' /\
      remaining j' <= remaining j - (if decide (k = i) then 1 else 0).
Proof.
  cbv zeta.
  assert (Hstay : forall k j, jobs st !! k = Some j -> jobs st !! i = None \/
            (exists j0, jobs st !! i = Some j0 /\ remaining j0 = 0) ->
            exists j', jobs st !! k = Some j' /\
              remaining j' <= remaining j - (if decide (k = i) then 1 else 0)).
  { intros k j Hk Hi. exists j. split; [exact Hk|].
    destruct (decide (k = i)) as [->|_]; [|lia].
    destruct Hi as [Hi|(j0 & Hi & H0)]; rewrite Hi in Hk; [discriminate|].
    injection Hk as <-. lia. }
  assert (Hmove : forall j0 j1 st1,
            jobs st !! i = Some j0 -> remaining j1 < remaining j0 ->
            jobs st1 = <[i := j1]> (jobs st) ->
            forall k j, jobs st !! k = Some j ->
              exists j', jobs st1 !! k = Some j' /\
                remaining j' <= remaining j - (if decide (k = i) then 1 else 0)).
  { intros j0 j1 st1 Hi Hlt Hjobs k j Hk. rewrite Hjobs.
    destruct (decide (k = i)) as [->|Hne].
    - exists j1. rewrite list_lookup_insert_eq by (eapply lookup_lt_Some; eauto).
      split; [reflexivity|]. assert (j = j0) as -> by congruence. lia.
    - exists j. rewrite list_lookup_insert_ne by congruence. split; [exact Hk | lia]. }
  unfold step. destruct (uncaught st) eqn:Hunc; [left; congruence|].
  destruct (jobs st !! i) as [j0|] eqn:Hi; [|right; intros; apply Hstay; auto].
  destruct j0 as [c|c response|c response g|c contentType data|err].
  - destruct (s3_getObject E (s3 st) (srcBucket c) (srcKey c)) as [err|response].
    + destruct (waterfall_callback_frame (length IMAGE_SIZES) i c (Some err) st)
        as (_ & Hjobs & _). right.
      apply (Hmove _ (finished (Some err)) _ eq_refl); [simpl; lia | exact Hjobs].
    + right. apply (Hmove _ (transform c response) _ eq_refl); [simpl; lia | reflexivity].
  - destruct (gm_size E (Body response)) as [size|]; [|left; discriminate].
    right. eapply (Hmove _ (toBuffer c response _) _ eq_refl); [simpl; lia | reflexivity].
  - destruct (gm_toBuffer E (Body response) g (imageType c)) as [err|buffer].
    + destruct (waterfall_callback_frame (length IMAGE_SIZES) i c (Some err) st)
        as (_ & Hjobs & _). right.
      apply (Hmove _ (finished (Some err)) _ eq_refl); [simpl; lia | exact Hjobs].
    + right. apply (Hmove _ (upload c (ContentType response) buffer) _ eq_refl);
        [simpl; lia | reflexivity].
  - destruct (putObject_error E (dstBucket c) (dstKey c)) as [err|].
    + destruct (waterfall_callback_frame (length IMAGE_SIZES) i c (Some err) st)
        as (_ & Hjobs & _). right.
      apply (Hmove _ (finished (Some err)) _ eq_refl); [simpl; lia | exact Hjobs].
    + match goal with |- context [waterfall_callback ?t i c None ?s] =>
        destruct (waterfall_callback_frame t i c None s) as (_ & Hjobs & _) end.
      right. apply (Hmove _ (finished None) _ eq_refl); [simpl; lia | exact Hjobs].
  - right. intros k j Hk. apply Hstay; [exact Hk|]. right. exists (finished err). auto.
Qed.

Lemma step_length st i : length (jobs (step E st i)) = length (jobs st).
Proof.
  unfold step. destruct (uncaught st); [reflexivity|].
  destruct (jobs st !! i) as [j|]; [|reflexivity].
  destruct j as [c|c response|c response g|c contentType data|err]; [| | | |reflexivity].
  - destruct (s3_getObject E (s3 st) (srcBucket c) (srcKey c)) as [err|response].
    + destruct (waterfall_callback_frame (length IMAGE_SIZES) i c (Some err) st)
        as (_ & -> & _). apply length_insert.
    + simpl. apply length_insert.
  - destruct (gm_size E (Body response)); simpl; [apply length_insert | reflexivity].
  - destruct (gm_toBuffer E (Body response) g (imageType c)) as [err|buffer].
    + destruct (waterfall_callback_frame (length IMAGE_SIZES) i c (Some err) st)
        as (_ & -> & _). apply length_insert.
    + simpl. apply length_insert.
  - destruct (putObject_error E (dstBucket c) (dstKey c)) as [err|].
    + destruct (waterfall_callback_frame (length IMAGE_SIZES) i c (Some err) st)
        as (_ & -> & _). apply length_insert.
    + match goal with |- context [waterfall_callback ?t i c None ?s] =>
        destruct (waterfall_callback_frame t i c None s) as (_ & -> & _) end.
      simpl. apply length_insert.
Qed.

(** Along a schedule an iteration loses one pending request each time its
    turn comes. *)
Lemma run_progress schedule st :
  let st' := run E schedule st in
  uncaught st' <> None \/
  (length (jobs st') = length (jobs st) /\
   forall k j, jobs st !! k = Some j ->
     exists j', jobs st' !! k = Some j' /\
       remaining j' <= remaining j - count_occ Nat.eq_dec schedule k).
Proof.
  cbv zeta. revert st. induction schedule as [|i schedule IH]; intros st.
  - right. split; [reflexivity|]. intros k j Hk. exists j. simpl. split; [exact Hk | lia].
  - change (run E (i :: schedule) st) with (run E schedule (step E st i)).
    destruct (step_progress st i) as [Hunc|Hstep].
    { left. now rewrite run_uncaught. }
    destruct (IH (step E st i)) as [Hunc|[Hlen Hrun]]; [now left|].
    right. split; [now rewrite Hlen, step_length|].
    intros k j Hk. destruct (Hstep k j Hk) as (j1 & Hk1 & H1).
    destruct (Hrun k j1 Hk1) as (j' & Hk' & H'). exists j'. split; [exact Hk'|].
    simpl. destruct (Nat.eq_dec i k) as [->|Hne].
    + rewrite decide_True in H1 by reflexivity. lia.
    + rewrite decide_False in H1 by congruence. lia.
Qed.

(** Four turns for each of the six iterations bring every invocation to
    its end. *)
Lemma round_robin_terminates (event : event.t) (bucket : store) :
  terminal (invoke E event bucket round_robin).
Proof.
  unfold terminal, invoke.
  destruct (run_progress round_robin (handler event bucket)) as [Hunc|[Hlen Hrun]];
    [now left|].
  right. apply Forall_forall. intros j' Hin.
  apply list_elem_of_In, list_elem_of_lookup in Hin as [k Hk'].
  assert (Hk6 : k < 6).
  { destruct (aggregated_handler event bucket) as (_ & Hle & _). simpl in Hle.
    apply lookup_lt_Some in Hk'. lia. }
  destruct (lookup_lt_is_Some_2 (jobs (handler event bucket)) k) as [j Hk].
  { apply lookup_lt_Some in Hk'. lia. }
  destruct (Hrun k j Hk) as (j1 & Hk1 & Hrem).
  assert (j1 = j') as -> by congruence.
  assert (Hcount : count_occ Nat.eq_dec round_robin k = 4).
  { do 6 (destruct k as [|k]; [reflexivity|]). lia. }
  rewrite Hcount in Hrem.
  destruct j, j'; simpl in Hrem; try lia; reflexivity.
Qed.

Lemma fair_spec schedule k :
  fair schedule = true -> k < length IMAGE_SIZES ->
  4 <= count_occ Nat.eq_dec schedule k.
Proof.
  unfold fair. rewrite forallb_forall. intros Hall Hk.
  apply Nat.leb_le, Hall, in_seq. lia.
Qed.

(** A fair schedule brings every invocation to its end. *)
Lemma fair_run_is_terminal (event : event.t) (bucket : store) schedule :
  fair schedule = true -> terminal (invoke E event bucket schedule).
Proof.
  intros Hfair. unfold terminal, invoke.
  destruct (run_progress schedule (handler event bucket)) as [Hunc|[Hlen Hrun]];
    [now left|].
  right. apply Forall_forall. intros j' Hin.
  apply list_elem_of_In, list_elem_of_lookup in Hin as [k Hk'].
  destruct (aggregated_handler event bucket) as (_ & Hle & _).
  assert (Hk : k < length (jobs (handler event bucket))).
  { apply lookup_lt_Some in Hk'. lia. }
  destruct (lookup_lt_is_Some_2 _ k Hk) as [j Hj].
  destruct (Hrun k j Hj) as (j1 & Hk1 & Hrem).
  assert (j1 = j') as -> by congruence.
  pose proof (fair_spec schedule k Hfair ltac:(lia)) as Hcount.
  destruct j, j'; simpl in Hrem; try lia; reflexivity.
Qed.

End progress.

(** ** The bucket after an invocation *)

Section destinations.

Variable event : event.t.

Lemma names_NoDup : NoDup (map imageSize.name IMAGE_SIZES).
Proof. apply (bool_decide_unpack _). vm_compute. reflexivity. Qed.

(** Two iterations that write the same object are the same size. *)
Lemma dst_injective sz sz' c c' :
  iteratee event sz = Waterfall c -> iteratee event sz' = Waterfall c' ->
  dst c = dst c' -> imageSize.name sz = imageSize.name sz'.
Proof.
  intros Hc Hc' Hdst.
  pose proof (iteratee_cases event sz) as H. rewrite Hc in H.
  destruct H as (Hk & _ & _ & _ & Hd & _).
  pose proof (iteratee_cases event sz') as H'. rewrite Hc' in H'.
  destruct H' as (Hk' & _ & _ & _ & Hd' & _).
  assert (Hkey : srcKey c = srcKey c') by congruence.
  unfold dst in Hdst. injection Hdst as _ Hdk.
  rewrite Hd, Hd', Hkey in Hdk. unfold destination_key in Hdk.
  now apply app_inv_tail in Hdk.
Qed.

Lemma dst_distinct i i' sz sz' c c' :
  IMAGE_SIZES !! i = Some sz -> IMAGE_SIZES !! i' = Some sz' -> i <> i' ->
  iteratee event sz = Waterfall c -> iteratee event sz' = Waterfall c' ->
  dst c <> dst c'.
Proof.
  intros Hi Hi' Hne Hc Hc' Hdst. apply Hne.
  apply (NoDup_lookup _ i i' (imageSize.name sz) names_NoDup).
  - change (map imageSize.name IMAGE_SIZES) with (imageSize.name <$> IMAGE_SIZES).
    rewrite list_lookup_fmap, Hi. reflexivity.
  - change (map imageSize.name IMAGE_SIZES) with (imageSize.name <$> IMAGE_SIZES).
    rewrite list_lookup_fmap, Hi'. simpl. f_equal. symmetry.
    eapply dst_injective; eauto.
Qed.

(** No iteration writes the object the iterations read. *)
Lemma source_not_dst sz sz' c c' :
  iteratee event sz = Waterfall c -> iteratee event sz' = Waterfall c' ->
  (srcBucket c, srcKey c) <> dst c'.
Proof.
  intros Hc Hc' Heq.
  pose proof (iteratee_cases event sz) as H. rewrite Hc in H.
  destruct H as (Hk & _).
  pose proof (iteratee_cases event sz') as H'. rewrite Hc' in H'.
  destruct H' as (Hk' & _ & _ & _ & _ & Hne & _).
  unfold dst in Heq. injection Heq as _ Hkey. congruence.
Qed.

Lemma same_source sz sz' c c' :
  iteratee event sz = Waterfall c -> iteratee event sz' = Waterfall c' ->
  srcBucket c = srcBucket c' /\ srcKey c = srcKey c'.
Proof.
  intros Hc Hc'.
  pose proof (iteratee_cases event sz) as H. rewrite Hc in H.
  destruct H as (Hk & _ & Hb & _).
  pose proof (iteratee_cases event sz') as H'. rewrite Hc' in H'.
  destruct H' as (Hk' & _ & Hb' & _).
  split; congruence.
Qed.

(** Whether a key is written by some iteration. *)
Lemma dst_dec (sizes : list imageSize.t) (k : jsstring * jsstring) :
  (exists sz c, sz ∈ sizes /\ iteratee event sz = Waterfall c /\ k = dst c) \/
  (forall sz c, sz ∈ sizes -> iteratee event sz = Waterfall c -> k <> dst c).
Proof.
  induction sizes as [|sz sizes IH].
  - right. intros sz c Hin. now apply elem_of_nil in Hin.
  - destruct IH as [(sz' & c & Hin & Hc & Hk)|Hnone].
    + left. exists sz', c. split; [now apply list_elem_of_further | auto].
    + destruct (iteratee event sz) as [e|err r|c] eqn:Hi.
      * right. intros sz' c Hin Hc. apply elem_of_cons in Hin as [-> | Hin];
          [congruence | eauto].
      * right. intros sz' c Hin Hc. apply elem_of_cons in Hin as [-> | Hin];
          [congruence | eauto].
      * destruct (decide (k = dst c)) as [Hk|Hk].
        -- left. exists sz, c. split; [apply list_elem_of_here | auto].
        -- right. intros sz' c' Hin Hc. apply elem_of_cons in Hin as [-> | Hin];
             [congruence | eauto].
Qed.

End destinations.

Section renditions_facts.

Variables (E : Env) (event : event.t) (s0 : store).

Lemma fold_rendition_other (sizes : list imageSize.t) (acc : store) k :
  (forall sz c, sz ∈ sizes -> iteratee event sz = Waterfall c -> k <> dst c) ->
  fold_left (store_rendition E event s0) sizes acc !! k = acc !! k.
Proof.
  revert acc. induction sizes as [|sz sizes IH]; intros acc Hk; simpl; [reflexivity|].
  rewrite IH by (intros sz' c Hin; apply Hk; now apply list_elem_of_further).
  unfold store_rendition. destruct (iteratee event sz) as [e|err r|c] eqn:Hi;
    try reflexivity.
  destruct (rendition E s0 c); [|reflexivity].
  apply lookup_insert_ne. intros Heq. eapply Hk; [apply list_elem_of_here | eauto | eauto].
Qed.

Lemma fold_rendition_dst (sizes : list imageSize.t) (acc : store) sz c :
  NoDup (map imageSize.name sizes) ->
  sz ∈ sizes -> iteratee event sz = Waterfall c ->
  fold_left (store_rendition E event s0) sizes acc !! dst c
  = match rendition E s0 c with
    | Some object => Some object
    | None => acc !! dst c
    end.
Proof.
  revert acc. induction sizes as [|x sizes IH]; intros acc Hnd Hin Hc.
  { now apply elem_of_nil in Hin. }
  simpl in Hnd. inversion Hnd as [|? ? Hx Hnd']; subst. clear Hnd. rename Hnd' into Hnd.
  assert (Hrest : forall sz' c', sz' ∈ sizes -> iteratee event sz' = Waterfall c' ->
            imageSize.name sz' <> imageSize.name x).
  { intros sz' c' Hin' _ Heq. apply Hx. rewrite <- Heq.
    apply list_elem_of_In, in_map, list_elem_of_In, Hin'. }
  simpl. apply elem_of_cons in Hin as [-> | Hin].
  - rewrite fold_rendition_other.
    + unfold store_rendition. rewrite Hc.
      destruct (rendition E s0 c); [apply lookup_insert_eq | reflexivity].
    + intros sz' c' Hin' Hc' Heq. apply (Hrest sz' c' Hin' Hc').
      symmetry. eapply dst_injective; eauto.
  - rewrite (IH _ Hnd Hin Hc). destruct (rendition E s0 c); [reflexivity|].
    unfold store_rendition. destruct (iteratee event x) as [e|err r|cx] eqn:Hix;
      try reflexivity.
    destruct (rendition E s0 cx); [|reflexivity].
    apply lookup_insert_ne. intros Heq. apply (Hrest sz c Hin Hc).
    symmetry. eapply dst_injective; eauto.
Qed.

Lemma renditions_dst sz c :
  sz ∈ IMAGE_SIZES -> iteratee event sz = Waterfall c ->
  renditions E event s0 !! dst c = stored E s0 c.
Proof.
  intros Hin Hc. unfold renditions, stored.
  apply (fold_rendition_dst IMAGE_SIZES s0 sz c names_NoDup Hin Hc).
Qed.

Lemma renditions_other k :
  (forall sz c, sz ∈ IMAGE_SIZES -> iteratee event sz = Waterfall c -> k <> dst c) ->
  renditions E event s0 !! k = s0 !! k.
Proof. apply fold_rendition_other. Qed.

(** A bucket that agrees with the renditions on every key is the renditions. *)
Lemma renditions_unique (s : store) :
  (forall sz c, sz ∈ IMAGE_SIZES -> iteratee event sz = Waterfall c ->
     s !! dst c = stored E s0 c) ->
  (forall k,
     (forall sz c, sz ∈ IMAGE_SIZES -> iteratee event sz = Waterfall c -> k <> dst c) ->
     s !! k = s0 !! k) ->
  s = renditions E event s0.
Proof.
  intros Hdst Hother. apply map_eq. intros k.
  destruct (dst_dec event IMAGE_SIZES k) as [(sz & c & Hin & Hc & ->)|Hnone].
  - rewrite (renditions_dst sz c Hin Hc). now apply Hdst with sz.
  - rewrite (renditions_other k Hnone). now apply Hother.
Qed.

End renditions_facts.

Section computed_states.

Variables (E : Env) (event : event.t) (s0 : store).

Lemma job_sem_closure s sz j c :
  closure_of j = Some c -> job_sem E event s0 s sz j ->
  iteratee event sz = Waterfall c /\ s !! dst c = s0 !! dst c.
Proof. destruct j; simpl; intros [= <-] H; tauto. Qed.

(** Writing an object does not disturb an iteration that writes another. *)
Lemma job_sem_put s sz j k object :
  (forall c, iteratee event sz = Waterfall c -> dst c <> k) ->
  job_sem E event s0 s sz j -> job_sem E event s0 (<[k := object]> s) sz j.
Proof.
  intros Hk. destruct j as [c|c response|c response g|c contentType data|err]; simpl.
  - intros (Hc & Hs). rewrite lookup_insert_ne by (apply not_eq_sym; auto). auto.
  - intros (Hc & Hs & H). rewrite lookup_insert_ne by (apply not_eq_sym; auto). auto.
  - intros (Hc & Hs & H). rewrite lookup_insert_ne by (apply not_eq_sym; auto). auto.
  - intros (Hc & Hs & H). rewrite lookup_insert_ne by (apply not_eq_sym; auto). auto.
  - intros H c Hc. rewrite lookup_insert_ne by (apply not_eq_sym; auto). auto.
Qed.

(** The object the iterations read is never overwritten. *)
Lemma computed_source st sz c :
  computed E event s0 st -> sz ∈ IMAGE_SIZES -> iteratee event sz = Waterfall c ->
  s3_getObject E (s3 st) (srcBucket c) (srcKey c)
  = s3_getObject E s0 (srcBucket c) (srcKey c).
Proof.
  intros Hcp Hin Hc. unfold s3_getObject.
  rewrite (cp_other _ _ _ _ Hcp (srcBucket c, srcKey c)); [reflexivity|].
  intros sz' c' _ Hc'. eapply source_not_dst; eauto.
Qed.

Lemma computed_update st st' i sz j' :
  computed E event s0 st ->
  IMAGE_SIZES !! i = Some sz ->
  s3 st' = s3 st -> uncaught st' = uncaught st ->
  jobs st' = <[i := j']> (jobs st) ->
  job_sem E event s0 (s3 st) sz j' ->
  computed E event s0 st'.
Proof.
  intros [Hlen Hjobs Hother Hunc] Hsz Hs3 Hu Hj Hsem. split.
  - now rewrite Hj, length_insert.
  - intros k sz' j Hsz' Hk. rewrite Hs3. rewrite Hj in Hk.
    destruct (decide (i = k)) as [->|Hne].
    + rewrite list_lookup_insert_eq in Hk
        by (rewrite Hlen; eapply lookup_lt_Some; eauto).
      injection Hk as <-. congruence.
    + rewrite list_lookup_insert_ne in Hk by exact Hne. eauto.
  - intros k Hk. rewrite Hs3. auto.
  - rewrite Hu. exact Hunc.
Qed.

Lemma computed_put st st' i sz c contentType data object :
  computed E event s0 st ->
  IMAGE_SIZES !! i = Some sz ->
  jobs st !! i = Some (upload c contentType data) ->
  s3 st' = <[dst c := object]> (s3 st) -> uncaught st' = uncaught st ->
  jobs st' = <[i := finished None]> (jobs st) ->
  rendition E s0 c = Some object ->
  computed E event s0 st'.
Proof.
  intros [Hlen Hjobs Hother Hunc] Hsz Hup Hs3 Hu Hj Hren.
  destruct (Hjobs i sz _ Hsz Hup) as (Hc & _).
  split.
  - now rewrite Hj, length_insert.
  - intros k sz' j Hsz' Hk. rewrite Hs3. rewrite Hj in Hk.
    destruct (decide (i = k)) as [->|Hne].
    + rewrite list_lookup_insert_eq in Hk
        by (rewrite Hlen; eapply lookup_lt_Some; eauto).
      injection Hk as <-. assert (sz' = sz) as -> by congruence.
      simpl. intros c' Hc'. assert (c' = c) as -> by congruence.
      rewrite lookup_insert_eq. unfold stored. now rewrite Hren.
    + rewrite list_lookup_insert_ne in Hk by exact Hne.
      apply job_sem_put; [|eauto].
      intros c' Hc'. eapply (dst_distinct event k i); eauto.
  - intros k Hk. rewrite Hs3, lookup_insert_ne; [auto|].
    apply not_eq_sym, (Hk sz c); [|exact Hc].
    eapply list_elem_of_lookup_2; eauto.
  - rewrite Hu. exact Hunc.
Qed.

Lemma computed_step st i :
  computed E event s0 st -> computed E event s0 (step E st i).
Proof.
  intros Hcp. unfold step.
  destruct (uncaught st) eqn:Hunc; [exact Hcp|].
  destruct (jobs st !! i) as [j|] eqn:Hj; [|exact Hcp].
  destruct (lookup_lt_is_Some_2 IMAGE_SIZES i) as [sz Hsz].
  { rewrite <- (cp_length _ _ _ _ Hcp). eapply lookup_lt_Some; eauto. }
  pose proof (cp_jobs _ _ _ _ Hcp i sz j Hsz Hj) as Hsem.
  assert (Hin : sz ∈ IMAGE_SIZES) by (eapply list_elem_of_lookup_2; eauto).
  assert (Hfail : forall c err st1,
            iteratee event sz = Waterfall c ->
            s3 st !! dst c = s0 !! dst c -> rendition E s0 c = None ->
            s3 st1 = s3 st -> uncaught st1 = uncaught st -> jobs st1 = jobs st ->
            computed E event s0
              (waterfall_callback (length IMAGE_SIZES) i c (Some err) st1)).
  { intros c err st1 Hc Hs Hren Hs1 Hu1 Hj1.
    destruct (waterfall_callback_frame (length IMAGE_SIZES) i c (Some err) st1)
      as (Hs3 & Hjobs & Hu & _).
    apply (computed_update st _ i sz (finished (Some err)) Hcp Hsz);
      try congruence.
    simpl. intros c' Hc'. assert (c' = c) as -> by congruence.
    unfold stored. now rewrite Hren. }
  destruct j as [c|c response|c response g|c contentType data|err]; [| | | |exact Hcp];
    simpl in Hsem.
  - destruct Hsem as (Hc & Hs).
    rewrite (computed_source st sz c Hcp Hin Hc).
    destruct (s3_getObject E s0 (srcBucket c) (srcKey c)) as [err|response] eqn:Hsrc.
    + apply Hfail; auto. unfold rendition. now rewrite Hsrc.
    + apply (computed_update st _ i sz (transform c response) Hcp Hsz);
        try reflexivity.
      simpl. auto.
  - destruct Hsem as (Hc & Hs & Hsrc).
    destruct (gm_size E (Body response)) as [size|] eqn:Hsize.
    + apply (computed_update st _ i sz
               (toBuffer c response (transform_geometry (imageSize c) size)) Hcp Hsz);
        try reflexivity.
      simpl. split_and!; eauto.
    + destruct Hcp as [Hlen Hjobs Hother _]. split; auto.
      intros _ sz' c' Hin' Hc'.
      destruct (same_source event sz' sz c' c Hc' Hc) as [Hb Hk].
      unfold rendition. now rewrite Hb, Hk, Hsrc, Hsize.
  - destruct Hsem as (Hc & Hs & Hsrc & size & Hsize & ->).
    destruct (gm_toBuffer E (Body response) _ (imageType c)) as [err|buffer] eqn:Hbuf.
    + apply Hfail; auto. unfold rendition. now rewrite Hsrc, Hsize, Hbuf.
    + apply (computed_update st _ i sz (upload c (ContentType response) buffer) Hcp Hsz);
        try reflexivity.
      simpl. split_and!; eauto 10.
  - destruct Hsem as (Hc & Hs & response & size & Hsrc & Hsize & Hbuf & ->).
    destruct (putObject_error E (dstBucket c) (dstKey c)) as [err|] eqn:Hput.
    + apply Hfail; auto. unfold rendition. now rewrite Hsrc, Hsize, Hbuf, Hput.
    + match goal with |- context [waterfall_callback ?t i c None ?s] =>
        destruct (waterfall_callback_frame t i c None s) as (Hs3 & Hjobs & Hu & _) end.
      apply (computed_put st _ i sz c (ContentType response) data
               {| Body := data; ContentType := ContentType response; ACL := AWS_ACL |}
               Hcp Hsz Hj); [exact Hs3 | exact Hu | exact Hjobs |].
      unfold rendition. now rewrite Hsrc, Hsize, Hbuf, Hput.
Qed.

Lemma computed_run schedule st :
  computed E event s0 st -> computed E event s0 (run E schedule st).
Proof.
  unfold run. revert st.
  induction schedule as [|i schedule IH]; simpl; intros st Hcp; [exact Hcp|].
  apply IH, computed_step, Hcp.
Qed.

Lemma computed_handler key :
  key_of event = Some key -> computed E event s0 (handler event s0).
Proof.
  intros Hkey.
  destruct (handler_spec event s0 key Hkey) as (Hu & Hj & Hs & _).
  split.
  - rewrite Hj. apply length_map.
  - intros i sz j Hsz Hi. rewrite Hj in Hi.
    change (map ?f ?l) with (f <$> l) in Hi.
    rewrite list_lookup_fmap, Hsz in Hi. simpl in Hi. injection Hi as <-.
    rewrite Hs. destruct (iteratee event sz) as [e|err r|c] eqn:Hit; simpl.
    + intros c Hc. congruence.
    + intros c Hc. congruence.
    + auto.
  - intros k _. now rewrite Hs.
  - intros Hne. congruence.
Qed.

End computed_states.

Section final_bucket.

Variables (E : Env) (event : event.t) (s0 : store).

Lemma terminal_store st :
  computed E event s0 st -> terminal st -> s3 st = renditions E event s0.
Proof.
  intros Hcp Hterm. apply renditions_unique; [|apply (cp_other _ _ _ _ Hcp)].
  intros sz c Hin Hc.
  apply list_elem_of_lookup in Hin as [i Hsz].
  destruct (lookup_lt_is_Some_2 (jobs st) i) as [j Hj].
  { rewrite (cp_length _ _ _ _ Hcp). eapply lookup_lt_Some; eauto. }
  pose proof (cp_jobs _ _ _ _ Hcp i sz j Hsz Hj) as Hsem.
  assert (Hpending : forall c', closure_of j = Some c' ->
            rendition E s0 c = None -> s3 st !! dst c = stored E s0 c).
  { intros c' Hcl Hren.
    destruct (job_sem_closure E event s0 _ sz j c' Hcl Hsem) as [Hc' Hs].
    assert (c' = c) as -> by congruence.
    unfold stored. now rewrite Hren. }
  destruct Hterm as [Hunc|Hall].
  - assert (Hren : rendition E s0 c = None).
    { apply (cp_uncaught _ _ _ _ Hcp Hunc sz c); [|exact Hc].
      eapply list_elem_of_lookup_2; eauto. }
    destruct j; simpl in Hsem; eauto.
  - rewrite Forall_forall in Hall.
    assert (Hfin : is_finished j = true).
    { apply Hall, list_elem_of_In. eapply list_elem_of_lookup_2; eauto. }
    destruct j; try discriminate. simpl in Hsem. auto.
Qed.

(** Whatever the schedule, a finished invocation leaves the renditions. *)
Lemma invoke_store schedule :
  terminal (invoke E event s0 schedule) ->
  s3 (invoke E event s0 schedule) = renditions E event s0.
Proof.
  intros Hterm. destruct (key_of event) as [key|] eqn:Hkey.
  - apply terminal_store; [|exact Hterm].
    apply computed_run, (computed_handler E event s0 key Hkey).
  - rewrite (invoke_undecodable E event s0 schedule Hkey). simpl.
    apply renditions_unique; [|reflexivity].
    intros sz c _ Hc. pose proof (iteratee_cases event sz) as H.
    rewrite Hc in H. destruct H as (Hk & _). congruence.
Qed.

(** The renditions of the renditions are the renditions. *)
Lemma renditions_idempotent :
  renditions E event (renditions E event s0) = renditions E event s0.
Proof.
  symmetry. apply renditions_unique; [|reflexivity].
  intros sz c Hin Hc. rewrite (renditions_dst E event s0 sz c Hin Hc).
  assert (Hsrc : s3_getObject E (renditions E event s0) (srcBucket c) (srcKey c)
                 = s3_getObject E s0 (srcBucket c) (srcKey c)).
  { unfold s3_getObject. rewrite renditions_other; [reflexivity|].
    intros sz' c' _ Hc'. eapply source_not_dst; eauto. }
  assert (Hsame : rendition E (renditions E event s0) c = rendition E s0 c).
  { unfold rendition. now rewrite Hsrc. }
  unfold stored. rewrite Hsame.
  destruct (rendition E s0 c) eqn:Hren; [reflexivity|].
  rewrite (renditions_dst E event s0 sz c Hin Hc). unfold stored. now rewrite Hren.
Qed.

(** A rendition that can be made is in the bucket in the end, whatever
    happens to the other iterations. *)
Lemma rendition_is_stored schedule sz c object :
  terminal (invoke E event s0 schedule) ->
  sz ∈ IMAGE_SIZES -> iteratee event sz = Waterfall c ->
  rendition E s0 c = Some object ->
  s3 (invoke E event s0 schedule) !! dst c = Some object.
Proof.
  intros Hterm Hin Hc Hren. rewrite (invoke_store schedule Hterm).
  rewrite (renditions_dst E event s0 sz c Hin Hc). unfold stored. now rewrite Hren.
Qed.

End final_bucket.

Section determinism_claims.

(** C8: an invocation that has run to its end leaves in the bucket the
    renditions computed from the source object and the sizes, whatever the
    order in which the requests complete. Two invocations on the same event
    and bucket leave the same bucket, and a second invocation on the bucket
    left by the first changes nothing: the same objects are stored under
    the same keys. *)
Theorem C8_deterministic_and_idempotent
    (E : Env) (event : event.t) (bucket : store)
    (schedule1 schedule2 schedule3 : list nat) :
  let st1 := invoke E event bucket schedule1 in
  let st2 := invoke E event bucket schedule2 in
  let st3 := invoke E event (s3 st1) schedule3 in
  terminal st1 -> terminal st2 -> terminal st3 ->
  s3 st1 = renditions E event bucket /\
  s3 st2 = s3 st1 /\
  s3 st3 = s3 st1.
Proof.
  intros st1 st2 st3 H1 H2 H3.
  pose proof (invoke_store E event bucket schedule1 H1) as E1.
  pose proof (invoke_store E event bucket schedule2 H2) as E2.
  pose proof (invoke_store E event (s3 st1) schedule3 H3) as E3.
  fold st1 in E1. fold st2 in E2. fold st3 in E3.
  split; [exact E1|]. split; [congruence|].
  rewrite E3, E1. apply renditions_idempotent.
Qed.

End determinism_claims.

Lemma C8_deterministic_and_idempotent_witness :
  let event := event.mk (js "bucket") (js "original/abc123/DarthVader.jpg") in
  let bucket : store :=
    {[ (js "bucket", js "original/abc123/DarthVader.jpg") := photo ]} in
  let st1 := invoke quiet event bucket round_robin in
  let st2 := invoke quiet event bucket (rev round_robin) in
  let st3 := invoke quiet event (s3 st1) round_robin in
  s3 st1 = renditions quiet event bucket /\
  s3 st2 = s3 st1 /\
  s3 st3 = s3 st1.
Proof.
  apply C8_deterministic_and_idempotent;
    right; vm_compute; repeat constructor.
Defined.

(** ** The bucket *)

Section bucket_claims.

Lemma index_split_0 sep (s : jsstring) :
  index (split sep s) 0 = Some (before_first sep s).
Proof.
  induction s as [|c r IH]; simpl; [reflexivity|].
  destruct (c =? sep); [reflexivity|].
  unfold index in IH. destruct (split sep r) as [|seg segs]; simpl in *; congruence.
Qed.

Lemma bucket_of_before_first (event : event.t) :
  bucket_of event = before_first char_slash (event.bucket_name event).
Proof. unfold bucket_of. cbv zeta. now rewrite index_split_0. Qed.

(** Every download asks for the decoded key, and every upload goes to the
    destination key of its size with the fixed access setting. *)
Lemma requests_name_the_resolved_keys
    (E : Env) (event : event.t) (bucket : store) (schedule : list nat)
    (key : jsstring) :
  key_of event = Some key ->
  forall o, o ∈ trace (invoke E event bucket schedule) ->
    match o with
    | s3_getObject_request _ _ Key => Key = key
    | s3_putObject_request i _ Key object =>
        exists sz, IMAGE_SIZES !! i = Some sz /\
          Key = destination_key sz key /\ ACL object = AWS_ACL
    | _ => True
    end.
Proof.
  intros Hkey o Ho.
  pose proof (invoke_well_formed E event bucket schedule key Hkey) as [_ Htrace].
  destruct (request_of o) as [i|] eqn:Hreq; [|destruct o; try exact I; discriminate].
  destruct (Htrace o i Ho Hreq) as (sz & c & Hsz & Hc & Hwf).
  pose proof (iteratee_cases event sz) as Hcases. rewrite Hc in Hcases.
  destruct Hcases as (Hk & _ & _ & _ & Hdk & _).
  assert (srcKey c = key) as Hsrc by congruence.
  destruct o; try exact I; simpl in Hwf, Hreq.
  - destruct Hwf as [_ ->]. exact Hsrc.
  - destruct Hwf as (_ & -> & Hacl). injection Hreq as ->.
    exists sz. rewrite Hdk, Hsrc. auto.
Qed.

Example bucket_with_path :
  bucket_of (event.mk (js "photos/incoming") (js "original/abc123/a.jpg"))
  = js "photos".
Proof. reflexivity. Qed.

End bucket_claims.

(** ** The result of an invocation *)

Section result_claims.

Local Open Scope nat_scope.

Lemma step_trace E st i : exists extra, trace (step E st i) = trace st ++ extra.
Proof.
  assert (Hnil : exists extra, trace st = trace st ++ extra)
    by (exists []; now rewrite app_nil_r).
  unfold step. destruct (uncaught st); [exact Hnil|].
  destruct (jobs st !! i) as [j|]; [|exact Hnil].
  destruct j as [c|c response|c response g|c contentType data|err]; [| | | |exact Hnil].
  - destruct (s3_getObject E (s3 st) (srcBucket c) (srcKey c)) as [err|response].
    + destruct (waterfall_callback_frame (length IMAGE_SIZES) i c (Some err) st)
        as (_ & _ & _ & extra & Ht & _). eauto.
    + simpl. eauto.
  - destruct (gm_size E (Body response)); simpl; eauto.
  - destruct (gm_toBuffer E (Body response) g (imageType c)) as [err|buffer].
    + destruct (waterfall_callback_frame (length IMAGE_SIZES) i c (Some err) st)
        as (_ & _ & _ & extra & Ht & _). eauto.
    + simpl. eauto.
  - destruct (putObject_error E (dstBucket c) (dstKey c)) as [err|].
    + destruct (waterfall_callback_frame (length IMAGE_SIZES) i c (Some err) st)
        as (_ & _ & _ & extra & Ht & _). eauto.
    + match goal with |- context [waterfall_callback ?t i c None ?s] =>
        destruct (waterfall_callback_frame t i c None s)
          as (_ & _ & _ & extra & Ht & _) end.
      simpl in Ht. eauto.
Qed.

(** What has been observed stays observed. *)
Lemma run_trace E schedule st o : o ∈ trace st -> o ∈ trace (run E schedule st).
Proof.
  unfold run. revert st.
  induction schedule as [|i schedule IH]; simpl; intros st Ho; [exact Ho|].
  apply IH. destruct (step_trace E st i) as [extra ->].
  apply elem_of_app. now left.
Qed.

Variables (E : Env) (event : event.t) (bucket : store) (schedule : list nat).

(** The handler's callback is called at most once, and never with an error. *)
Lemma callback_never_carries_error :
  let st := invoke E event bucket schedule in
  callbacks (trace st) = [] \/ callbacks (trace st) = [(None, all_done)].
Proof.
  destruct (aggregated_invoke E event bucket schedule) as (_ & _ & H).
  cbv zeta. destruct (settled _); [|tauto].
  destruct H as [[_ H]|[_ H]]; auto.
Qed.

(** When every iteration has succeeded, the invocation reports success. *)
Lemma success_is_reported :
  let st := invoke E event bucket schedule in
  length (jobs st) = length IMAGE_SIZES ->
  Forall (fun j => j = finished None) (jobs st) ->
  callbacks (trace st) = [(None, all_done)].
Proof.
  intros st Hlen Hall.
  destruct (aggregated_invoke E event bucket schedule) as (_ & _ & H). fold st in H.
  assert (Hs : successes (jobs st) = length (jobs st)).
  { clear -Hall. induction Hall as [|j l -> _ IH]; simpl; [reflexivity | now rewrite IH]. }
  destruct (settled st).
  - destruct H as [[(e & He & _) _]|[_ H]]; [|exact H].
    pose proof (failure_not_success _ _ He). lia.
  - destruct H as (_ & Hlt & _). lia.
Qed.

(** When an iteration has failed, the error has gone to the console and
    the handler's callback has not been called, and never will be. *)
Lemma failure_is_not_reported e :
  let st := invoke E event bucket schedule in
  finished (Some e) ∈ jobs st ->
  callbacks (trace st) = [] /\
  exists e', finished (Some e') ∈ jobs st /\
             console_error final_error_text e' ∈ trace st.
Proof.
  intros st He.
  destruct (aggregated_invoke E event bucket schedule) as (_ & Hlen & H).
  fold st in H, Hlen.
  destruct (settled st).
  - destruct H as [[Hex Hno]|[Hall _]]; [auto|].
    pose proof (failure_not_success _ _ He). lia.
  - destruct H as (Hnone & _). now apply Hnone in He.
Qed.

End result_claims.

Section result_at_failing_input.

(** C2 (the code departs from the claim): for the key
    [thumb/abc123/DarthVader.jpg] the [thumb] iteration fails with the
    identical-keys error. Whatever the collaborators answer and in whatever
    order, that error is written to the console and the handler's callback
    is never called: no error reaches the invoking environment. *)
Theorem C2_failure_is_only_logged (E : Env) (bucket : store) (schedule : list nat) :
  let st := invoke E own_rendition bucket schedule in
  jobs st !! 4%nat = Some (finished (Some same_error)) /\
  console_error final_error_text same_error ∈ trace st /\
  callbacks (trace st) = [].
Proof.
  intros st.
  destruct (returns_early E own_rendition bucket schedule thumb 4
              (Some same_error) None eq_refl eq_refl) as [Hjob _].
  fold st in Hjob. split; [exact Hjob|]. split.
  - apply run_trace. vm_compute.
    do 4 apply list_elem_of_further. apply list_elem_of_here.
  - apply (failure_is_not_reported E own_rendition bucket schedule same_error).
    eapply list_elem_of_lookup_2. exact Hjob.
Qed.

(** At the same input, with collaborators that never fail, the five other
    renditions are stored all the same. *)
Example other_renditions_are_stored :
  let bucket : store := {[ (js "bucket", js "thumb/abc123/DarthVader.jpg") := photo ]} in
  let st := invoke quiet own_rendition bucket round_robin in
  let rendition := {| Body := Body photo; ContentType := js "image/jpeg";
                      ACL := js "public-read" |} in
  Forall (fun j => is_finished j = true) (jobs st) /\
  callbacks (trace st) = [] /\
  Forall (fun name =>
            s3 st !! (js "bucket", name ++ js "/abc123/DarthVader.jpg") = Some rendition)
    [js "large"; js "large_square"; js "medium"; js "medium_square"; js "thumb_square"].
Proof.
  cbv zeta. split_and!.
  - vm_compute. repeat constructor.
  - vm_compute. reflexivity.
  - repeat constructor; vm_compute; reflexivity.
Qed.

End result_at_failing_input.

(** * Further properties *)

(** ** The resize box and the crop rectangle *)

Section more_geometry.

Local Open Scope Q_scope.

Lemma inject_Z_pos (z : Z) : (0 < z)%Z -> 0 < inject_Z z.
Proof. intros H. unfold Qlt, inject_Z. simpl. lia. Qed.

Lemma Math_min_cases (a b : number) :
  (a <= b /\ Math_min a b = a) \/ (b < a /\ Math_min a b = b).
Proof.
  unfold Math_min. destruct (Qle_bool a b) eqn:Hab.
  - left. split; [now apply Qle_bool_iff | reflexivity].
  - right. split; [|reflexivity]. apply Qnot_le_lt.
    rewrite <- Qle_bool_iff. congruence.
Qed.

Lemma Qdiv_cancel (m w : number) : 0 < w -> m / w * w == m.
Proof. intros Hw. field. intros H. rewrite H in Hw. now apply Qlt_irrefl in Hw. Qed.

Lemma scaling_fields (imageSize : imageSize.t) (size : size.t) :
  let g := transform_geometry imageSize size in
  scalingFactor g
    = Math_min (Number_divide (inject_Z (imageSize.width imageSize))
                              (inject_Z (size.width size)))
               (Number_divide (inject_Z (imageSize.height imageSize))
                              (inject_Z (size.height size))) /\
  width g = Number_multiply (scalingFactor g) (inject_Z (size.width size)) /\
  height g = Number_multiply (scalingFactor g) (inject_Z (size.height size)).
Proof.
  unfold transform_geometry.
  destruct (imageSize.crop imageSize);
    [destruct (size.width size >? size.height size)%Z|];
    cbn [scalingFactor width height]; auto.
Qed.

(** A quotient of two positive integers up to [2^53] lies in the normal
    range of binary64. *)
Lemma quotient_is_normal (m w : Z) :
  (0 < m)%Z -> (0 < w <= 2 ^ 53)%Z -> 2 ^ (-53) <= inject_Z m / inject_Z w.
Proof.
  intros Hm [Hw Hw'].
  apply Qle_shift_div_l; [now apply inject_Z_pos|].
  apply Qle_trans with (2 ^ (-53) * inject_Z (2 ^ 53)).
  - apply Qmult_le_l; [apply pow2_pos | now rewrite <- Zle_Qle].
  - apply Qle_trans with 1; [vm_compute; discriminate|].
    change 1 with (inject_Z 1). rewrite <- Zle_Qle. lia.
Qed.

Lemma Number_divide_bounds (m w : Z) :
  (0 < m)%Z -> (0 < w <= 2 ^ 53)%Z ->
  let q := inject_Z m / inject_Z w in
  q * (1 - 2 ^ (-53)) <= Number_divide (inject_Z m) (inject_Z w) /\
  Number_divide (inject_Z m) (inject_Z w) <= q * (1 + 2 ^ (-53)).
Proof.
  intros Hm Hw q. apply round64_relative_error.
  apply Qle_trans with (2 ^ (-53)); [vm_compute; discriminate|].
  now apply quotient_is_normal.
Qed.

Lemma Number_multiply_bounds (s d : number) :
  2 ^ (-54) <= s -> 1 <= d ->
  s * d * (1 - 2 ^ (-53)) <= Number_multiply s d /\
  Number_multiply s d <= s * d * (1 + 2 ^ (-53)).
Proof.
  intros Hs Hd. apply round64_relative_error.
  apply Qle_trans with (2 ^ (-54)); [vm_compute; discriminate|].
  apply Qle_trans with (s * 1); [rewrite Qmult_1_r; exact Hs|].
  apply Qmult_le_l; [|exact Hd].
  eapply Qlt_le_trans; [apply (pow2_pos (-54)) | exact Hs].
Qed.

Lemma box_upper (s M d : number) :
  1 <= d -> 2 ^ (-54) <= s -> s <= M / d * (1 + 2 ^ (-53)) ->
  Number_multiply s d <= M * (1 + 2 ^ (-53)) * (1 + 2 ^ (-53)).
Proof.
  intros Hd Hs Hle.
  destruct (Number_multiply_bounds s d Hs Hd) as [_ Hup].
  assert (Hd0 : 0 < d) by (eapply Qlt_le_trans; [|exact Hd]; reflexivity).
  eapply Qle_trans; [exact Hup|].
  apply Qmult_le_compat_r; [|vm_compute; discriminate].
  setoid_replace (M * (1 + 2 ^ (-53))) with (M / d * (1 + 2 ^ (-53)) * d)
    using relation Qeq.
  - apply Qmult_le_compat_r; [exact Hle | now apply Qlt_le_weak].
  - field. intros H0. rewrite H0 in Hd0. discriminate.
Qed.

Lemma box_lower (s M d : number) :
  1 <= d -> 2 ^ (-54) <= s -> M / d * (1 - 2 ^ (-53)) <= s ->
  M * (1 - 2 ^ (-53)) * (1 - 2 ^ (-53)) <= Number_multiply s d.
Proof.
  intros Hd Hs Hle.
  destruct (Number_multiply_bounds s d Hs Hd) as [Hlow _].
  assert (Hd0 : 0 < d) by (eapply Qlt_le_trans; [|exact Hd]; reflexivity).
  eapply Qle_trans; [|exact Hlow].
  apply Qmult_le_compat_r; [|vm_compute; discriminate].
  setoid_replace (M * (1 - 2 ^ (-53))) with (M / d * (1 - 2 ^ (-53)) * d)
    using relation Qeq.
  - apply Qmult_le_compat_r; [exact Hle | now apply Qlt_le_weak].
  - field. intros H0. rewrite H0 in Hd0. discriminate.
Qed.

Lemma inject_Z_ge_1 (z : Z) : (0 < z)%Z -> 1 <= inject_Z z.
Proof. intros H. change 1 with (inject_Z 1). rewrite <- Zle_Qle. lia. Qed.

(** Whether or not the size crops, the box handed to [resize] is the
    configured box up to the rounding of the quotient and of the product:
    neither side exceeds its maximum by more than the factor [(1 + 2^-53)^2],
    and one of the sides is within the factor [(1 - 2^-53)^2] of its maximum.
    The dimensions are integers that binary64 holds exactly. *)
Theorem resize_box_fits_up_to_rounding (imageSize : imageSize.t) (size : size.t) :
  (0 < size.width size <= 2 ^ 53)%Z -> (0 < size.height size <= 2 ^ 53)%Z ->
  (0 < imageSize.width imageSize <= 2 ^ 53)%Z ->
  (0 < imageSize.height imageSize <= 2 ^ 53)%Z ->
  let g := transform_geometry imageSize size in
  let maxWidth := inject_Z (imageSize.width imageSize) in
  let maxHeight := inject_Z (imageSize.height imageSize) in
  let u := 2 ^ (-53) in
  0 < scalingFactor g /\
  width g <= maxWidth * (1 + u) * (1 + u) /\
  height g <= maxHeight * (1 + u) * (1 + u) /\
  (maxWidth * (1 - u) * (1 - u) <= width g \/
   maxHeight * (1 - u) * (1 - u) <= height g).
Proof.
  intros Hw Hh [Hmw _] [Hmh _] g maxWidth maxHeight u.
  destruct (scaling_fields imageSize size) as (Hs & Hwd & Hht).
  fold g in Hs, Hwd, Hht. fold maxWidth maxHeight in Hs.
  destruct (Number_divide_bounds _ _ Hmw Hw) as [Hwl Hwu].
  destruct (Number_divide_bounds _ _ Hmh Hh) as [Hhl Hhu].
  cbv zeta in Hwl, Hwu, Hhl, Hhu. fold maxWidth in Hwl, Hwu. fold maxHeight in Hhl, Hhu.
  pose proof (quotient_is_normal _ _ Hmw Hw) as Hqw. fold maxWidth in Hqw.
  pose proof (quotient_is_normal _ _ Hmh Hh) as Hqh. fold maxHeight in Hqh.
  pose proof (inject_Z_ge_1 _ (proj1 Hw)) as Hw1.
  pose proof (inject_Z_ge_1 _ (proj1 Hh)) as Hh1.
  set (w := inject_Z (size.width size)) in *.
  set (h := inject_Z (size.height size)) in *.
  set (rw := Number_divide maxWidth w) in *.
  set (rh := Number_divide maxHeight h) in *.
  assert (Hnormal : forall q r, 2 ^ (-53) <= q -> q * (1 - 2 ^ (-53)) <= r -> 2 ^ (-54) <= r).
  { intros q r Hq Hr. eapply Qle_trans; [|exact Hr].
    apply Qle_trans with (2 ^ (-53) * (1 - 2 ^ (-53))); [vm_compute; discriminate|].
    apply Qmult_le_compat_r; [exact Hq | vm_compute; discriminate]. }
  pose proof (Hnormal _ _ Hqw Hwl) as Hrw.
  pose proof (Hnormal _ _ Hqh Hhl) as Hrh.
  rewrite Hwd, Hht.
  destruct (Math_min_cases rw rh) as [[Hle Hmin]|[Hlt Hmin]]; rewrite Hs, Hmin.
  - split_and!.
    + eapply Qlt_le_trans; [apply (pow2_pos (-54)) | exact Hrw].
    + now apply box_upper.
    + apply box_upper; [exact Hh1 | exact Hrw |]. eapply Qle_trans; eauto.
    + left. now apply box_lower.
  - apply Qlt_le_weak in Hlt. split_and!.
    + eapply Qlt_le_trans; [apply (pow2_pos (-54)) | exact Hrh].
    + apply box_upper; [exact Hw1 | exact Hrh |]. eapply Qle_trans; eauto.
    + now apply box_upper.
    + right. now apply box_lower.
Qed.

Lemma resize_box_fits_up_to_rounding_witness :
  let g := transform_geometry large (size.mk 1050 700) in
  let u := 2 ^ (-53) in
  0 < scalingFactor g /\
  width g <= 640 * (1 + u) * (1 + u) /\
  height g <= 640 * (1 + u) * (1 + u) /\
  (640 * (1 - u) * (1 - u) <= width g \/ 640 * (1 - u) * (1 - u) <= height g).
Proof.
  apply (resize_box_fits_up_to_rounding large (size.mk 1050 700));
    split; first [reflexivity | discriminate].
Defined.

(** The slack is needed: for a 1050x700 source the width handed to [resize]
    is [640 + 2^-43], above the configured 640, and for a 1077x700 source it
    is [640 - 2^-43], although the width is the side that binds. *)
Example resize_box_exceeded :
  width (transform_geometry large (size.mk 1050 700)) == 640 + 2 ^ (-43) /\
  width (transform_geometry large (size.mk 1077 700)) == 640 - 2 ^ (-43).
Proof. split; vm_compute; reflexivity. Qed.

Lemma Number_divide_vs_1 (m d : Z) :
  (0 < d)%Z -> (m <= 2 ^ 53)%Z ->
  (1 < Number_divide (inject_Z m) (inject_Z d) <-> (d < m)%Z) /\
  (Number_divide (inject_Z m) (inject_Z d) < 1 <-> (m < d)%Z).
Proof.
  intros Hd Hm. pose proof (inject_Z_pos d Hd) as Hd0. unfold Number_divide.
  assert (Hle : (m <= d)%Z -> inject_Z m / inject_Z d <= 1).
  { intros H. apply Qle_shift_div_r; [exact Hd0|].
    rewrite Qmult_1_l. now rewrite <- Zle_Qle. }
  assert (Hge : (d <= m)%Z -> 1 <= inject_Z m / inject_Z d).
  { intros H. apply Qle_shift_div_l; [exact Hd0|].
    rewrite Qmult_1_l. now rewrite <- Zle_Qle. }
  split; split.
  - intros H. destruct (Z.lt_ge_cases d m) as [Hlt|Hge']; [exact Hlt|].
    apply Hle, round64_le_1 in Hge'. now apply Qlt_not_le in H.
  - intros H. apply round64_gt_1.
    apply Qlt_shift_div_l; [exact Hd0|].
    change (2 ^ (-53)) with (1 # 9007199254740992).
    unfold Qlt, Qmult, Qplus, inject_Z. cbn [Qnum Qden]. lia.
  - intros H. destruct (Z.lt_ge_cases m d) as [Hlt|Hge']; [exact Hlt|].
    apply Hge, round64_ge_1 in Hge'. now apply Qlt_not_le in H.
  - intros H. apply round64_lt_1.
    apply Qlt_shift_div_r; [exact Hd0|].
    change (2 ^ (-54)) with (1 # 18014398509481984).
    unfold Qlt, Qmult, Qminus, Qplus, Qopp, inject_Z. cbn [Qnum Qden]. lia.
Qed.

(** The scaling factor is not capped at 1: a source strictly inside the
    configured box is enlarged, and a source is reduced exactly when it
    exceeds the box in some dimension. The sides of the box are integers
    that binary64 holds exactly; rounding the quotients does not change how
    they compare with 1. *)
Theorem small_sources_are_enlarged (imageSize : imageSize.t) (size : size.t) :
  (0 < size.width size)%Z -> (0 < size.height size)%Z ->
  (imageSize.width imageSize <= 2 ^ 53)%Z -> (imageSize.height imageSize <= 2 ^ 53)%Z ->
  let g := transform_geometry imageSize size in
  (1 < scalingFactor g <->
   (size.width size < imageSize.width imageSize)%Z /\
   (size.height size < imageSize.height imageSize)%Z) /\
  (scalingFactor g < 1 <->
   (imageSize.width imageSize < size.width size)%Z \/
   (imageSize.height imageSize < size.height size)%Z).
Proof.
  intros Hw Hh Hmw Hmh g.
  destruct (scaling_fields imageSize size) as (Hs & _). fold g in Hs.
  destruct (Number_divide_vs_1 (imageSize.width imageSize) _ Hw Hmw) as [Hw1 Hw2].
  destruct (Number_divide_vs_1 (imageSize.height imageSize) _ Hh Hmh) as [Hh1 Hh2].
  rewrite Hs.
  destruct (Math_min_cases
              (Number_divide (inject_Z (imageSize.width imageSize))
                             (inject_Z (size.width size)))
              (Number_divide (inject_Z (imageSize.height imageSize))
                             (inject_Z (size.height size))))
    as [[Hle ->]|[Hlt ->]].
  - split.
    + rewrite Hw1. split; [|tauto]. intros Hlt. split; [exact Hlt|].
      apply Hh1. apply Qlt_le_trans with (2 := Hle). now apply Hw1.
    + rewrite Hw2. split; [tauto|]. intros [H|H]; [exact H|].
      apply Hw2. apply Qle_lt_trans with (1 := Hle). now apply Hh2.
  - split.
    + rewrite Hh1. split; [|tauto]. intros H. split; [|exact H].
      apply Hw1. apply Qlt_trans with (2 := Hlt). now apply Hh1.
    + rewrite Hh2. split; [tauto|]. intros [H|H]; [|exact H].
      apply Hh2. apply Qlt_trans with (1 := Hlt). now apply Hw2.
Qed.

Lemma small_sources_are_enlarged_witness :
  let g := transform_geometry large_square (size.mk 320 200) in
  (1 < scalingFactor g <-> (320 < 640)%Z /\ (200 < 640)%Z) /\
  (scalingFactor g < 1 <-> (640 < 320)%Z \/ (640 < 200)%Z).
Proof.
  apply (small_sources_are_enlarged large_square (size.mk 320 200));
    first [reflexivity | discriminate].
Defined.

(** Beyond [2^53] the comparison is lost: the quotient of [2^53 + 1] by
    [2^53] rounds to 1. *)
Example large_quotient_rounds_to_1 :
  Number_divide (inject_Z (2 ^ 53 + 1)) (inject_Z (2 ^ 53)) == 1.
Proof. vm_compute. reflexivity. Qed.

(** The rectangle handed to [crop] lies inside the source image, whether or
    not the size crops, and is not empty. *)
Theorem crop_rectangle_inside_source (imageSize : imageSize.t) (size : size.t) :
  (0 < size.width size)%Z -> (0 < size.height size)%Z ->
  let g := transform_geometry imageSize size in
  0 <= xCrop g /\ 0 <= yCrop g /\
  0 < cropWidth g /\ 0 < cropHeight g /\
  xCrop g + cropWidth g <= inject_Z (size.width size) /\
  yCrop g + cropHeight g <= inject_Z (size.height size).
Proof.
  intros Hw Hh. unfold transform_geometry.
  destruct (imageSize.crop imageSize);
    [destruct (Z.gtb_spec (size.width size) (size.height size)) as [Hgt|Hle]|];
    simpl; unfold Qle, Qlt, Qdiv, Qmult, Qinv, Qplus, Qminus, Qopp, inject_Z; simpl;
    split_and!; lia.
Qed.

Lemma crop_rectangle_inside_source_witness :
  let g := transform_geometry large_square (size.mk 1921 1080) in
  0 <= xCrop g /\ 0 <= yCrop g /\ 0 < cropWidth g /\ 0 < cropHeight g /\
  xCrop g + cropWidth g <= 1921 /\ yCrop g + cropHeight g <= 1080.
Proof.
  apply (crop_rectangle_inside_source large_square (size.mk 1921 1080)); reflexivity.
Defined.

Lemma half_exact (z : Z) :
  (Z.abs z < 2 ^ 53)%Z -> round64 (inject_Z z / 2) == inject_Z z / 2.
Proof.
  intros H. pose proof (round64_exact z (-1) H ltac:(lia)) as He.
  assert (Hx : inject_Z z * 2 ^ (-1) == inject_Z z / 2) by reflexivity.
  now rewrite Hx in He.
Qed.

Lemma Number_subtract_exact (a b : Z) :
  (Z.abs (a - b) < 2 ^ 53)%Z ->
  Number_subtract (inject_Z a) (inject_Z b) == inject_Z a - inject_Z b.
Proof.
  intros H. unfold Number_subtract. rewrite inject_Z_sub. now apply round64_Z.
Qed.

Lemma half_difference_exact (a b : Z) :
  (Z.abs (a - b) < 2 ^ 53)%Z ->
  Number_divide (Number_subtract (inject_Z a) (inject_Z b)) 2
  == (inject_Z a - inject_Z b) / 2.
Proof.
  intros H. unfold Number_divide.
  rewrite (Number_subtract_exact a b H), inject_Z_sub. now apply half_exact.
Qed.

(** Every number [transform] hands to [gm] is a binary64 value: rounding it
    changes nothing. The scaling factor and the arguments of [resize] are
    results of rounded operations. The arguments of [crop] are binary64
    values because, for pixel counts below [2^53], the differences and
    halves of lines 124 and 137 are exact: the offsets are the ones the
    rounded subtraction and division give. *)
Theorem geometry_is_binary64 (imageSize : imageSize.t) (size : size.t) :
  (0 < size.width size < 2 ^ 53)%Z -> (0 < size.height size < 2 ^ 53)%Z ->
  let g := transform_geometry imageSize size in
  let w := inject_Z (size.width size) in
  let h := inject_Z (size.height size) in
  round64 (cropWidth g) == cropWidth g /\
  round64 (cropHeight g) == cropHeight g /\
  round64 (xCrop g) == xCrop g /\
  round64 (yCrop g) == yCrop g /\
  round64 (scalingFactor g) == scalingFactor g /\
  round64 (width g) == width g /\
  round64 (height g) == height g /\
  (imageSize.crop imageSize = true ->
   (size.height size < size.width size)%Z ->
   xCrop g == Number_divide (Number_subtract w h) 2) /\
  (imageSize.crop imageSize = true ->
   (size.width size <= size.height size)%Z ->
   yCrop g == Number_divide (Number_subtract h w) 2).
Proof.
  intros Hw Hh g w h.
  destruct (scaling_fields imageSize size) as (Hs & Hwd & Hht).
  fold g in Hs, Hwd, Hht.
  assert (Hscaling : round64 (scalingFactor g) == scalingFactor g /\
                     round64 (width g) == width g /\
                     round64 (height g) == height g).
  { rewrite Hwd, Hht. split_and!.
    - rewrite Hs.
      destruct (Math_min_cases
                  (Number_divide (inject_Z (imageSize.width imageSize))
                                 (inject_Z (size.width size)))
                  (Number_divide (inject_Z (imageSize.height imageSize))
                                 (inject_Z (size.height size))))
        as [[_ ->]|[_ ->]]; apply round64_idempotent.
    - apply round64_idempotent.
    - apply round64_idempotent. }
  destruct Hscaling as (Hs1 & Hs2 & Hs3).
  assert (Hz : forall z, (0 < z < 2 ^ 53)%Z -> round64 (inject_Z z) == inject_Z z)
    by (intros z Hz; apply round64_Z; lia).
  assert (Hd : forall a b, (0 < a < 2 ^ 53)%Z -> (0 < b < 2 ^ 53)%Z ->
            round64 ((inject_Z a - inject_Z b) / 2) == (inject_Z a - inject_Z b) / 2
            /\ (inject_Z a - inject_Z b) / 2
               == Number_divide (Number_subtract (inject_Z a) (inject_Z b)) 2).
  { intros a b Ha Hb. split.
    - rewrite inject_Z_sub. apply half_exact. lia.
    - symmetry. apply half_difference_exact. lia. }
  assert (Hcrop :
    round64 (cropWidth g) == cropWidth g /\
    round64 (cropHeight g) == cropHeight g /\
    round64 (xCrop g) == xCrop g /\
    round64 (yCrop g) == yCrop g /\
    (imageSize.crop imageSize = true ->
     (size.height size < size.width size)%Z ->
     xCrop g == Number_divide (Number_subtract w h) 2) /\
    (imageSize.crop imageSize = true ->
     (size.width size <= size.height size)%Z ->
     yCrop g == Number_divide (Number_subtract h w) 2)).
  { unfold g, w, h, transform_geometry.
    destruct (imageSize.crop imageSize);
      [destruct (Z.gtb_spec (size.width size) (size.height size)) as [Hgt|Hle]|];
      cbn [cropWidth cropHeight xCrop yCrop].
    - destruct (Hd _ _ Hw Hh) as [H1 H2].
      split_and!; auto; try reflexivity. intros _ ?. lia.
    - destruct (Hd _ _ Hh Hw) as [H1 H2].
      split_and!; auto; try reflexivity. intros _ ?. lia.
    - split_and!; auto; try reflexivity; discriminate. }
  destruct Hcrop as (H1 & H2 & H3 & H4 & H5 & H6).
  split_and!; assumption.
Qed.

Lemma geometry_is_binary64_witness :
  let g := transform_geometry large_square (size.mk 1921 1080) in
  round64 (xCrop g) == xCrop g /\
  round64 (scalingFactor g) == scalingFactor g /\
  round64 (width g) == width g /\
  xCrop g == Number_divide (Number_subtract 1921 1080) 2.
Proof.
  destruct (geometry_is_binary64 large_square (size.mk 1921 1080))
    as (_ & _ & Hx & _ & Hs & Hw & _ & Hland & _);
    [split; reflexivity | split; reflexivity |].
  split; [exact Hx|]. split; [exact Hs|]. split; [exact Hw|].
  apply Hland; reflexivity.
Defined.

End more_geometry.

(** ** Keys: the guard, the type filter, the decoding *)

Section more_keys.

Lemma split_app sep (s t : jsstring) :
  split sep (s ++ sep :: t) = split sep s ++ split sep t.
Proof.
  induction s as [|c r IH]; simpl.
  - now rewrite N.eqb_refl.
  - destruct (c =? sep); [now rewrite IH|].
    rewrite IH. pose proof (split_nonempty sep r) as Hne.
    destruct (split sep r) as [|seg segs]; [congruence | reflexivity].
Qed.

(** The key of a rendition: a prefix, and two segments without a slash. *)
Lemma split_rendition_key (p a b : jsstring) :
  char_slash ∉ a -> char_slash ∉ b ->
  split char_slash (p ++ js "/" ++ a ++ js "/" ++ b)
  = split char_slash p ++ [a; b].
Proof.
  intros Ha Hb. rewrite !js_slash_cons, !split_app.
  now rewrite (split_without_separator _ _ Ha), (split_without_separator _ _ Hb).
Qed.

(** The guard of lines 76-79 fires exactly for the keys of this size's own
    renditions: the size name followed by two segments without a slash. *)
Theorem identical_keys_guard (event : event.t) (sz : imageSize.t) (key : jsstring) :
  (destination_key sz key = key <->
   exists a b, (char_slash ∉ a) /\ (char_slash ∉ b) /\
     key = imageSize.name sz ++ js "/" ++ a ++ js "/" ++ b) /\
  (key_of event = Some key ->
   (iteratee event sz = Returns (Some same_error) None <->
    destination_key sz key = key)).
Proof.
  split.
  - split.
    + intros Heq.
      destruct (le_lt_dec 2 (length (split char_slash key))) as [Hlen|Hlen].
      * destruct (last_two _ Hlen) as (others & a & b & Hsplit).
        pose proof (split_segments char_slash key) as Hseg.
        rewrite Hsplit in Hseg. apply Forall_app in Hseg as [_ Hseg].
        inversion Hseg as [|? ? Ha Hseg']; subst.
        inversion Hseg' as [|? ? Hb _]; subst.
        exists a, b. split; [exact Ha|]. split; [exact Hb|].
        rewrite <- Heq at 1. unfold destination_key. rewrite Hsplit.
        destruct (index_rev_last_two others a b) as [-> ->]. reflexivity.
      * now destruct (destination_key_short sz key Hlen) as [_ Hne].
    + intros (a & b & Ha & Hb & ->). unfold destination_key.
      rewrite (split_rendition_key _ a b Ha Hb).
      destruct (index_rev_last_two (split char_slash (imageSize.name sz)) a b)
        as [-> ->]. reflexivity.
  - intros Hkey. unfold iteratee. rewrite Hkey.
    destruct (bool_decide_reflect (destination_key sz key = key)) as [Heq|Hne].
    + tauto.
    + split; [|contradiction]. intros H. exfalso.
      destruct (match_extension key) as [t|]; [|discriminate].
      destruct (neq t (js "jpg") && neq t (js "jpeg") && neq t (js "png"));
        discriminate.
Qed.

Lemma match_extension_inv (s t : jsstring) :
  match_extension s = Some t ->
  exists stem, s = stem ++ char_dot :: t /\ char_dot ∉ t.
Proof.
  induction s as [|c r IH]; simpl; [discriminate|].
  destruct (N.eqb_spec c char_dot) as [->|Hne]; simpl.
  - destruct (forallb (fun d => negb (d =? char_dot)) r) eqn:Hall.
    + intros [= <-]. exists []. split; [reflexivity|].
      intros Hin. apply list_elem_of_In in Hin.
      rewrite forallb_forall in Hall. specialize (Hall _ Hin).
      now rewrite N.eqb_refl in Hall.
    + intros H. destruct (IH H) as (stem & -> & Ht).
      exists (char_dot :: stem). auto.
  - intros H. destruct (IH H) as (stem & -> & Ht). exists (c :: stem). auto.
Qed.

(** An iteration enters the waterfall, with the closure [c], exactly when
    the key decodes, is not this size's own rendition, and ends in a dot
    followed by exactly [jpg], [jpeg] or [png]; the comparison is exact, so
    an upper-case suffix does not qualify. *)
Theorem waterfall_exactly_for_images
    (event : event.t) (sz : imageSize.t) (c : closure) :
  iteratee event sz = Waterfall c <->
  (imageSize c = sz /\
   srcBucket c = bucket_of event /\ dstBucket c = bucket_of event /\
   key_of event = Some (srcKey c) /\
   dstKey c = destination_key sz (srcKey c) /\ dstKey c <> srcKey c /\
   (exists stem, srcKey c = stem ++ js "." ++ imageType c) /\
   (imageType c = js "jpg" \/ imageType c = js "jpeg" \/ imageType c = js "png")).
Proof.
  split.
  - intros Hc. pose proof (iteratee_cases event sz) as H. rewrite Hc in H.
    destruct H as (Hk & Hsz & Hsb & Hdb & Hdk & Hne & Hext & Htype).
    split_and!; auto.
    destruct (match_extension_inv _ _ Hext) as (stem & Hs & _). eauto.
  - intros (Hsz & Hsb & Hdb & Hk & Hdk & Hne & (stem & Hs) & Htype).
    assert (Hdot : char_dot ∉ imageType c).
    { destruct Htype as [-> | [-> | ->]]; vm_compute; intros H;
        repeat (apply elem_of_cons in H as [H|H]; [discriminate|]);
        now apply elem_of_nil in H. }
    assert (Hext : match_extension (srcKey c) = Some (imageType c)).
    { rewrite Hs. now apply match_extension_suffix. }
    unfold iteratee. rewrite Hk, <- Hdk.
    rewrite bool_decide_eq_false_2 by exact Hne. rewrite Hext.
    assert (Hsel : neq (imageType c) (js "jpg") && neq (imageType c) (js "jpeg")
                   && neq (imageType c) (js "png") = false).
    { destruct Htype as [-> | [-> | ->]]; reflexivity. }
    rewrite Hsel. destruct c; simpl in *; subst. reflexivity.
Qed.

(** An upper-case suffix is skipped, not resized. *)
Example upper_case_suffix_is_skipped :
  iteratee (event.mk (js "bucket") (js "original/abc123/PHOTO.JPG")) thumb
  = Returns None (Some (skip_message (js "JPG"))).
Proof. reflexivity. Qed.

Lemma Decode_without_escape (s : jsstring) :
  char_percent ∉ s -> Decode NoOctets s = Some s.
Proof.
  induction s as [|c r IH]; intros Hnot; simpl; [reflexivity|].
  apply not_elem_of_cons in Hnot as [Hne Hr].
  destruct (N.eqb_spec c char_percent) as [->|_]; [congruence|].
  now rewrite (IH Hr).
Qed.

Lemma replace_plus_elem (s : jsstring) (x : N) :
  x <> char_space -> x ∈ replace_plus s -> x ∈ s /\ x <> char_plus.
Proof.
  intros Hx. unfold replace_plus. induction s as [|c r IH]; simpl; intros Hin.
  - now apply elem_of_nil in Hin.
  - apply elem_of_cons in Hin as [Heq|Hin].
    + destruct (N.eqb_spec c char_plus) as [->|Hne]; [congruence|].
      subst. split; [apply list_elem_of_here | exact Hne].
    + destruct (IH Hin) as [Hr Hp]. split; [now apply list_elem_of_further | exact Hp].
Qed.

Lemma replace_plus_id (s : jsstring) : char_plus ∉ s -> replace_plus s = s.
Proof.
  unfold replace_plus. induction s as [|c r IH]; simpl; intros Hnot; [reflexivity|].
  apply not_elem_of_cons in Hnot as [Hne Hr].
  destruct (N.eqb_spec c char_plus) as [->|_]; [congruence|].
  now rewrite IH.
Qed.

(** A key without percent escapes is only changed by turning each [+] into
    a space: the decoded key holds no [+], and a key with neither [%] nor
    [+] is taken as it is. *)
Theorem key_without_escapes (event : event.t) :
  char_percent ∉ event.object_key event ->
  key_of event = Some (replace_plus (event.object_key event)) /\
  (char_plus ∉ replace_plus (event.object_key event)) /\
  length (replace_plus (event.object_key event)) = length (event.object_key event) /\
  (char_plus ∉ event.object_key event -> key_of event = Some (event.object_key event)).
Proof.
  intros Hnot.
  assert (Hk : key_of event = Some (replace_plus (event.object_key event))).
  { unfold key_of, decodeURIComponent. apply Decode_without_escape.
    intros Hin. apply replace_plus_elem in Hin as [Hin _]; [auto | discriminate]. }
  split_and!.
  - exact Hk.
  - intros Hin. apply replace_plus_elem in Hin as [_ Hne]; [congruence | discriminate].
  - unfold replace_plus. apply length_map.
  - intros Hplus. now rewrite Hk, replace_plus_id.
Qed.

Lemma key_without_escapes_witness :
  let event := event.mk (js "bucket") (js "original/abc123/My+Photo.jpg") in
  key_of event = Some (js "original/abc123/My Photo.jpg") /\
  (char_plus ∉ js "original/abc123/My Photo.jpg") /\
  length (js "original/abc123/My Photo.jpg") = length (js "original/abc123/My+Photo.jpg").
Proof.
  destruct (key_without_escapes
              (event.mk (js "bucket") (js "original/abc123/My+Photo.jpg")))
    as (Hk & Hp & Hl & _).
  - vm_compute. intros H.
    repeat (apply elem_of_cons in H as [H|H]; [discriminate|]).
    now apply elem_of_nil in H.
  - cbv zeta. split; [exact Hk|]. split; [exact Hp | exact Hl].
Defined.

(** An escape cut short at the end of the key cannot be decoded. *)
Lemma Decode_trailing_percent (s : jsstring) (p : pending) :
  Decode p (s ++ [char_percent]) = None.
Proof.
  remember (length s) as n eqn:Hn. revert s p Hn.
  induction n as [n IH] using lt_wf_ind. intros s p Hn.
  destruct s as [|c r]; [destruct p; reflexivity|].
  simpl. destruct (c =? char_percent).
  - destruct r as [|h [|l r']]; simpl.
    + reflexivity.
    + destruct (hex_digit h); [|reflexivity]. simpl. reflexivity.
    + assert (Hrec : forall q, Decode q (r' ++ [char_percent]) = None).
      { intros q. apply (IH (length r')); [subst; simpl; lia | reflexivity]. }
      destruct (hex_digit h); [|reflexivity]. destruct (hex_digit l); [|reflexivity].
      destruct p as [|missing bits least].
      * destruct (_ <? 128); [now rewrite Hrec|].
        destruct (lead_octet _); [apply Hrec | reflexivity].
      * destruct (N.land _ 192 =? 128); [|reflexivity].
        destruct missing as [|[|m]]; try apply Hrec;
          (destruct (valid_code_point _ _); [now rewrite Hrec | reflexivity]).
  - assert (Hrec : Decode NoOctets (r ++ [char_percent]) = None).
    { apply (IH (length r)); [subst; simpl; lia | reflexivity]. }
    destruct p; [now rewrite Hrec | reflexivity].
Qed.

(** A key that cannot be percent-decoded, such as one ending in [%], makes
    the first iteration throw: no request is sent, nothing is written to the
    console, the callback is not called and the bucket is left as it was,
    whatever the collaborators and the schedule. *)
Theorem undecodable_key_aborts
    (E : Env) (event : event.t) (bucket : store) (schedule : list nat) :
  key_of event = None ->
  let st := invoke E event bucket schedule in
  uncaught st = Some URIError /\ jobs st = [] /\ trace st = [] /\
  s3 st = bucket /\ terminal st.
Proof.
  intros Hkey st. unfold st.
  rewrite (invoke_undecodable E event bucket schedule Hkey). simpl.
  split_and!; auto. left. discriminate.
Qed.

Lemma undecodable_key_aborts_witness :
  let event := event.mk (js "bucket") (js "original/abc123/100%") in
  let st := invoke quiet event ∅ round_robin in
  uncaught st = Some URIError /\ jobs st = [] /\ trace st = [] /\
  s3 st = ∅ /\ terminal st.
Proof.
  apply (undecodable_key_aborts quiet
           (event.mk (js "bucket") (js "original/abc123/100%")) ∅ round_robin).
  exact (Decode_trailing_percent (js "original/abc123/100") NoOctets).
Defined.

End more_keys.

(** Two different sizes never resolve a key to the same destination: the
    renditions of one source object do not overwrite each other. *)
Theorem destinations_are_distinct (sz sz' : imageSize.t) (key : jsstring) :
  sz ∈ IMAGE_SIZES -> sz' ∈ IMAGE_SIZES -> sz <> sz' ->
  destination_key sz key <> destination_key sz' key.
Proof.
  intros Hin Hin' Hne Heq. unfold destination_key in Heq.
  apply app_inv_tail in Heq. apply Hne. clear Hne. revert Heq.
  repeat (apply elem_of_cons in Hin as [-> | Hin]);
    try (now apply elem_of_nil in Hin);
    repeat (apply elem_of_cons in Hin' as [-> | Hin']);
    try (now apply elem_of_nil in Hin');
    intros Heq; try reflexivity; vm_compute in Heq; discriminate.
Qed.

Lemma destinations_are_distinct_witness :
  destination_key thumb (js "original/abc123/DarthVader.jpg")
  <> destination_key large_square (js "original/abc123/DarthVader.jpg").
Proof.
  apply destinations_are_distinct.
  - do 4 apply list_elem_of_further. apply list_elem_of_here.
  - apply list_elem_of_further. apply list_elem_of_here.
  - discriminate.
Defined.

(** ** Invocations: how the iterations end *)

Section run_invariants.

Variable E : Env.

Lemma run_invariant (P : state -> Prop) :
  (forall st i, P st -> P (step E st i)) ->
  forall schedule st, P st -> P (run E schedule st).
Proof.
  intros Hstep schedule. unfold run.
  induction schedule as [|i schedule IH]; simpl; intros st HP; [exact HP|].
  apply IH, Hstep, HP.
Qed.

(** Once every iteration has called back, completions change nothing. *)
Lemma run_all_finished schedule st :
  Forall (fun j => is_finished j = true) (jobs st) -> run E schedule st = st.
Proof.
  intros Hall. unfold run.
  induction schedule as [|i schedule IH]; simpl; [reflexivity|].
  assert (Hstep : step E st i = st).
  { unfold step. destruct (uncaught st); [reflexivity|].
    destruct (jobs st !! i) as [j|] eqn:Hj; [|reflexivity].
    rewrite Forall_forall in Hall.
    assert (Hf : is_finished j = true).
    { apply Hall, list_elem_of_In. eapply list_elem_of_lookup_2; eauto. }
    destruct j; try discriminate. reflexivity. }
  now rewrite Hstep.
Qed.

(** The only exception a completion raises is the [TypeError] of line 108. *)
Lemma step_uncaught st i :
  uncaught (step E st i) = uncaught st \/ uncaught (step E st i) = Some TypeError.
Proof.
  unfold step. destruct (uncaught st) eqn:Hu; [left; exact Hu|].
  destruct (jobs st !! i) as [j|]; [|left; exact Hu].
  destruct j as [c|c response|c response g|c contentType data|err]; [| | | |left; exact Hu].
  - destruct (s3_getObject E (s3 st) (srcBucket c) (srcKey c)) as [err|response].
    + destruct (waterfall_callback_frame (length IMAGE_SIZES) i c (Some err) st)
        as (_ & _ & -> & _). left; exact Hu.
    + left; exact Hu.
  - destruct (gm_size E (Body response)); [left; exact Hu | right; reflexivity].
  - destruct (gm_toBuffer E (Body response) g (imageType c)) as [err|buffer].
    + destruct (waterfall_callback_frame (length IMAGE_SIZES) i c (Some err) st)
        as (_ & _ & -> & _). left; exact Hu.
    + left; exact Hu.
  - destruct (putObject_error E (dstBucket c) (dstKey c)) as [err|].
    + destruct (waterfall_callback_frame (length IMAGE_SIZES) i c (Some err) st)
        as (_ & _ & -> & _). left; exact Hu.
    + match goal with |- context [waterfall_callback ?t i c None ?s] =>
        destruct (waterfall_callback_frame t i c None s) as (_ & _ & -> & _) end.
      left; exact Hu.
Qed.

End run_invariants.

Section outcomes_of_iterations.

Variables (E : Env) (event : event.t) (s0 : store).

Lemma rendition_outcome c object :
  rendition E s0 c = Some object <-> waterfall_outcome E s0 c = Stored object.
Proof.
  unfold rendition, waterfall_outcome.
  destruct (s3_getObject E s0 (srcBucket c) (srcKey c)) as [err|response];
    [split; discriminate|].
  destruct (gm_size E (Body response)) as [size|]; [|split; discriminate].
  cbv zeta.
  destruct (gm_toBuffer E (Body response) _ (imageType c)) as [err|buffer];
    [split; discriminate|].
  destruct (putObject_error E (dstBucket c) (dstKey c)); [split; discriminate|].
  split; intros [= <-]; reflexivity.
Qed.

Lemma outcomes_update st st' i j' :
  outcomes E event s0 st ->
  jobs st' = <[i := j']> (jobs st) ->
  (forall err sz, j' = finished err -> IMAGE_SIZES !! i = Some sz ->
     expected E event s0 sz = Some err) ->
  outcomes E event s0 st'.
Proof.
  intros Hout Hjobs Hnew k sz err Hsz Hk. rewrite Hjobs in Hk.
  destruct (decide (i = k)) as [->|Hne].
  - destruct (decide (k < length (jobs st))%nat) as [Hlt|Hge].
    + rewrite list_lookup_insert_eq in Hk by exact Hlt. injection Hk as ->. eauto.
    + rewrite list_insert_ge in Hk by lia. eauto.
  - rewrite list_lookup_insert_ne in Hk by exact Hne. eauto.
Qed.

Lemma outcomes_step st i :
  computed E event s0 st -> outcomes E event s0 st ->
  outcomes E event s0 (step E st i).
Proof.
  intros Hcp Hout. unfold step.
  destruct (uncaught st) eqn:Hunc; [exact Hout|].
  destruct (jobs st !! i) as [j|] eqn:Hj; [|exact Hout].
  destruct (lookup_lt_is_Some_2 IMAGE_SIZES i) as [sz Hsz].
  { rewrite <- (cp_length _ _ _ _ Hcp). eapply lookup_lt_Some; eauto. }
  pose proof (cp_jobs _ _ _ _ Hcp i sz j Hsz Hj) as Hsem.
  assert (Hin : sz ∈ IMAGE_SIZES) by (eapply list_elem_of_lookup_2; eauto).
  assert (Hpending : forall j' o, is_finished j' = false ->
            outcomes E event s0 (log o (set_jobs (<[i := j']> (jobs st)) st))).
  { intros j' o Hf. apply (outcomes_update st _ i j' Hout); [reflexivity|].
    intros err sz' ->. discriminate. }
  assert (Hfinish : forall c err st1 out,
            iteratee event sz = Waterfall c ->
            waterfall_outcome E s0 c = out ->
            match out with
            | Stored _ => err = None
            | Failed e => err = Some e
            | Crashed => False
            end ->
            jobs st1 = jobs st ->
            outcomes E event s0
              (waterfall_callback (length IMAGE_SIZES) i c err st1)).
  { intros c err st1 out Hc Hout' Herr Hj1.
    destruct (waterfall_callback_frame (length IMAGE_SIZES) i c err st1)
      as (_ & Hjobs & _).
    apply (outcomes_update st _ i (finished err) Hout); [congruence|].
    intros err' sz' [= <-] Hsz'. assert (sz' = sz) as -> by congruence.
    unfold expected. rewrite Hc, Hout'.
    destruct out; [now subst | now subst | contradiction]. }
  destruct j as [c|c response|c response g|c contentType data|err]; [| | | |exact Hout];
    simpl in Hsem.
  - destruct Hsem as (Hc & Hs).
    rewrite (computed_source E event s0 st sz c Hcp Hin Hc).
    destruct (s3_getObject E s0 (srcBucket c) (srcKey c)) as [err|response] eqn:Hsrc.
    + apply (Hfinish c (Some err) st (Failed err) Hc); auto.
      unfold waterfall_outcome. now rewrite Hsrc.
    + now apply Hpending.
  - destruct (gm_size E (Body response)); [now apply Hpending | exact Hout].
  - destruct Hsem as (Hc & Hs & Hsrc & size & Hsize & ->).
    destruct (gm_toBuffer E (Body response) _ (imageType c)) as [err|buffer] eqn:Hbuf.
    + apply (Hfinish c (Some err) st (Failed err) Hc); auto.
      unfold waterfall_outcome. now rewrite Hsrc, Hsize, Hbuf.
    + now apply Hpending.
  - destruct Hsem as (Hc & Hs & response & size & Hsrc & Hsize & Hbuf & ->).
    destruct (putObject_error E (dstBucket c) (dstKey c)) as [err|] eqn:Hput.
    + apply (Hfinish c (Some err) st (Failed err) Hc); auto.
      unfold waterfall_outcome. now rewrite Hsrc, Hsize, Hbuf, Hput.
    + eapply (Hfinish c None _ (Stored _) Hc); [|reflexivity|reflexivity].
      unfold waterfall_outcome. now rewrite Hsrc, Hsize, Hbuf, Hput.
Qed.

Lemma outcomes_handler key :
  key_of event = Some key -> outcomes E event s0 (handler event s0).
Proof.
  intros Hkey i sz err Hsz Hi.
  destruct (handler_spec event s0 key Hkey) as (_ & Hj & _).
  rewrite Hj in Hi. change (map ?f ?l) with (f <$> l) in Hi.
  rewrite list_lookup_fmap, Hsz in Hi. simpl in Hi.
  unfold expected. destruct (iteratee event sz) as [e|err' r|c] eqn:Hit;
    simpl in Hi; try discriminate.
  - now apply (iteratee_no_throw event key Hkey) in Hit.
  - congruence.
Qed.

(** What holds in every state of an invocation on a key that decodes. *)
Lemma invoke_computed key schedule :
  key_of event = Some key ->
  let st := invoke E event s0 schedule in
  computed E event s0 st /\ outcomes E event s0 st.
Proof.
  intros Hkey. cbv zeta. unfold invoke.
  apply (run_invariant E
           (fun st => computed E event s0 st /\ outcomes E event s0 st)).
  - intros st i [Hcp Hout]. split; [now apply computed_step | now apply outcomes_step].
  - split; [now apply computed_handler with key | now apply outcomes_handler with key].
Qed.

Lemma invoke_uncaught key schedule :
  key_of event = Some key ->
  let st := invoke E event s0 schedule in
  uncaught st = None \/ uncaught st = Some TypeError.
Proof.
  intros Hkey. cbv zeta. unfold invoke.
  apply (run_invariant E
           (fun st => uncaught st = None \/ uncaught st = Some TypeError)).
  - intros st i [Hu|Hu]; destruct (step_uncaught E st i) as [->| ->]; auto.
  - left. now destruct (handler_spec event s0 key Hkey) as (Hu & _).
Qed.

End outcomes_of_iterations.

(** ** Invocations: the end, the result, the bucket *)

Section more_results.

Local Open Scope nat_scope.

Variables (E : Env) (event : event.t) (bucket : store) (schedule : list nat).

(** Every invocation comes to its end once each of the six iterations has
    had four completions, whatever the collaborators answer and however the
    completions are interleaved. *)
Theorem fair_schedule_terminates :
  (forall k, k < length IMAGE_SIZES -> 4 <= count_occ Nat.eq_dec schedule k) ->
  terminal (invoke E event bucket schedule).
Proof.
  intros Hfair. unfold terminal, invoke.
  destruct (run_progress E schedule (handler event bucket)) as [Hunc|[Hlen Hrun]];
    [now left|].
  right. apply Forall_forall. intros j' Hin.
  apply list_elem_of_In, list_elem_of_lookup in Hin as [k Hk'].
  destruct (aggregated_handler event bucket) as (_ & Hle & _).
  assert (Hk : k < length (jobs (handler event bucket))).
  { apply lookup_lt_Some in Hk'. lia. }
  destruct (lookup_lt_is_Some_2 _ k Hk) as [j Hj].
  destruct (Hrun k j Hj) as (j1 & Hk1 & Hrem).
  assert (j1 = j') as -> by congruence.
  specialize (Hfair k ltac:(lia)).
  destruct j, j'; simpl in Hrem; try lia; reflexivity.
Qed.

Lemma callbacks_iff_all_succeeded :
  let st := invoke E event bucket schedule in
  callbacks (trace st) = [(None, all_done)] <->
  length (jobs st) = length IMAGE_SIZES /\
  Forall (fun j => j = finished None) (jobs st).
Proof.
  intros st. split.
  - intros Hcb.
    destruct (aggregated_invoke E event bucket schedule) as (_ & Hlen & H).
    fold st in H, Hlen. rewrite Hcb in H.
    pose proof (successes_le_length (jobs st)) as Hle.
    destruct (settled st).
    + destruct H as [[_ H]|[Hs _]]; [discriminate|].
      split; [lia|]. apply all_successes. lia.
    + destruct H as (_ & _ & H). discriminate.
  - intros [Hlen Hall]. now apply success_is_reported.
Qed.

(** The handler's callback is called exactly when all six iterations have
    called back without error, a skip counting as none; it is then called
    once, with no error, and otherwise not at all. *)
Theorem callback_exactly_when_all_succeed :
  let st := invoke E event bucket schedule in
  (callbacks (trace st) = [(None, all_done)] <->
   length (jobs st) = length IMAGE_SIZES /\
   Forall (fun j => j = finished None) (jobs st)) /\
  (callbacks (trace st) = [] \/ callbacks (trace st) = [(None, all_done)]).
Proof.
  split; [apply callbacks_iff_all_succeeded | apply callback_never_carries_error].
Qed.

Lemma decodes_unless_URIError :
  uncaught (invoke E event bucket schedule) = None ->
  exists key, key_of event = Some key.
Proof.
  intros Hu. destruct (key_of event) as [key|] eqn:Hkey; [eauto|].
  rewrite (invoke_undecodable E event bucket schedule Hkey) in Hu. discriminate.
Qed.

(** In an invocation that has come to its end without an exception, every
    iteration has called back with the error to be expected from the event,
    the bucket and the collaborators: the one of its early return, or the
    error of the first stage of its waterfall that fails, passed on as it
    is, or none once its rendition is stored. The handler's callback has
    been called exactly when none of the six is an error. *)
Theorem iterations_end_as_expected :
  let st := invoke E event bucket schedule in
  terminal st -> uncaught st = None ->
  (forall i sz, IMAGE_SIZES !! i = Some sz ->
     exists err, expected E event bucket sz = Some err /\
                 jobs st !! i = Some (finished err)) /\
  (callbacks (trace st) = [(None, all_done)] <->
   forall sz, sz ∈ IMAGE_SIZES -> expected E event bucket sz = Some None).
Proof.
  intros st Hterm Hunc.
  destruct (decodes_unless_URIError Hunc) as [key Hkey].
  destruct (invoke_computed E event bucket key schedule Hkey) as [Hcp Hout].
  fold st in Hcp, Hout.
  destruct Hterm as [Hne|Hall]; [congruence|].
  assert (Hjobs : forall i sz, IMAGE_SIZES !! i = Some sz ->
            exists err, expected E event bucket sz = Some err /\
                        jobs st !! i = Some (finished err)).
  { intros i sz Hsz.
    destruct (lookup_lt_is_Some_2 (jobs st) i) as [j Hj].
    { rewrite (cp_length _ _ _ _ Hcp). eapply lookup_lt_Some; eauto. }
    rewrite Forall_forall in Hall.
    assert (Hf : is_finished j = true).
    { apply Hall, list_elem_of_In. eapply list_elem_of_lookup_2; eauto. }
    destruct j as [| | | |err]; try discriminate.
    exists err. split; [eapply Hout; eauto | exact Hj]. }
  split; [exact Hjobs|].
  etransitivity; [apply callbacks_iff_all_succeeded|]. fold st. split.
  - intros [_ Hnone] sz Hin. apply list_elem_of_lookup in Hin as [i Hsz].
    destruct (Hjobs i sz Hsz) as (err & Hexp & Hj).
    rewrite Forall_forall in Hnone.
    assert (finished err = finished None) as [= ->].
    { apply Hnone, list_elem_of_In. eapply list_elem_of_lookup_2; eauto. }
    exact Hexp.
  - intros Hexp. split; [apply (cp_length _ _ _ _ Hcp)|].
    apply Forall_forall. intros j Hin.
    apply list_elem_of_In, list_elem_of_lookup in Hin as [i Hj].
    destruct (lookup_lt_is_Some_2 IMAGE_SIZES i) as [sz Hsz].
    { rewrite <- (cp_length _ _ _ _ Hcp). eapply lookup_lt_Some; eauto. }
    destruct (Hjobs i sz Hsz) as (err & Hexp' & Hj').
    rewrite (Hexp sz) in Hexp' by (eapply list_elem_of_lookup_2; eauto).
    congruence.
Qed.

(** Every key of the bucket holds what it held before the invocation, or
    is the destination of an iteration and holds its rendition. *)
Lemma bucket_lookup key k :
  key_of event = Some key ->
  let st := invoke E event bucket schedule in
  s3 st !! k = bucket !! k \/
  exists sz c object, sz ∈ IMAGE_SIZES /\ iteratee event sz = Waterfall c /\
    k = dst c /\ rendition E bucket c = Some object /\ s3 st !! k = Some object.
Proof.
  intros Hkey st.
  destruct (invoke_computed E event bucket key schedule Hkey) as [Hcp _].
  fold st in Hcp.
  destruct (dst_dec event IMAGE_SIZES k) as [(sz & c & Hin & Hc & ->)|Hnone];
    [|left; now apply (cp_other _ _ _ _ Hcp)].
  apply list_elem_of_lookup in Hin as Hin'. destruct Hin' as [i Hsz].
  destruct (lookup_lt_is_Some_2 (jobs st) i) as [j Hj].
  { rewrite (cp_length _ _ _ _ Hcp). eapply lookup_lt_Some; eauto. }
  pose proof (cp_jobs _ _ _ _ Hcp i sz j Hsz Hj) as Hsem.
  destruct (closure_of j) as [c'|] eqn:Hcl.
  - destruct (job_sem_closure E event bucket _ sz j c' Hcl Hsem) as [Hc' Hs].
    assert (c' = c) as -> by congruence. now left.
  - destruct j; try discriminate. simpl in Hsem.
    pose proof (Hsem c Hc) as Hst. unfold stored in Hst.
    destruct (rendition E bucket c) as [object|] eqn:Hren; [|now left].
    right. exists sz, c, object. auto.
Qed.

(** At no point of an invocation is an object of the bucket deleted, the
    source object written, or any key changed other than the destination of
    an iteration that entered the waterfall. *)
Theorem bucket_is_only_extended :
  let st := invoke E event bucket schedule in
  (forall k, is_Some (bucket !! k) -> is_Some (s3 st !! k)) /\
  (forall key, key_of event = Some key ->
     s3 st !! (bucket_of event, key) = bucket !! (bucket_of event, key)) /\
  (forall k, s3 st !! k <> bucket !! k ->
     exists sz key, sz ∈ IMAGE_SIZES /\ key_of event = Some key /\
       k = (bucket_of event, destination_key sz key) /\
       destination_key sz key <> key).
Proof.
  intros st. destruct (key_of event) as [key|] eqn:Hkey.
  - split_and!.
    + intros k Hk. destruct (bucket_lookup key k Hkey) as [Heq|(sz & c & o & H)].
      * fold st in Heq. now rewrite Heq.
      * destruct H as (_ & _ & _ & _ & Hs). fold st in Hs. rewrite Hs. eauto.
    + intros key' [= <-].
      destruct (bucket_lookup key (bucket_of event, key) Hkey)
        as [Heq|(sz & c & o & Hin & Hc & Hk & _)]; [exact Heq|].
      exfalso. pose proof (iteratee_cases event sz) as H. rewrite Hc in H.
      destruct H as (Hk' & _ & _ & Hdb & _ & Hne & _).
      unfold dst in Hk. injection Hk as _ Hk. congruence.
    + intros k Hne. destruct (bucket_lookup key k Hkey)
        as [Heq|(sz & c & o & Hin & Hc & Hk & _)]; [contradiction|].
      pose proof (iteratee_cases event sz) as H. rewrite Hc in H.
      destruct H as (Hk' & _ & _ & Hdb & Hdk & Hne' & _).
      assert (srcKey c = key) as Hsrc by congruence.
      exists sz, key. split_and!; auto.
      * rewrite Hk. unfold dst. now rewrite Hdb, Hdk, Hsrc.
      * now rewrite <- Hsrc, <- Hdk.
  - unfold st. rewrite (invoke_undecodable E event bucket schedule Hkey). simpl.
    split_and!; [auto | discriminate | congruence].
Qed.

(** Whatever an invocation has written is the output of [gm] for the source
    object, stored with the content type of the source object and the
    access setting [public-read]. *)
Theorem written_objects (k : jsstring * jsstring) (object : s3object) :
  let st := invoke E event bucket schedule in
  s3 st !! k = Some object -> bucket !! k <> Some object ->
  exists key source size sz,
    key_of event = Some key /\
    bucket !! (bucket_of event, key) = Some source /\
    gm_size E (Body source) = Some size /\
    sz ∈ IMAGE_SIZES /\
    (exists t, match_extension key = Some t /\
       gm_toBuffer E (Body source) (transform_geometry sz size) t
         = inr (Body object)) /\
    ContentType object = ContentType source /\
    ACL object = AWS_ACL.
Proof.
  intros st Hk Hne. destruct (key_of event) as [key|] eqn:Hkey.
  - destruct (bucket_lookup key k Hkey) as [Heq|(sz & c & o & Hin & Hc & _ & Hren & Hs)].
    { fold st in Heq. congruence. }
    fold st in Hs. assert (o = object) as -> by congruence.
    pose proof (iteratee_cases event sz) as H. rewrite Hc in H.
    destruct H as (Hk' & Hsz & Hsb & _ & _ & _ & Hext & _).
    assert (srcKey c = key) as Hsrc by congruence.
    unfold rendition, s3_getObject in Hren. rewrite Hsb, Hsrc, Hsz in Hren.
    destruct (getObject_error E (bucket_of event) key); [discriminate|].
    destruct (bucket !! (bucket_of event, key)) as [source|] eqn:Hsource;
      [|discriminate].
    destruct (gm_size E (Body source)) as [size|] eqn:Hsize; [|discriminate].
    cbv zeta in Hren.
    destruct (gm_toBuffer E (Body source) _ (imageType c)) as [err|buffer] eqn:Hbuf;
      [discriminate|].
    destruct (putObject_error E (dstBucket c) (dstKey c)); [discriminate|].
    injection Hren as <-. exists key, source, size, sz. simpl.
    split_and!; auto. exists (imageType c). rewrite <- Hsrc. auto.
  - unfold st in Hk. rewrite (invoke_undecodable E event bucket schedule Hkey) in Hk.
    simpl in Hk. congruence.
Qed.

End more_results.

Lemma fair_schedule_terminates_witness :
  terminal
    (invoke quiet (event.mk (js "bucket") (js "original/abc123/DarthVader.jpg"))
       {[ (js "bucket", js "original/abc123/DarthVader.jpg") := photo ]}
       (rev round_robin)).
Proof.
  apply fair_schedule_terminates. intros k Hk. simpl in Hk.
  do 6 (destruct k as [|k]; [vm_compute; lia|]). lia.
Defined.

Lemma iterations_end_as_expected_witness :
  let event := event.mk (js "bucket") (js "original/abc123/DarthVader.jpg") in
  let bucket : store :=
    {[ (js "bucket", js "original/abc123/DarthVader.jpg") := photo ]} in
  let st := invoke quiet event bucket round_robin in
  (forall i sz, IMAGE_SIZES !! i = Some sz ->
     exists err, expected quiet event bucket sz = Some err /\
                 jobs st !! i = Some (finished err)) /\
  (callbacks (trace st) = [(None, all_done)] <->
   forall sz, sz ∈ IMAGE_SIZES -> expected quiet event bucket sz = Some None).
Proof.
  apply iterations_end_as_expected.
  - right. vm_compute. repeat constructor.
  - vm_compute. reflexivity.
Defined.

Lemma written_objects_witness :
  let event := event.mk (js "bucket") (js "original/abc123/DarthVader.jpg") in
  let bucket : store :=
    {[ (js "bucket", js "original/abc123/DarthVader.jpg") := photo ]} in
  let object := {| Body := Body photo; ContentType := js "image/jpeg";
                   ACL := js "public-read" |} in
  exists key source size sz,
    key_of event = Some key /\
    bucket !! (bucket_of event, key) = Some source /\
    gm_size quiet (Body source) = Some size /\
    sz ∈ IMAGE_SIZES /\
    (exists t, match_extension key = Some t /\
       gm_toBuffer quiet (Body source) (transform_geometry sz size) t
         = inr (Body object)) /\
    ContentType object = ContentType source /\
    ACL object = AWS_ACL.
Proof.
  apply (written_objects quiet
           (event.mk (js "bucket") (js "original/abc123/DarthVader.jpg"))
           {[ (js "bucket", js "original/abc123/DarthVader.jpg") := photo ]}
           round_robin (js "bucket", js "thumb/abc123/DarthVader.jpg")).
  - vm_compute. reflexivity.
  - vm_compute. discriminate.
Defined.

Section more_results_edge.

Variables (E : Env) (event : event.t) (bucket : store) (schedule : list nat).

(** When the source object is downloaded but [gm] cannot identify it, the
    callback of line 106 throws on [size.height]: nothing is ever stored,
    the handler's callback is never called, and the only way the invocation
    ends is with that uncaught [TypeError]. *)
Theorem unidentifiable_image_crashes (sz : imageSize.t) (c : closure)
    (source : s3object) :
  sz ∈ IMAGE_SIZES -> iteratee event sz = Waterfall c ->
  s3_getObject E bucket (srcBucket c) (srcKey c) = inr source ->
  gm_size E (Body source) = None ->
  let st := invoke E event bucket schedule in
  s3 st = bucket /\
  callbacks (trace st) = [] /\
  (terminal st -> uncaught st = Some TypeError).
Proof.
  intros Hin Hc Hsrc Hsize st.
  pose proof (iteratee_cases event sz) as Hcases. rewrite Hc in Hcases.
  destruct Hcases as (Hkey & _).
  destruct (invoke_computed E event bucket (srcKey c) schedule Hkey) as [Hcp Hout].
  fold st in Hcp, Hout.
  assert (Hexp : expected E event bucket sz = None).
  { unfold expected, waterfall_outcome. now rewrite Hc, Hsrc, Hsize. }
  apply list_elem_of_lookup in Hin as Hin'. destruct Hin' as [i Hsz].
  assert (Hpending : forall err, jobs st !! i <> Some (finished err)).
  { intros err Hj. specialize (Hout i sz err Hsz Hj). congruence. }
  split_and!.
  - apply map_eq. intros k.
    destruct (bucket_lookup E event bucket schedule (srcKey c) k Hkey)
      as [Heq|(sz' & c' & o & _ & Hc' & _ & Hren & _)]; [exact Heq|].
    exfalso. destruct (same_source event sz' sz c' c Hc' Hc) as [Hb Hk].
    unfold rendition in Hren. now rewrite Hb, Hk, Hsrc, Hsize in Hren.
  - destruct (callback_never_carries_error E event bucket schedule) as [H|H];
      [exact H|].
    apply callbacks_iff_all_succeeded in H as [Hlen Hall]. exfalso.
    destruct (lookup_lt_is_Some_2 (jobs st) i) as [j Hj].
    { fold st in Hlen. rewrite Hlen. eapply lookup_lt_Some; eauto. }
    rewrite Forall_forall in Hall.
    assert (j = finished None) as ->.
    { apply Hall, list_elem_of_In. eapply list_elem_of_lookup_2; eauto. }
    now apply (Hpending None).
  - intros Hterm.
    destruct (invoke_uncaught E event bucket (srcKey c) schedule Hkey) as [Hu|Hu];
      [|exact Hu].
    fold st in Hu. exfalso. destruct Hterm as [Hne|Hall]; [congruence|].
    destruct (lookup_lt_is_Some_2 (jobs st) i) as [j Hj].
    { rewrite (cp_length _ _ _ _ Hcp). eapply lookup_lt_Some; eauto. }
    rewrite Forall_forall in Hall.
    assert (Hf : is_finished j = true).
    { apply Hall, list_elem_of_In. eapply list_elem_of_lookup_2; eauto. }
    destruct j as [| | | |err]; try discriminate. now apply (Hpending err).
Qed.

(** When the key has a type other than jpg, jpeg and png and is no size's
    own rendition, all six iterations skip before the handler returns: the
    handler's callback has been called with success by then, no request is
    ever sent, and no completion changes anything. *)
Theorem nothing_to_do_reports_success (stem t : jsstring) :
  let key := stem ++ js "." ++ t in
  key_of event = Some key ->
  char_dot ∉ t ->
  t <> js "jpg" -> t <> js "jpeg" -> t <> js "png" ->
  (forall sz, sz ∈ IMAGE_SIZES -> destination_key sz key <> key) ->
  let st := invoke E event bucket schedule in
  st = handler event bucket /\
  callbacks (trace st) = [(None, all_done)] /\
  (forall o, o ∈ trace st -> request_of o = None) /\
  s3 st = bucket /\
  Forall (fun j => j = finished None) (jobs st).
Proof.
  intros key Hkey Hdot Hjpg Hjpeg Hpng Hdst.
  assert (Hext : match_extension key = Some t)
    by now apply match_extension_suffix.
  assert (Hskip : forall sz, sz ∈ IMAGE_SIZES ->
            iteratee event sz = Returns None (Some (skip_message t))).
  { intros sz Hin. unfold iteratee. rewrite Hkey.
    rewrite bool_decide_eq_false_2 by now apply Hdst.
    rewrite Hext. now rewrite !neq_true. }
  destruct (handler_spec event bucket key Hkey) as (Hu & Hj & Hs & Hwf).
  assert (Hnone : Forall (fun j => j = finished None) (jobs (handler event bucket))).
  { rewrite Hj. apply Forall_forall. intros j Hin.
    apply in_map_iff in Hin as (sz & <- & Hin).
    rewrite (Hskip sz) by now apply list_elem_of_In. reflexivity. }
  assert (Hsame : invoke E event bucket schedule = handler event bucket).
  { apply run_all_finished. eapply Forall_impl; [|exact Hnone].
    intros j ->. reflexivity. }
  intros st. unfold st. rewrite Hsame. split_and!; auto.
  - apply (success_is_reported E event bucket []); [|exact Hnone].
    change (invoke E event bucket []) with (handler event bucket).
    rewrite Hj. apply length_map.
  - intros o Ho. destruct (request_of o) as [i|] eqn:Hreq; [|reflexivity].
    destruct (wf_trace _ _ _ Hwf o i Ho Hreq) as (sz & c & Hsz & Hc & _).
    rewrite (Hskip sz) in Hc by (eapply list_elem_of_lookup_2; eauto).
    discriminate.
Qed.

End more_results_edge.

Lemma unidentifiable_image_crashes_witness :
  let event := event.mk (js "bucket") (js "original/abc123/DarthVader.jpg") in
  let bucket : store :=
    {[ (js "bucket", js "original/abc123/DarthVader.jpg") := photo ]} in
  let blind := {| gm_size := fun _ => None;
                  gm_toBuffer := fun body _ _ => inr body;
                  getObject_error := fun _ _ => None;
                  putObject_error := fun _ _ => None |} in
  let st := invoke blind event bucket round_robin in
  s3 st = bucket /\ callbacks (trace st) = [] /\
  (terminal st -> uncaught st = Some TypeError).
Proof.
  cbv zeta.
  eapply (unidentifiable_image_crashes _ _ _ round_robin thumb _ photo).
  - do 4 apply list_elem_of_further. apply list_elem_of_here.
  - reflexivity.
  - vm_compute. reflexivity.
  - reflexivity.
Defined.

Lemma nothing_to_do_reports_success_witness :
  let event := event.mk (js "bucket") (js "original/abc123/anim.gif") in
  let st := invoke quiet event ∅ round_robin in
  st = handler event ∅ /\
  callbacks (trace st) = [(None, all_done)] /\
  (forall o, o ∈ trace st -> request_of o = None) /\
  s3 st = ∅ /\
  Forall (fun j => j = finished None) (jobs st).
Proof.
  apply (nothing_to_do_reports_success quiet
           (event.mk (js "bucket") (js "original/abc123/anim.gif")) ∅ round_robin
           (js "original/abc123/anim") (js "gif")).
  - reflexivity.
  - vm_compute. intros H.
    repeat (apply elem_of_cons in H as [H|H]; [discriminate|]).
    now apply elem_of_nil in H.
  - vm_compute. discriminate.
  - vm_compute. discriminate.
  - vm_compute. discriminate.
  - intros sz Hin.
    repeat (apply elem_of_cons in Hin as [-> | Hin]; [vm_compute; discriminate|]).
    now apply elem_of_nil in Hin.
Defined.

(** ** Invocations: what the requests carry and in which order they go *)

Section requests_carry.

Variables (E : Env) (event : event.t) (s0 : store).

Lemma trace_sem_extend st st' extra :
  trace_sem E event s0 st ->
  trace st' = trace st ++ extra ->
  Forall (fun o => request_of o = None \/
            exists i sz c, request_of o = Some i /\ IMAGE_SIZES !! i = Some sz /\
              iteratee event sz = Waterfall c /\ request_sem E s0 c o) extra ->
  trace_sem E event s0 st'.
Proof.
  intros Hsem Htrace Hextra o i Ho Hreq. rewrite Htrace in Ho.
  apply elem_of_app in Ho as [Ho|Ho]; [eauto|].
  rewrite Forall_forall in Hextra. apply list_elem_of_In in Ho.
  destruct (Hextra o Ho) as [Hn|(k & sz & c & Hk & Hsz & Hc & Hs)]; [congruence|].
  assert (k = i) as -> by congruence. eauto.
Qed.

Lemma trace_sem_step st i :
  computed E event s0 st -> trace_sem E event s0 st ->
  trace_sem E event s0 (step E st i).
Proof.
  intros Hcp Hsem. unfold step.
  destruct (uncaught st) eqn:Hunc; [exact Hsem|].
  destruct (jobs st !! i) as [j|] eqn:Hj; [|exact Hsem].
  destruct (lookup_lt_is_Some_2 IMAGE_SIZES i) as [sz Hsz].
  { rewrite <- (cp_length _ _ _ _ Hcp). eapply lookup_lt_Some; eauto. }
  pose proof (cp_jobs _ _ _ _ Hcp i sz j Hsz Hj) as Hjs.
  assert (Hin : sz ∈ IMAGE_SIZES) by (eapply list_elem_of_lookup_2; eauto).
  assert (Hquiet : forall c err st1, trace st1 = trace st ->
            trace_sem E event s0
              (waterfall_callback (length IMAGE_SIZES) i c err st1)).
  { intros c err st1 Ht1.
    destruct (waterfall_callback_frame (length IMAGE_SIZES) i c err st1)
      as (_ & _ & _ & extra & Ht & Hx).
    apply (trace_sem_extend st _ extra Hsem); [congruence|].
    eapply Forall_impl; [|exact Hx]. simpl. auto. }
  assert (Hone : forall c o st1, iteratee event sz = Waterfall c ->
            request_of o = Some i -> request_sem E s0 c o ->
            trace st1 = trace st ++ [o] -> trace_sem E event s0 st1).
  { intros c o st1 Hc Hreq Hrs Ht1.
    apply (trace_sem_extend st _ [o] Hsem Ht1).
    constructor; [|constructor]. right. exists i, sz, c. auto. }
  destruct j as [c|c response|c response g|c contentType data|err]; [| | | |exact Hsem];
    simpl in Hjs.
  - destruct Hjs as (Hc & Hs).
    rewrite (computed_source E event s0 st sz c Hcp Hin Hc).
    destruct (s3_getObject E s0 (srcBucket c) (srcKey c)) as [err|response] eqn:Hsrc.
    + now apply Hquiet.
    + apply (Hone c (gm_size_request i (Body response)) _ Hc eq_refl);
        [|reflexivity].
      simpl. eauto.
  - destruct Hjs as (Hc & Hs & Hsrc).
    destruct (gm_size E (Body response)) as [size|] eqn:Hsize; [|exact Hsem].
    apply (Hone c (gm_toBuffer_request i (Body response)
                     (transform_geometry (imageSize c) size) (imageType c)) _ Hc eq_refl);
      [|reflexivity].
    simpl. exists response, size. auto.
  - destruct Hjs as (Hc & Hs & Hsrc & size & Hsize & ->).
    destruct (gm_toBuffer E (Body response) _ (imageType c)) as [err|buffer] eqn:Hbuf.
    + now apply Hquiet.
    + apply (Hone c (s3_putObject_request i (dstBucket c) (dstKey c)
                       {| Body := buffer; ContentType := ContentType response;
                          ACL := AWS_ACL |}) _ Hc eq_refl); [|reflexivity].
      simpl. exists response, size, buffer. auto 10.
  - destruct (putObject_error E (dstBucket c) (dstKey c)); now apply Hquiet.
Qed.

Variable key : jsstring.
Hypothesis Hkey : key_of event = Some key.

(** When the handler returns, only downloads have been requested. *)
Lemma fold_start_gets total (sizes done : list imageSize.t) st :
  uncaught st = None ->
  jobs st = map (fun sz => job_of (iteratee event sz)) done ->
  s3 st = s0 ->
  trace_wf event done st ->
  (forall o, o ∈ trace st -> request_of o <> None -> kind_of o = Some Get) ->
  let st' := fold_left (start event total) sizes st in
  forall o, o ∈ trace st' -> request_of o <> None -> kind_of o = Some Get.
Proof.
  revert done st. induction sizes as [|sz sizes IH]; intros done st Hu Hj Hs Ht Hg.
  - exact Hg.
  - simpl. destruct (start_spec event s0 key Hkey total done st sz Hu Hj Hs Ht)
      as (Hu' & Hj' & Hs' & Ht').
    apply (IH (done ++ [sz]) _ Hu' Hj' Hs' Ht').
    intros o Ho Hreq. unfold start in Ho. rewrite Hu in Ho.
    destruct (iteratee event sz) as [e|err result|c].
    + now apply Hg.
    + match type of Ho with context [iterator_callback total err ?s] =>
        destruct (iterator_callback_frame total err s)
          as (_ & _ & _ & extra & Hex & Hx) end.
      rewrite Hex in Ho. simpl in Ho.
      apply elem_of_app in Ho as [Ho|Ho]; [now apply Hg|].
      rewrite Forall_forall in Hx. apply list_elem_of_In in Ho.
      now specialize (Hx o Ho).
    + simpl in Ho. apply elem_of_app in Ho as [Ho|Ho]; [now apply Hg|].
      apply list_elem_of_singleton in Ho as ->. reflexivity.
Qed.

Lemma trace_sem_handler : trace_sem E event s0 (handler event s0).
Proof.
  intros o i Ho Hreq.
  destruct (handler_spec event s0 key Hkey) as (_ & _ & _ & [_ Hwf]).
  destruct (Hwf o i Ho Hreq) as (sz & c & Hsz & Hc & Hrw).
  exists sz, c. split; [exact Hsz|]. split; [exact Hc|].
  assert (Hget : kind_of o = Some Get).
  { unfold handler in Ho.
    match type of Ho with context [fold_left _ _ ?init] =>
      apply (fold_start_gets (length IMAGE_SIZES) IMAGE_SIZES [] init
               eq_refl eq_refl eq_refl) with (o := o) end.
    - intros o' i' Ho'. now apply elem_of_nil in Ho'.
    - intros o' Ho'. now apply elem_of_nil in Ho'.
    - exact Ho.
    - congruence. }
  destruct o; try discriminate. exact Hrw.
Qed.

Lemma trace_sem_invoke schedule :
  trace_sem E event s0 (invoke E event s0 schedule).
Proof.
  unfold invoke.
  apply (run_invariant E
           (fun st => computed E event s0 st /\ trace_sem E event s0 st)).
  - intros st i [Hcp Hsem]. split; [now apply computed_step | now apply trace_sem_step].
  - split; [now apply computed_handler with key | apply trace_sem_handler].
Qed.

End requests_carry.

(** Every request to [gm] is about the bytes of the source object; the
    encoding is asked in the format named by the suffix of the key, with the
    geometry computed from the dimensions [gm] reported and the size of the
    iteration; and every upload carries the bytes [gm] produced, the content
    type of the source object and the access setting [public-read], to the
    destination key of the iteration. *)
Theorem requests_carry_the_source
    (E : Env) (event : event.t) (bucket : store) (schedule : list nat) (o : obs) :
  o ∈ trace (invoke E event bucket schedule) ->
  forall i, request_of o = Some i ->
  exists key sz,
    key_of event = Some key /\ IMAGE_SIZES !! i = Some sz /\
    match o with
    | s3_getObject_request _ Bucket Key => Bucket = bucket_of event /\ Key = key
    | gm_size_request _ body =>
        exists source, bucket !! (bucket_of event, key) = Some source /\
          body = Body source
    | gm_toBuffer_request _ body g t =>
        exists source size,
          bucket !! (bucket_of event, key) = Some source /\ body = Body source /\
          gm_size E body = Some size /\ g = transform_geometry sz size /\
          match_extension key = Some t /\
          (t = js "jpg" \/ t = js "jpeg" \/ t = js "png")
    | s3_putObject_request _ Bucket Key object =>
        exists source size t,
          bucket !! (bucket_of event, key) = Some source /\
          gm_size E (Body source) = Some size /\
          match_extension key = Some t /\
          gm_toBuffer E (Body source) (transform_geometry sz size) t
            = inr (Body object) /\
          ContentType object = ContentType source /\ ACL object = AWS_ACL /\
          Bucket = bucket_of event /\ Key = destination_key sz key
    | _ => True
    end.
Proof.
  intros Ho i Hreq. destruct (key_of event) as [key|] eqn:Hkey.
  2:{ rewrite (invoke_undecodable E event bucket schedule Hkey) in Ho.
      simpl in Ho. now apply elem_of_nil in Ho. }
  destruct (trace_sem_invoke E event bucket key Hkey schedule o i Ho Hreq)
    as (sz & c & Hsz & Hc & Hsem).
  pose proof (iteratee_cases event sz) as H. rewrite Hc in H.
  destruct H as (Hk & His & Hsb & Hdb & Hdk & _ & Hext & Htype).
  assert (Hsrc : srcKey c = key) by congruence. subst key sz.
  assert (Hget : forall response,
            s3_getObject E bucket (srcBucket c) (srcKey c) = inr response ->
            bucket !! (bucket_of event, srcKey c) = Some response).
  { intros response. unfold s3_getObject. rewrite Hsb.
    destruct (getObject_error E (bucket_of event) (srcKey c)); [discriminate|].
    destruct (bucket !! (bucket_of event, srcKey c)); [congruence | discriminate]. }
  exists (srcKey c), (imageSize c). split; [reflexivity|]. split; [exact Hsz|].
  destruct o; simpl in Hsem; try exact I.
  - destruct Hsem as [-> ->]. auto.
  - destruct Hsem as (response & Hr & ->). eauto.
  - destruct Hsem as (response & size & Hr & -> & Hsize & -> & ->).
    exists response, size. split_and!; auto.
  - destruct Hsem as (response & size & data & Hr & Hsize & Hbuf & -> & -> & ->).
    exists response, size, (imageType c). simpl. split_and!; auto.
Qed.

Lemma requests_carry_the_source_witness :
  let event := event.mk (js "bucket") (js "original/abc123/DarthVader.jpg") in
  let bucket : store :=
    {[ (js "bucket", js "original/abc123/DarthVader.jpg") := photo ]} in
  let object := {| Body := Body photo; ContentType := js "image/jpeg";
                   ACL := js "public-read" |} in
  exists key sz,
    key_of event = Some key /\ IMAGE_SIZES !! 4%nat = Some sz /\
    exists source size t,
      bucket !! (bucket_of event, key) = Some source /\
      gm_size quiet (Body source) = Some size /\
      match_extension key = Some t /\
      gm_toBuffer quiet (Body source) (transform_geometry sz size) t
        = inr (Body object) /\
      ContentType object = ContentType source /\ ACL object = AWS_ACL /\
      js "bucket" = bucket_of event /\
      js "thumb/abc123/DarthVader.jpg" = destination_key sz key.
Proof.
  cbv zeta.
  apply (requests_carry_the_source quiet
           (event.mk (js "bucket") (js "original/abc123/DarthVader.jpg"))
           {[ (js "bucket", js "original/abc123/DarthVader.jpg") := photo ]}
           round_robin
           (s3_putObject_request 4 (js "bucket") (js "thumb/abc123/DarthVader.jpg")
              {| Body := Body photo; ContentType := js "image/jpeg";
                 ACL := js "public-read" |})).
  - vm_compute. do 22 apply list_elem_of_further. apply list_elem_of_here.
  - reflexivity.
Defined.

Section requests_in_order.

Local Open Scope nat_scope.

Lemma sent_app i t1 t2 : sent i (t1 ++ t2) = sent i t1 ++ sent i t2.
Proof.
  induction t1 as [|o t1 IH]; simpl; [reflexivity|].
  destruct (request_of o) as [k|]; [|exact IH].
  destruct (kind_of o); [|exact IH].
  destruct (k =? i); [now rewrite IH | exact IH].
Qed.

Lemma sent_other i t :
  Forall (fun o => request_of o <> Some i) t -> sent i t = [].
Proof.
  induction 1 as [|o t Ho _ IH]; simpl; [reflexivity|].
  destruct (request_of o) as [k|]; [|exact IH].
  destruct (kind_of o); [|exact IH].
  destruct (Nat.eqb_spec k i) as [->|_]; [congruence | exact IH].
Qed.

Lemma sent_no_request i t :
  Forall (fun o => request_of o = None) t -> sent i t = [].
Proof.
  intros H. apply sent_other. eapply Forall_impl; [|exact H].
  simpl. intros o ->. discriminate.
Qed.

(** Iteration [i] moves on to [j'], sending [extra]. *)
Lemma in_order_update st st' i j j' extra :
  in_order st ->
  jobs st !! i = Some j -> is_finished j = false ->
  jobs st' = <[i := j']> (jobs st) ->
  trace st' = trace st ++ extra ->
  Forall (fun o => request_of o = None \/ request_of o = Some i) extra ->
  (is_finished j' = true -> sent i extra = []) ->
  (is_finished j' = false ->
   take (5 - remaining j) pipeline ++ sent i extra = take (5 - remaining j') pipeline) ->
  in_order st'.
Proof.
  intros Hord Hj Hf Hjobs Htrace Hextra Hfin Hpen k.
  rewrite Hjobs, Htrace, sent_app. specialize (Hord k).
  destruct (decide (i = k)) as [<-|Hne].
  - rewrite list_lookup_insert_eq by (eapply lookup_lt_Some; eauto).
    rewrite Hj in Hord.
    assert (Hs : sent i (trace st) = take (5 - remaining j) pipeline)
      by (destruct j; try discriminate; exact Hord).
    destruct j' as [| | | |err];
      try (rewrite Hs; apply Hpen; reflexivity).
    rewrite Hfin, app_nil_r by reflexivity. eauto.
  - rewrite list_lookup_insert_ne by exact Hne.
    rewrite (sent_other k extra), app_nil_r; [exact Hord|].
    eapply Forall_impl; [|exact Hextra]. simpl. intros o [-> | ->]; congruence.
Qed.

Lemma in_order_step E st i : in_order st -> in_order (step E st i).
Proof.
  intros Hord. unfold step.
  destruct (uncaught st); [exact Hord|].
  destruct (jobs st !! i) as [j|] eqn:Hj; [|exact Hord].
  assert (Hfinish : forall c err st1, is_finished j = false ->
            jobs st1 = jobs st -> trace st1 = trace st ->
            in_order (waterfall_callback (length IMAGE_SIZES) i c err st1)).
  { intros c err st1 Hf Hj1 Ht1.
    destruct (waterfall_callback_frame (length IMAGE_SIZES) i c err st1)
      as (_ & Hjobs & _ & extra & Ht & Hx).
    apply (in_order_update st _ i j (finished err) extra Hord Hj Hf);
      try congruence.
    - eapply Forall_impl; [|exact Hx]. simpl. auto.
    - intros _. now apply sent_no_request.
    - discriminate. }
  assert (Hnext : forall j' o x st1, is_finished j = false -> is_finished j' = false ->
            request_of o = Some i -> kind_of o = Some x ->
            take (5 - remaining j) pipeline ++ [x] = take (5 - remaining j') pipeline ->
            jobs st1 = <[i := j']> (jobs st) -> trace st1 = trace st ++ [o] ->
            in_order st1).
  { intros j' o x st1 Hf Hf' Hreq Hkind Htake Hj1 Ht1.
    assert (Hs : sent i [o] = [x]).
    { simpl. rewrite Hreq, Hkind, Nat.eqb_refl. reflexivity. }
    apply (in_order_update st _ i j j' [o] Hord Hj Hf Hj1 Ht1).
    - constructor; [now right | constructor].
    - congruence.
    - intros _. now rewrite Hs. }
  destruct j as [c|c response|c response g|c contentType data|err]; [| | | |exact Hord].
  - destruct (s3_getObject E (s3 st) (srcBucket c) (srcKey c)) as [err|response].
    + now apply Hfinish.
    + apply (Hnext (transform c response) (gm_size_request i (Body response)) Size);
        reflexivity.
  - destruct (gm_size E (Body response)) as [size|]; [|exact Hord].
    apply (Hnext (toBuffer c response (transform_geometry (imageSize c) size))
             (gm_toBuffer_request i (Body response)
                (transform_geometry (imageSize c) size) (imageType c)) ToBuffer);
      reflexivity.
  - destruct (gm_toBuffer E (Body response) g (imageType c)) as [err|buffer].
    + now apply Hfinish.
    + apply (Hnext (upload c (ContentType response) buffer)
               (s3_putObject_request i (dstBucket c) (dstKey c)
                  {| Body := buffer; ContentType := ContentType response;
                     ACL := AWS_ACL |}) Put); reflexivity.
  - destruct (putObject_error E (dstBucket c) (dstKey c)); now apply Hfinish.
Qed.

Lemma in_order_start event total st sz :
  in_order st -> in_order (start event total st sz).
Proof.
  intros Hord. unfold start. destruct (uncaught st); [exact Hord|].
  assert (Hnew : sent (length (jobs st)) (trace st) = []).
  { specialize (Hord (length (jobs st))).
    now rewrite lookup_ge_None_2 in Hord by lia. }
  assert (Happend : forall j' extra st1,
            jobs st1 = jobs st ++ [j'] -> trace st1 = trace st ++ extra ->
            Forall (fun o => request_of o = None \/
                             request_of o = Some (length (jobs st))) extra ->
            match j' with
            | finished _ => exists n, sent (length (jobs st)) extra = take n pipeline
            | _ => sent (length (jobs st)) extra = take (5 - remaining j') pipeline
            end ->
            in_order st1).
  { intros j' extra st1 Hj1 Ht1 Hextra Hsent k.
    rewrite Hj1, Ht1, sent_app. specialize (Hord k).
    destruct (lt_eq_lt_dec k (length (jobs st))) as [[Hlt| ->]|Hgt].
    - rewrite lookup_app_l by exact Hlt.
      rewrite (sent_other k extra), app_nil_r; [exact Hord|].
      eapply Forall_impl; [|exact Hextra]. simpl.
      intros o [-> | ->]; [discriminate | intros [= ?]; lia].
    - rewrite list_lookup_middle by reflexivity. rewrite Hnew. exact Hsent.
    - rewrite lookup_ge_None_2 by (rewrite length_app; simpl; lia).
      rewrite lookup_ge_None_2 in Hord by lia. rewrite Hord.
      apply sent_other. eapply Forall_impl; [|exact Hextra]. simpl.
      intros o [-> | ->]; [discriminate | intros [= ?]; lia]. }
  destruct (iteratee event sz) as [e|err result|c].
  - exact Hord.
  - match goal with |- context [iterator_callback total err ?s] =>
      destruct (iterator_callback_frame total err s)
        as (_ & Hj1 & _ & extra & Ht1 & Hx) end.
    apply (Happend (finished err) extra); [exact Hj1 | exact Ht1 | |].
    + eapply Forall_impl; [|exact Hx]. simpl. auto.
    + exists 0. now apply sent_no_request.
  - apply (Happend (download c)
             [s3_getObject_request (length (jobs st)) (srcBucket c) (srcKey c)]);
      try reflexivity.
    + constructor; [now right | constructor].
    + simpl. now rewrite Nat.eqb_refl.
Qed.

Lemma in_order_invoke E event bucket schedule :
  in_order (invoke E event bucket schedule).
Proof.
  unfold invoke. apply (run_invariant E in_order).
  - intros st i. apply in_order_step.
  - unfold handler.
    assert (Hfold : forall sizes st, in_order st ->
              in_order (fold_left (start event (length IMAGE_SIZES)) sizes st)).
    { induction sizes as [|sz sizes IH]; simpl; intros st H; [exact H|].
      apply IH, in_order_start, H. }
    apply Hfold. intros i. reflexivity.
Qed.

(** An iteration sends its requests once each and in the order download,
    identify, encode, upload: at every point of an invocation the requests
    it has sent are exactly those up to the one it is waiting for, and an
    iteration that has called back has sent some initial part of that
    sequence and nothing after it. *)
Theorem requests_in_pipeline_order
    (E : Env) (event : event.t) (bucket : store) (schedule : list nat) (i : nat) :
  let st := invoke E event bucket schedule in
  (exists n, sent i (trace st) = take n [Get; Size; ToBuffer; Put]) /\
  match jobs st !! i with
  | Some (download _) => sent i (trace st) = [Get]
  | Some (transform _ _) => sent i (trace st) = [Get; Size]
  | Some (toBuffer _ _ _) => sent i (trace st) = [Get; Size; ToBuffer]
  | Some (upload _ _ _) => sent i (trace st) = [Get; Size; ToBuffer; Put]
  | Some (finished _) => True
  | None => sent i (trace st) = []
  end.
Proof.
  intros st. pose proof (in_order_invoke E event bucket schedule i) as H.
  fold st in H. destruct (jobs st !! i) as [j|].
  - destruct j; simpl in H; (split; [|first [exact H | exact I]]).
    + now exists 1.
    + now exists 2.
    + now exists 3.
    + now exists 4.
    + exact H.
  - split; [now exists 0 | exact H].
Qed.

End requests_in_order.

(** ** Invocations: the requests that are made *)

Section requests_made.

Variables (E : Env) (event : event.t).

Lemma requested_update st st' i j' extra :
  requested event st ->
  jobs st' = <[i := j']> (jobs st) ->
  trace st' = trace st ++ extra ->
  (forall sz c j, IMAGE_SIZES !! i = Some sz -> iteratee event sz = Waterfall c ->
     jobs st !! i = Some j ->
     match j' with
     | upload _ contentType data =>
         s3_putObject_request i (dstBucket c) (dstKey c)
           {| Body := data; ContentType := contentType; ACL := AWS_ACL |}
           ∈ trace st ++ extra
     | finished None =>
         exists object,
           s3_putObject_request i (dstBucket c) (dstKey c) object ∈ trace st ++ extra
     | _ => True
     end) ->
  requested event st'.
Proof.
  intros Hreq Hjobs Htrace Hnew k sz c j Hsz Hc Hk.
  rewrite Htrace. rewrite Hjobs in Hk.
  destruct (decide (i = k)) as [->|Hne].
  - destruct (lookup_lt_is_Some_2 (jobs st) k) as [j0 Hj0].
    { apply lookup_lt_Some in Hk. now rewrite length_insert in Hk. }
    rewrite list_lookup_insert_eq in Hk by (eapply lookup_lt_Some; eauto).
    injection Hk as <-.
    destruct (Hreq k sz c j0 Hsz Hc Hj0) as [Hget _]. split.
    + apply elem_of_app. now left.
    + exact (Hnew sz c j0 Hsz Hc Hj0).
  - rewrite list_lookup_insert_ne in Hk by exact Hne.
    destruct (Hreq k sz c j Hsz Hc Hk) as [Hget Hput]. split.
    + apply elem_of_app. now left.
    + destruct j as [| | | |[e|]]; auto.
      * apply elem_of_app. now left.
      * destruct Hput as [object Hput]. exists object. apply elem_of_app. now left.
Qed.

Lemma requested_step st i :
  well_formed event IMAGE_SIZES st -> requested event st ->
  requested event (step E st i).
Proof.
  intros Hwf Hreq. unfold step.
  destruct (uncaught st); [exact Hreq|].
  destruct (jobs st !! i) as [j|] eqn:Hj; [|exact Hreq].
  assert (Hclosure : forall c0 sz c, closure_of j = Some c0 ->
            IMAGE_SIZES !! i = Some sz -> iteratee event sz = Waterfall c -> c0 = c).
  { intros c0 sz c Hc0 Hsz Hc.
    destruct (Forall2_lookup_r _ _ _ _ _ (wf_jobs _ _ _ Hwf) Hj) as (sz' & Hsz' & Hjwf).
    assert (sz' = sz) as -> by congruence.
    pose proof (job_wf_closure event sz j c0 Hc0 Hjwf). congruence. }
  assert (Hfail : forall c0 e st1, jobs st1 = jobs st -> trace st1 = trace st ->
            requested event
              (waterfall_callback (length IMAGE_SIZES) i c0 (Some e) st1)).
  { intros c0 e st1 Hj1 Ht1.
    destruct (waterfall_callback_frame (length IMAGE_SIZES) i c0 (Some e) st1)
      as (_ & Hjobs & _ & extra & Ht & _).
    apply (requested_update st _ i (finished (Some e)) extra Hreq);
      [congruence | congruence | intros; exact I]. }
  destruct j as [c0|c0 response|c0 response g|c0 contentType data|err]; [| | | |exact Hreq].
  - destruct (s3_getObject E (s3 st) (srcBucket c0) (srcKey c0)) as [e|response].
    + now apply Hfail.
    + apply (requested_update st _ i (transform c0 response)
               [gm_size_request i (Body response)] Hreq);
        [reflexivity | reflexivity | intros; exact I].
  - destruct (gm_size E (Body response)) as [size|]; [|exact Hreq].
    apply (requested_update st _ i
             (toBuffer c0 response (transform_geometry (imageSize c0) size))
             [gm_toBuffer_request i (Body response)
                (transform_geometry (imageSize c0) size) (imageType c0)] Hreq);
      [reflexivity | reflexivity | intros; exact I].
  - destruct (gm_toBuffer E (Body response) g (imageType c0)) as [e|buffer].
    + now apply Hfail.
    + apply (requested_update st _ i (upload c0 (ContentType response) buffer)
               [s3_putObject_request i (dstBucket c0) (dstKey c0)
                  {| Body := buffer; ContentType := ContentType response;
                     ACL := AWS_ACL |}] Hreq); [reflexivity | reflexivity |].
      intros sz c j Hsz Hc _. rewrite (Hclosure c0 sz c eq_refl Hsz Hc).
      apply elem_of_app. right. apply list_elem_of_singleton. reflexivity.
  - destruct (putObject_error E (dstBucket c0) (dstKey c0)) as [e|].
    + now apply Hfail.
    + match goal with |- context [waterfall_callback ?t i c0 None ?s] =>
        destruct (waterfall_callback_frame t i c0 None s)
          as (_ & Hjobs & _ & extra & Ht & _) end.
      apply (requested_update st _ i (finished None) extra Hreq);
        [exact Hjobs | exact Ht |].
      intros sz c j Hsz Hc _.
      destruct (Hreq i sz c _ Hsz Hc Hj) as [_ Hput].
      eexists. apply elem_of_app. left. exact Hput.
Qed.

Variables (bucket : store) (key : jsstring).
Hypothesis Hkey : key_of event = Some key.

Lemma fold_start_requested total (sizes done : list imageSize.t) st :
  uncaught st = None ->
  jobs st = map (fun sz => job_of (iteratee event sz)) done ->
  s3 st = bucket ->
  trace_wf event done st ->
  (forall i sz c, done !! i = Some sz -> iteratee event sz = Waterfall c ->
     s3_getObject_request i (srcBucket c) (srcKey c) ∈ trace st) ->
  let st' := fold_left (start event total) sizes st in
  forall i sz c, (done ++ sizes) !! i = Some sz -> iteratee event sz = Waterfall c ->
    s3_getObject_request i (srcBucket c) (srcKey c) ∈ trace st'.
Proof.
  revert done st. induction sizes as [|sz0 sizes IH]; intros done st Hu Hj Hs Ht Hg.
  - simpl. now rewrite app_nil_r.
  - simpl. destruct (start_spec event bucket key Hkey total done st sz0 Hu Hj Hs Ht)
      as (Hu' & Hj' & Hs' & Ht').
    assert (Hg' : forall i sz c, (done ++ [sz0]) !! i = Some sz ->
              iteratee event sz = Waterfall c ->
              s3_getObject_request i (srcBucket c) (srcKey c)
                ∈ trace (start event total st sz0)).
    { intros i sz c Hi Hc.
      assert (Hlen : length (jobs st) = length done) by (now rewrite Hj, length_map).
      unfold start. rewrite Hu.
      apply lookup_app_Some in Hi as [Hi|[Hge Hi]].
      - specialize (Hg i sz c Hi Hc).
        destruct (iteratee event sz0) as [e|err result|c0]; [exact Hg| |].
        + match goal with |- context [iterator_callback total err ?s] =>
            destruct (iterator_callback_frame total err s)
              as (_ & _ & _ & extra & Hex & _) end.
          rewrite Hex. apply elem_of_app. now left.
        + simpl. apply elem_of_app. now left.
      - assert (i = length done /\ sz = sz0) as [-> ->].
        { destruct (i - length done)%nat as [|n] eqn:Hn; simpl in Hi; [|discriminate].
          injection Hi as ->. split; [lia | reflexivity]. }
        rewrite Hc. simpl. rewrite Hlen. apply elem_of_app. right.
        apply list_elem_of_singleton. reflexivity. }
    intros i sz c Hi Hc.
    apply (IH (done ++ [sz0]) _ Hu' Hj' Hs' Ht' Hg' i sz c);
      [now rewrite <- app_assoc | exact Hc].
Qed.

Lemma requested_handler : requested event (handler event bucket).
Proof.
  intros i sz c j Hsz Hc Hj.
  destruct (handler_spec event bucket key Hkey) as (_ & Hjobs & _).
  rewrite Hjobs in Hj. change (map ?f ?l) with (f <$> l) in Hj.
  rewrite list_lookup_fmap, Hsz in Hj. simpl in Hj. rewrite Hc in Hj.
  injection Hj as <-. split; [|exact I].
  unfold handler.
  match goal with |- context [fold_left _ _ ?init] =>
    apply (fold_start_requested (length IMAGE_SIZES) IMAGE_SIZES [] init
             eq_refl eq_refl eq_refl) with (sz := sz) end; auto.
  - intros o k Ho. now apply elem_of_nil in Ho.
  - intros k sz' c' Hk. discriminate.
Qed.

Lemma requested_invoke schedule : requested event (invoke E event bucket schedule).
Proof.
  unfold invoke.
  apply (run_invariant E
           (fun st => well_formed event IMAGE_SIZES st /\ requested event st)).
  - intros st i [Hwf Hreq].
    split; [now apply well_formed_step | now apply requested_step].
  - split; [|exact requested_handler].
    now destruct (handler_spec event bucket key Hkey) as (_ & _ & _ & Hwf).
Qed.

(** An iteration on a resizeable key that is not its own rendition enters
    the waterfall, with the closure of lines 62-68. *)
Lemma iteratee_resizeable sz imageType :
  destination_key sz key <> key ->
  match_extension key = Some imageType -> resizeable imageType ->
  iteratee event sz =
    Waterfall {| imageSize := sz;
                 srcBucket := bucket_of event; srcKey := key;
                 dstBucket := bucket_of event; dstKey := destination_key sz key;
                 imageType := imageType |}.
Proof.
  intros Hne Hext Htype. unfold iteratee. rewrite Hkey.
  rewrite bool_decide_eq_false_2 by exact Hne. rewrite Hext.
  assert (Hsel : neq imageType (js "jpg") && neq imageType (js "jpeg")
                 && neq imageType (js "png") = false).
  { destruct Htype as [-> | [-> | ->]]; reflexivity. }
  now rewrite Hsel.
Qed.

(** What the requests of such an iteration name, and what it leaves in the
    bucket once it has called back without error. *)
Lemma waterfall_requests schedule i sz imageType :
  IMAGE_SIZES !! i = Some sz ->
  destination_key sz key <> key ->
  match_extension key = Some imageType -> resizeable imageType ->
  let st := invoke E event bucket schedule in
  let srcBucket := bucket_of event in
  let dstKey := destination_key sz key in
  s3_getObject_request i srcBucket key ∈ trace st /\
  (forall Bucket Key, s3_getObject_request i Bucket Key ∈ trace st ->
     Bucket = srcBucket /\ Key = key) /\
  (forall Bucket Key object, s3_putObject_request i Bucket Key object ∈ trace st ->
     Bucket = srcBucket /\ Key = dstKey) /\
  (jobs st !! i = Some (finished None) ->
   exists source object,
     bucket !! (srcBucket, key) = Some source /\
     ContentType object = ContentType source /\
     s3_putObject_request i srcBucket dstKey object ∈ trace st /\
     s3 st !! (srcBucket, dstKey) = Some object).
Proof.
  intros Hsz Hne Hext Htype st. cbv zeta.
  pose proof (iteratee_resizeable sz imageType Hne Hext Htype) as Hc.
  set (c := {| imageSize := sz; srcBucket := bucket_of event; srcKey := key;
               dstBucket := bucket_of event; dstKey := destination_key sz key;
               imageType := imageType |}) in Hc.
  pose proof (requested_invoke schedule) as Hreq. fold st in Hreq.
  pose proof (trace_sem_invoke E event bucket key Hkey schedule) as Hsem.
  fold st in Hsem.
  destruct (invoke_computed E event bucket key schedule Hkey) as [Hcp Hout].
  fold st in Hcp, Hout.
  assert (Hlookup : exists j, jobs st !! i = Some j).
  { apply lookup_lt_is_Some_2. rewrite (cp_length _ _ _ _ Hcp).
    eapply lookup_lt_Some; eauto. }
  destruct Hlookup as [j Hj].
  destruct (Hreq i sz c j Hsz Hc Hj) as [Hget Hput].
  assert (Hown : forall o, o ∈ trace st -> request_of o = Some i ->
            request_sem E bucket c o).
  { intros o Ho Hi. destruct (Hsem o i Ho Hi) as (sz' & c' & Hsz' & Hc' & Hrs).
    assert (sz' = sz) as -> by congruence.
    assert (c' = c) as -> by congruence. exact Hrs. }
  split_and!.
  - exact Hget.
  - intros B K Ho. exact (Hown _ Ho eq_refl).
  - intros B K object Ho.
    destruct (Hown _ Ho eq_refl) as (_ & _ & _ & _ & _ & _ & _ & HB & HK). auto.
  - intros Hfin. rewrite Hfin in Hj. injection Hj as <-.
    destruct Hput as [object Hput].
    destruct (Hown _ Hput eq_refl)
      as (response & size & data & Hsrc & Hsize & Hbuf & Hobj & _ & _).
    exists response, object. split_and!.
    + revert Hsrc. unfold s3_getObject. simpl.
      destruct (getObject_error E (bucket_of event) key); [discriminate|].
      destruct (bucket !! (bucket_of event, key)); [intros [= ->]; reflexivity | discriminate].
    + now rewrite Hobj.
    + exact Hput.
    + pose proof (Hout i sz None Hsz Hfin) as Hexp.
      unfold expected in Hexp. rewrite Hc in Hexp.
      assert (Hren : rendition E bucket c = Some object).
      { unfold waterfall_outcome in Hexp. unfold rendition.
        rewrite Hsrc, Hsize in *. cbv zeta in *. rewrite Hbuf in *.
        destruct (putObject_error E (dstBucket c) (dstKey c)); [discriminate|].
        now rewrite Hobj. }
      pose proof (cp_jobs _ _ _ _ Hcp i sz _ Hsz Hfin) as Hjs. simpl in Hjs.
      change (s3 st !! dst c = Some object).
      rewrite (Hjs c Hc). unfold stored. now rewrite Hren.
Qed.

(** Once every request has completed, an iteration whose rendition can be
    made has called back without error, the upload it requested carries
    that rendition, and the rendition is in the bucket. *)
Lemma waterfall_completes schedule i sz imageType object :
  IMAGE_SIZES !! i = Some sz ->
  destination_key sz key <> key ->
  match_extension key = Some imageType -> resizeable imageType ->
  fair schedule = true ->
  rendition E bucket
    {| imageSize := sz; srcBucket := bucket_of event; srcKey := key;
       dstBucket := bucket_of event; dstKey := destination_key sz key;
       imageType := imageType |} = Some object ->
  let st := invoke E event bucket schedule in
  jobs st !! i = Some (finished None) /\
  s3_putObject_request i (bucket_of event) (destination_key sz key) object
    ∈ trace st /\
  s3 st !! (bucket_of event, destination_key sz key) = Some object.
Proof.
  intros Hsz Hne Hext Htype Hfair Hren st.
  pose proof (iteratee_resizeable sz imageType Hne Hext Htype) as Hc.
  set (c := {| imageSize := sz; srcBucket := bucket_of event; srcKey := key;
               dstBucket := bucket_of event; dstKey := destination_key sz key;
               imageType := imageType |}) in *.
  assert (Hin : sz ∈ IMAGE_SIZES) by (eapply list_elem_of_lookup_2; eauto).
  pose proof (fair_run_is_terminal E event bucket schedule Hfair) as Hterm.
  fold st in Hterm.
  pose proof (rendition_is_stored E event bucket schedule sz c object
                Hterm Hin Hc Hren) as Hstored.
  fold st in Hstored. change (dst c) with (bucket_of event, destination_key sz key) in Hstored.
  destruct (invoke_computed E event bucket key schedule Hkey) as [Hcp Hout].
  fold st in Hcp, Hout.
  assert (Hfin : jobs st !! i = Some (finished None)).
  { destruct Hterm as [Hunc|Hall].
    - pose proof (cp_uncaught _ _ _ _ Hcp Hunc sz c Hin Hc). congruence.
    - destruct (lookup_lt_is_Some_2 (jobs st) i) as [j Hj].
      { rewrite (cp_length _ _ _ _ Hcp). eapply lookup_lt_Some; eauto. }
      rewrite Forall_forall in Hall.
      assert (Hf : is_finished j = true).
      { apply Hall, list_elem_of_In. eapply list_elem_of_lookup_2; eauto. }
      destruct j as [| | | |err]; try discriminate.
      pose proof (Hout i sz err Hsz Hj) as Hexp.
      unfold expected in Hexp. rewrite Hc in Hexp.
      apply rendition_outcome in Hren. rewrite Hren in Hexp.
      injection Hexp as <-. exact Hj. }
  destruct (waterfall_requests schedule i sz imageType Hsz Hne Hext Htype)
    as (_ & _ & _ & Hput).
  destruct (Hput Hfin) as (source & o & _ & _ & Hreq & Hs).
  fold st in Hs, Hreq.
  assert (o = object) as -> by congruence.
  auto.
Qed.

End requests_made.

(** ** Resolving the source and the destination *)

Section resolution_claims.

Lemma before_first_spec sep (s : jsstring) :
  (sep ∉ before_first sep s) /\
  (s = before_first sep s \/ exists rest, s = before_first sep s ++ sep :: rest).
Proof.
  induction s as [|c r [IHn IHs]]; simpl.
  - split; [apply not_elem_of_nil | now left].
  - destruct (N.eqb_spec c sep) as [->|Hne].
    + split; [apply not_elem_of_nil|]. right. now exists r.
    + split.
      * apply not_elem_of_cons. split; [congruence | exact IHn].
      * destruct IHs as [Hs|[rest Hs]].
        -- left. now rewrite <- Hs.
        -- right. exists rest. now rewrite Hs at 1.
Qed.

(** C4: the key of the event has its [+] replaced by spaces and is then
    percent-decoded; a key without percent escapes is only changed in that
    each [+] becomes a space. For a decoded key with at least 2 segments, the
    destination key is the size name, the second-to-last segment and the last
    segment, joined by slashes, whatever the other segments are. The
    iteration fails with the identical-keys error exactly when that
    destination equals the decoded key, and sends no request then.
    Otherwise it goes on to the type checks, and for a jpg, jpeg or png key
    it runs with the decoded key as source and that destination, both in the
    bucket of the event: it requests the download of the decoded key, every
    request it sends names these keys and that bucket, and once it has
    called back without error the object it uploaded is in that bucket under
    the destination key; when every request has completed and the rendition
    can be made, that is what has happened. *)
Theorem C4_destination_key
    (E : Env) (event : event.t) (bucket : store) (schedule : list nat)
    (sz : imageSize.t) (key : jsstring) :
  decodeURIComponent (replace_plus (event.object_key event)) = Some key ->
  (2 <= length (split char_slash key))%nat ->
  (char_percent ∉ event.object_key event ->
   key = map (fun c => if c =? char_plus then char_space else c)
             (event.object_key event)) /\
  exists (others : list jsstring) (secondToLast last : jsstring),
    split char_slash key = others ++ [secondToLast; last] /\
    let dst := imageSize.name sz ++ js "/" ++ secondToLast ++ js "/" ++ last in
    destination_key sz key = dst /\
    iteratee event sz =
      (if bool_decide (dst = key) then Returns (Some same_error) None
       else
         match match_extension key with
         | None => Returns (Some type_error) None
         | Some imageType =>
             if neq imageType (js "jpg") && neq imageType (js "jpeg")
                && neq imageType (js "png")
             then Returns None (Some (skip_message imageType))
             else Waterfall {| imageSize := sz;
                               srcBucket := bucket_of event; srcKey := key;
                               dstBucket := bucket_of event; dstKey := dst;
                               imageType := imageType |}
         end) /\
    (iteratee event sz = Returns (Some same_error) None <-> dst = key) /\
    forall i, IMAGE_SIZES !! i = Some sz ->
      let st := invoke E event bucket schedule in
      (dst = key ->
       jobs st !! i = Some (finished (Some same_error)) /\
       forall o, o ∈ trace st -> request_of o <> Some i) /\
      (forall imageType,
         dst <> key -> match_extension key = Some imageType ->
         resizeable imageType ->
         s3_getObject_request i (bucket_of event) key ∈ trace st /\
         (forall Bucket Key, s3_getObject_request i Bucket Key ∈ trace st ->
            Bucket = bucket_of event /\ Key = key) /\
         (forall Bucket Key object,
            s3_putObject_request i Bucket Key object ∈ trace st ->
            Bucket = bucket_of event /\ Key = dst) /\
         (jobs st !! i = Some (finished None) ->
          exists source object,
            bucket !! (bucket_of event, key) = Some source /\
            ContentType object = ContentType source /\
            s3_putObject_request i (bucket_of event) dst object ∈ trace st /\
            s3 st !! (bucket_of event, dst) = Some object) /\
         (forall object,
            fair schedule = true ->
            rendition E bucket
              {| imageSize := sz; srcBucket := bucket_of event; srcKey := key;
                 dstBucket := bucket_of event; dstKey := dst;
                 imageType := imageType |} = Some object ->
            jobs st !! i = Some (finished None) /\
            s3_putObject_request i (bucket_of event) dst object ∈ trace st /\
            s3 st !! (bucket_of event, dst) = Some object)).
Proof.
  intros Hkey Hlen. split.
  { intros Hnot.
    assert (Hplain : decodeURIComponent (replace_plus (event.object_key event))
                     = Some (replace_plus (event.object_key event))).
    { apply Decode_without_escape. intros Hin.
      apply replace_plus_elem in Hin as [Hin _]; [auto | discriminate]. }
    rewrite Hplain in Hkey. now injection Hkey as <-. }
  destruct (last_two _ Hlen) as (others & a & b & Hsplit).
  exists others, a, b. split; [exact Hsplit|]. cbv zeta.
  assert (Hdst : destination_key sz key
                 = imageSize.name sz ++ js "/" ++ a ++ js "/" ++ b).
  { unfold destination_key. rewrite Hsplit.
    destruct (index_rev_last_two others a b) as [-> ->]. reflexivity. }
  rewrite <- Hdst.
  assert (Hit : iteratee event sz =
            (if bool_decide (destination_key sz key = key)
             then Returns (Some same_error) None
             else
               match match_extension key with
               | None => Returns (Some type_error) None
               | Some imageType =>
                   if neq imageType (js "jpg") && neq imageType (js "jpeg")
                      && neq imageType (js "png")
                   then Returns None (Some (skip_message imageType))
                   else Waterfall {| imageSize := sz;
                                     srcBucket := bucket_of event; srcKey := key;
                                     dstBucket := bucket_of event;
                                     dstKey := destination_key sz key;
                                     imageType := imageType |}
               end)).
  { unfold iteratee, key_of. rewrite Hkey. reflexivity. }
  assert (Hguard : iteratee event sz = Returns (Some same_error) None
                   <-> destination_key sz key = key).
  { rewrite Hit.
    destruct (bool_decide_reflect (destination_key sz key = key)) as [Heq|Hne];
      [tauto|].
    split; [|contradiction]. intros H. exfalso.
    destruct (match_extension key) as [t|]; [|discriminate].
    destruct (neq t (js "jpg") && neq t (js "jpeg") && neq t (js "png"));
      discriminate. }
  split; [reflexivity|]. split; [exact Hit|]. split; [exact Hguard|].
  intros i Hsz. split.
  - intros Heq. apply Hguard in Heq.
    exact (returns_early E event bucket schedule sz i _ _ Heq Hsz).
  - intros imageType Hne Hext Htype.
    destruct (waterfall_requests E event bucket key Hkey schedule i sz imageType
                Hsz Hne Hext Htype) as (Hget & Hgets & Hputs & Hput).
    split_and!; auto.
    intros object Hfair Hren.
    exact (waterfall_completes E event bucket key Hkey schedule i sz imageType
             object Hsz Hne Hext Htype Hfair Hren).
Qed.

Lemma C4_destination_key_witness :
  let event := event.mk (js "bucket") (js "original/abc123/Darth+Vader%21.jpg") in
  let bucket : store :=
    {[ (js "bucket", js "original/abc123/Darth Vader!.jpg") := photo ]} in
  let object := {| Body := Body photo; ContentType := js "image/jpeg";
                   ACL := js "public-read" |} in
  let st := invoke quiet event bucket round_robin in
  iteratee event thumb =
    Waterfall {| imageSize := thumb;
                 srcBucket := js "bucket";
                 srcKey := js "original/abc123/Darth Vader!.jpg";
                 dstBucket := js "bucket";
                 dstKey := js "thumb/abc123/Darth Vader!.jpg";
                 imageType := js "jpg" |} /\
  s3_getObject_request 4 (js "bucket") (js "original/abc123/Darth Vader!.jpg")
    ∈ trace st /\
  jobs st !! 4%nat = Some (finished None) /\
  s3_putObject_request 4 (js "bucket") (js "thumb/abc123/Darth Vader!.jpg") object
    ∈ trace st /\
  s3 st !! (js "bucket", js "thumb/abc123/Darth Vader!.jpg") = Some object.
Proof.
  destruct (C4_destination_key quiet
              (event.mk (js "bucket") (js "original/abc123/Darth+Vader%21.jpg"))
              {[ (js "bucket", js "original/abc123/Darth Vader!.jpg") := photo ]}
              round_robin thumb (js "original/abc123/Darth Vader!.jpg")
              eq_refl (le_S _ _ (le_n 2)))
    as (_ & others & a & b & _ & Hdst & Hit & _ & Hrun).
  cbv zeta in Hit, Hrun. rewrite <- Hdst in Hit, Hrun.
  change (destination_key thumb (js "original/abc123/Darth Vader!.jpg"))
    with (js "thumb/abc123/Darth Vader!.jpg") in Hit, Hrun.
  destruct (Hrun 4%nat eq_refl) as [_ Hresize].
  destruct (Hresize (js "jpg")) as (Hget & _ & _ & _ & Hlive).
  { vm_compute. discriminate. }
  { reflexivity. }
  { left. reflexivity. }
  destruct (Hlive {| Body := Body photo; ContentType := js "image/jpeg";
                     ACL := js "public-read" |})
    as (Hfin & Hreq & Hstored).
  { reflexivity. }
  { vm_compute. reflexivity. }
  cbv zeta. split; [rewrite Hit; reflexivity|].
  split; [exact Hget|]. split; [exact Hfin|]. split; [exact Hreq | exact Hstored].
Defined.

(** C10: the bucket name of the event is cut at its first slash, and that
    prefix is the bucket of every iteration. An iteration on a resizeable
    key that is not its own rendition runs with that prefix as source and as
    destination bucket: it requests the download of the decoded key from
    it, and once it has called back without error the object it uploaded,
    made from the source object of that bucket, is stored in it under the
    destination key; when every request has completed and the rendition can
    be made, that is what has happened. Every download and every upload
    requested names it,
    every pending iteration reads from it and writes to it, and the objects
    of any other bucket are left as they were. *)
Theorem C10_bucket_is_truncated
    (E : Env) (event : event.t) (bucket : store) (schedule : list nat) :
  let name := before_first char_slash (event.bucket_name event) in
  let st := invoke E event bucket schedule in
  bucket_of event = name /\
  (char_slash ∉ name) /\
  (event.bucket_name event = name \/
   exists rest, event.bucket_name event = name ++ js "/" ++ rest) /\
  (forall i sz key imageType,
     IMAGE_SIZES !! i = Some sz ->
     decodeURIComponent (replace_plus (event.object_key event)) = Some key ->
     destination_key sz key <> key ->
     match_extension key = Some imageType -> resizeable imageType ->
     iteratee event sz =
       Waterfall {| imageSize := sz; srcBucket := name; srcKey := key;
                    dstBucket := name; dstKey := destination_key sz key;
                    imageType := imageType |} /\
     s3_getObject_request i name key ∈ trace st /\
     (jobs st !! i = Some (finished None) ->
      exists source object,
        bucket !! (name, key) = Some source /\
        ContentType object = ContentType source /\
        s3_putObject_request i name (destination_key sz key) object ∈ trace st /\
        s3 st !! (name, destination_key sz key) = Some object) /\
     (forall object,
        fair schedule = true ->
        rendition E bucket
          {| imageSize := sz; srcBucket := name; srcKey := key;
             dstBucket := name; dstKey := destination_key sz key;
             imageType := imageType |} = Some object ->
        jobs st !! i = Some (finished None) /\
        s3_putObject_request i name (destination_key sz key) object ∈ trace st /\
        s3 st !! (name, destination_key sz key) = Some object)) /\
  (forall o, o ∈ trace st ->
     match o with
     | s3_getObject_request _ Bucket _ => Bucket = name
     | s3_putObject_request _ Bucket _ _ => Bucket = name
     | _ => True
     end) /\
  (forall i j c, jobs st !! i = Some j -> closure_of j = Some c ->
     srcBucket c = name /\ dstBucket c = name) /\
  (forall Bucket Key, Bucket <> name -> s3 st !! (Bucket, Key) = bucket !! (Bucket, Key)).
Proof.
  intros name st.
  pose proof (bucket_of_before_first event) as Hname0. fold name in Hname0.
  destruct (before_first_spec char_slash (event.bucket_name event)) as [Hno Hcut].
  fold name in Hno, Hcut.
  split; [exact Hname0|]. split; [exact Hno|]. split; [exact Hcut|]. split.
  { intros i sz key imageType Hsz Hkey Hne Hext Htype.
    rewrite <- Hname0.
    destruct (waterfall_requests E event bucket key Hkey schedule i sz imageType
                Hsz Hne Hext Htype) as (Hget & _ & _ & Hput).
    split_and!; [|assumption|assumption|].
    - exact (iteratee_resizeable event key Hkey sz imageType Hne Hext Htype).
    - intros object Hfair Hren.
      exact (waterfall_completes E event bucket key Hkey schedule i sz imageType
               object Hsz Hne Hext Htype Hfair Hren). }
  destruct (key_of event) as [key|] eqn:Hkey.
  - pose proof (invoke_well_formed E event bucket schedule key Hkey) as [Hjobs Htrace].
    fold st in Hjobs, Htrace.
    assert (Hname : forall sz c, iteratee event sz = Waterfall c ->
              srcBucket c = name /\ dstBucket c = name).
    { intros sz c Hc. pose proof (iteratee_cases event sz) as Hcases.
      rewrite Hc in Hcases. destruct Hcases as (_ & _ & Hsb & Hdb & _).
      rewrite Hname0 in Hsb, Hdb. auto. }
    split_and!.
    + intros o Ho.
      destruct (request_of o) as [i|] eqn:Hreq; [|destruct o; try exact I; discriminate].
      destruct (Htrace o i Ho Hreq) as (sz & c & _ & Hc & Hwf).
      destruct (Hname sz c Hc) as [Hsb Hdb].
      destruct o; try exact I; simpl in Hwf; destruct Hwf as [-> _]; assumption.
    + intros i j c Hj Hcl.
      destruct (Forall2_lookup_r _ _ _ _ _ Hjobs Hj) as (sz & _ & Hwf).
      apply (Hname sz c). eapply job_wf_closure; eauto.
    + intros Bucket Key Hne.
      assert (Hcp : computed E event bucket st)
        by apply computed_run, (computed_handler E event bucket key Hkey).
      apply (cp_other _ _ _ _ Hcp). intros sz c _ Hc Heq.
      destruct (Hname sz c Hc) as [_ Hdb]. unfold dst in Heq. congruence.
  - unfold st. rewrite (invoke_undecodable E event bucket schedule Hkey). simpl.
    split_and!.
    + intros o Ho. now apply elem_of_nil in Ho.
    + intros i j c Hj. discriminate.
    + reflexivity.
Qed.

Lemma C10_bucket_is_truncated_witness :
  let bucket : store :=
    {[ (js "photos", js "original/abc123/DarthVader.jpg") := photo ]} in
  let object := {| Body := Body photo; ContentType := js "image/jpeg";
                   ACL := js "public-read" |} in
  let st := invoke quiet upload_to_folder bucket round_robin in
  bucket_of upload_to_folder = js "photos" /\
  s3_getObject_request 4 (js "photos") (js "original/abc123/DarthVader.jpg")
    ∈ trace st /\
  jobs st !! 4%nat = Some (finished None) /\
  s3_putObject_request 4 (js "photos") (js "thumb/abc123/DarthVader.jpg") object
    ∈ trace st /\
  s3 st !! (js "photos", js "thumb/abc123/DarthVader.jpg") = Some object /\
  forall Key, s3 st !! (js "photos/incoming", Key) = None.
Proof.
  pose proof (C10_bucket_is_truncated quiet upload_to_folder
                {[ (js "photos", js "original/abc123/DarthVader.jpg") := photo ]}
                round_robin) as H.
  cbv zeta in H.
  change (before_first char_slash (event.bucket_name upload_to_folder))
    with (js "photos") in H.
  destruct H as (Hname & _ & _ & Hjob & _ & _ & Hother).
  destruct (Hjob 4%nat thumb (js "original/abc123/DarthVader.jpg") (js "jpg"))
    as (_ & Hget & _ & Hlive); try reflexivity.
  { vm_compute. discriminate. }
  { left. reflexivity. }
  destruct (Hlive {| Body := Body photo; ContentType := js "image/jpeg";
                     ACL := js "public-read" |})
    as (Hfin & Hreq & Hstored).
  { reflexivity. }
  { vm_compute. reflexivity. }
  change (destination_key thumb (js "original/abc123/DarthVader.jpg"))
    with (js "thumb/abc123/DarthVader.jpg") in Hreq, Hstored.
  cbv zeta. split; [exact Hname|]. split; [exact Hget|]. split; [exact Hfin|].
  split; [exact Hreq|]. split; [exact Hstored|].
  intros Key. rewrite Hother by (vm_compute; discriminate).
  apply lookup_singleton_ne. vm_compute. discriminate.
Defined.

End resolution_claims.
